(** * Slide-FFmpeg job pipeline: a shallow embedding and its properties

  The development follows the repository's sources:
  - [server.js]: the concurrency limiter [pLimit], the segment normaliser
    and the [POST /generate-video] handler;
  - [lib/download.js]: [downloadFileToPath] and its retry loop;
  - [lib/ffmpegHelpers.js]: [createVideoFromSegments], [createSegmentVideo]
    and [concatVideos].

  JavaScript values are an inductive type, numbers are binary64 floats
  (the Standard Library's [spec_float] with its rounding), asynchronous code is modelled by
  explicit state passing (the limiter), by oracles for what the outside
  world answers (HTTP attempts, ffmpeg runs, the upload) and by a trace of
  the effects the handler performs. *)

From Stdlib Require Import ZArith Lia String Ascii List.
From Stdlib Require Import DecimalString DecimalNat SpecFloat.
From stdpp Require Import base list strings.
Import ListNotations.

Set Warnings "-register-all".

Open Scope Z_scope.

(** ** The concurrency limiter ([pLimit], server.js) *)

Module Limiter.

(** What the promise returned by [fn()] settles with. *)
Inductive Settlement (A E : Type) : Type :=
| Fulfilled (val : A)
| Rejected (err : E).
Arguments Fulfilled {A E} val.
Arguments Rejected {A E} err.

Section WithTasks.

(** [T] is the type of the queued closures [fn]; each of them is an
    [async] function, as the one caller in server.js passes: invoking it
    never throws synchronously, and the promise it returns settles later
    with [run fn]. *)
Context {T A E : Type}.
Variable run : T -> Settlement A E.

(** The closure state of [pLimit]: [queue] and [active] are the two
    variables of the source.  [inflight] holds the entries whose [fn()]
    promise has not settled yet (their [then] callbacks are pending);
    [started] and [settled] are logs: the entries in the order [next]
    shifted them off the queue, and the calls of [resolve]/[reject] in the
    order they were made. *)
Record state : Type := mkState {
  queue : list T;
  active : Z;
  inflight : list T;
  started : list T;
  settled : list (T * Settlement A E)
}.

Definition init : state :=
  {| queue := []; active := 0; inflight := []; started := []; settled := [] |}.

(** [next]: return when the queue is empty or [active >= concurrency];
    otherwise [active++], shift the head of the queue and call it. *)
Definition next (concurrency : Z) (s : state) : state :=
  match queue s with
  | [] => s
  | e :: q =>
      if active s >=? concurrency then s
      else {| queue := q;
              active := active s + 1;
              inflight := inflight s ++ [e];
              started := started s ++ [e];
              settled := settled s |}
  end.

(** [limit(fn)]: [queue.push({fn, resolve, reject}); next()]. *)
Definition submit (concurrency : Z) (fn : T) (s : state) : state :=
  next concurrency
    {| queue := queue s ++ [fn]; active := active s; inflight := inflight s;
       started := started s; settled := settled s |}.

(** The promise of the [k]-th in-flight entry settles: both callbacks do
    [active--], pass the settlement on to that entry's own [resolve] or
    [reject], and call [next()].  [None] when there is no such entry. *)
Definition settle (concurrency : Z) (k : nat) (s : state) : option state :=
  match inflight s !! k with
  | None => None
  | Some e =>
      Some (next concurrency
              {| queue := queue s;
                 active := active s - 1;
                 inflight := delete k (inflight s);
                 started := started s;
                 settled := settled s ++ [(e, run e)] |})
  end.

Inductive event : Type :=
| Submit (fn : T)
| Settle (k : nat).

Definition step (concurrency : Z) (s : state) (ev : event) : option state :=
  match ev with
  | Submit fn => Some (submit concurrency fn s)
  | Settle k => settle concurrency k s
  end.

Fixpoint exec (concurrency : Z) (evs : list event) (s : state) : option state :=
  match evs with
  | [] => Some s
  | ev :: evs' =>
      match step concurrency s ev with
      | Some s' => exec concurrency evs' s'
      | None => None
      end
  end.

(** The closures handed to [limit], in call order. *)
Fixpoint submitted (evs : list event) : list T :=
  match evs with
  | [] => []
  | Submit fn :: evs' => fn :: submitted evs'
  | Settle _ :: evs' => submitted evs'
  end.

(** A whole fan-out: every closure of [fns] is handed to [limit] in one
    synchronous pass (the [map] of the handler), then in-flight promises
    settle one at a time, [sched] choosing which (any choice is reduced
    modulo the number of promises in flight). *)
Definition submit_all (concurrency : Z) (fns : list T) (s : state) : state :=
  fold_left (fun s fn => submit concurrency fn s) fns s.

Fixpoint drain (concurrency : Z) (sched : list nat) (fuel : nat) (s : state) : state :=
  match fuel with
  | O => s
  | S fuel' =>
      match inflight s with
      | [] => s
      | _ :: _ =>
          let k := (hd 0%nat sched mod length (inflight s))%nat in
          match settle concurrency k s with
          | Some s' => drain concurrency (tl sched) fuel' s'
          | None => s
          end
      end
  end.

Definition run_all (concurrency : Z) (sched : list nat) (fns : list T) : state :=
  drain concurrency sched (length fns) (submit_all concurrency fns init).

(** The invariant every reachable state satisfies. *)
Record inv (concurrency : Z) (subm : list T) (s : state) : Prop := mkInv {
  inv_active : active s = Z.of_nat (length (inflight s));
  inv_bound : active s <= Z.max 0 concurrency;
  inv_fifo : started s ++ queue s = subm;
  inv_busy : queue s <> [] -> active s >= concurrency;
  inv_own : Forall (fun p => snd p = run (fst p)) (settled s);
  inv_perm : map fst (settled s) ++ inflight s ≡ₚ started s
}.

(** What [next] needs of the state it is called in: [inv] but for
    [inv_busy], which may hold one slot short. *)
Record pre_inv (concurrency : Z) (subm : list T) (s : state) : Prop := mkPre {
  pre_active : active s = Z.of_nat (length (inflight s));
  pre_bound : active s <= Z.max 0 concurrency;
  pre_fifo : started s ++ queue s = subm;
  pre_busy : queue s <> [] -> active s >= concurrency - 1 \/ tl (queue s) = [];
  pre_own : Forall (fun p => snd p = run (fst p)) (settled s);
  pre_perm : map fst (settled s) ++ inflight s ≡ₚ started s
}.

(** The entries not yet settled. *)
Definition unsettled (s : state) : nat := (length (queue s) + length (inflight s))%nat.

End WithTasks.

Arguments state : clear implicits.
Arguments event : clear implicits.

End Limiter.

(** [MAX_CONCURRENCY = Math.max(1, os.cpus().length - 1)]. *)
Definition MAX_CONCURRENCY (cpus : Z) : Z := Z.max 1 (cpus - 1).


(** ** JavaScript values *)

(** A JS number is an IEEE 754 binary64 value: a signed zero, a signed
    infinity, NaN, or [S754_finite s m e] for (-1)^s * m * 2^e, with 53
    bits of precision and exponents below 1024.  The arithmetic is
    [SpecFloat]'s, which rounds to nearest, ties to even, as JS does. *)
Definition prec : Z := 53.
Definition emax : Z := 1024.
Definition Num : Type := spec_float.

(** A value as [JSON.parse] builds it, plus [undefined].  An object is the
    list of its own properties; a parsed object has each key once. *)
Inductive Value : Type :=
| VUndef
| VNull
| VBool (b : bool)
| VNum (n : Num)
| VStr (s : string)
| VArr (items : list Value)
| VObj (props : list (string * Value)).

(** The number an integer literal or a JSON integer denotes (the nearest
    binary64 value; the integer itself below 2^53). *)
Definition num_of_Z (z : Z) : Num := binary_normalize prec emax z 0 false.
Definition VInt (z : Z) : Value := VNum (num_of_Z z).

(** [a * b] and [a / b] on numbers. *)
Definition f64_mul : Num -> Num -> Num := SFmul prec emax.
Definition f64_div : Num -> Num -> Num := SFdiv prec emax.

(** [Number.isFinite]. *)
Definition num_isFinite (n : Num) : bool :=
  match n with S754_zero _ | S754_finite _ _ _ => true | _ => false end.

(** ToBoolean on a number: [0], [-0] and NaN are falsy. *)
Definition num_truthy (n : Num) : bool :=
  match n with
  | S754_zero _ | S754_nan => false
  | S754_finite _ _ _ | S754_infinity _ => true
  end.

Definition is_neg_zero (x : Num) : bool :=
  match x with S754_zero true => true | _ => false end.

(** [Math.min(a, b)] and [Math.max(a, b)]: NaN when either is NaN, and
    [-0] counts as below [+0]; [Math.min(a, b, c)] is
    [js_min (js_min a b) c]. *)
Definition js_min (a b : Num) : Num :=
  match SFcompare a b with
  | None => S754_nan
  | Some Lt => a
  | Some Gt => b
  | Some Eq => if is_neg_zero a then a else b
  end.

Definition js_max (a b : Num) : Num :=
  match SFcompare a b with
  | None => S754_nan
  | Some Lt => b
  | Some Gt => a
  | Some Eq => if is_neg_zero a then b else a
  end.

(** The integer floor of the finite number (-1)^s * m * 2^e. *)
Definition floorZ (s : bool) (m : positive) (e : Z) : Z :=
  let v := if s then Zneg m else Zpos m in
  match e with
  | Z0 => v
  | Zpos _ => v * 2 ^ e
  | Zneg p => v / 2 ^ Zpos p
  end.

(** [Math.floor]: zeros, infinities and NaN are returned as they are. *)
Definition js_floor (x : Num) : Num :=
  match x with
  | S754_finite s m e => num_of_Z (floorZ s m e)
  | _ => x
  end.

(** ToBoolean. *)
Definition truthy (v : Value) : bool :=
  match v with
  | VUndef | VNull => false
  | VBool b => b
  | VNum n => num_truthy n
  | VStr s => negb (s =? "")%string
  | VArr _ | VObj _ => true
  end.

(** [v == null]: [null] or [undefined]. *)
Definition nullish (v : Value) : bool :=
  match v with VUndef | VNull => true | _ => false end.

(** [a || b], [a && b] and [a ?? b] (the right operands here have no
    effects, so evaluating them eagerly changes nothing). *)
Definition js_or (a b : Value) : Value := if truthy a then a else b.
Definition js_and (a b : Value) : Value := if truthy a then b else a.
Definition js_coalesce (a b : Value) : Value := if nullish a then b else a.

Fixpoint assoc (k : string) (props : list (string * Value)) : Value :=
  match props with
  | [] => VUndef
  | (k', v) :: rest => if (k =? k')%string then v else assoc k rest
  end.

(** [v.k] for the property names the pipeline reads.  Arrays and strings
    have a [length]; no other name read here is on a prototype.  The
    pipeline never reads a property of [null] or [undefined] through
    [get]: those reads are guarded ([s && ...], [body || {}]). *)
Definition get (v : Value) (k : string) : Value :=
  match v with
  | VObj props => assoc k props
  | VArr items => if (k =? "length")%string then VInt (Z.of_nat (length items)) else VUndef
  | VStr s => if (k =? "length")%string then VInt (Z.of_nat (String.length s)) else VUndef
  | _ => VUndef
  end.

(** [k in v] for an object: the key is one of its own properties. *)
Definition has_key (v : Value) (k : string) : bool :=
  match v with
  | VObj props => existsb (fun p => (k =? fst p)%string) props
  | _ => false
  end.

(** [typeof v === 'object'] (true of [null] too). *)
Definition typeof_object (v : Value) : bool :=
  match v with VNull | VArr _ | VObj _ => true | _ => false end.

(** Decimal rendering of an index in a template string. *)
Definition show_nat (n : nat) : string := NilEmpty.string_of_uint (Nat.to_uint n).

(** The parts of the JavaScript runtime and of Node's library the pipeline
    calls and this development does not define: ToNumber on strings and on
    objects (assumed not to throw), [new URL(u).pathname] ([None] when the
    constructor throws) and [path.extname]. *)
Record Runtime : Type := {
  str_to_number : string -> Num;
  obj_to_number : Value -> Num;
  url_pathname : Value -> option string;
  extname : string -> string
}.

(** [Number(v)]. *)
Definition to_number (rt : Runtime) (v : Value) : Num :=
  match v with
  | VUndef => S754_nan
  | VNull => num_of_Z 0
  | VBool b => num_of_Z (if b then 1 else 0)
  | VNum n => n
  | VStr s => str_to_number rt s
  | VArr _ | VObj _ => obj_to_number rt v
  end.

(** ** The segment normaliser (server.js, [rawSegments.map]) *)

Record Segment : Type := {
  seg_id : Value;
  seg_imageUrl : Value;
  seg_duration : Value;
  seg_image_prompt : Value;
  seg_subtitleText : Value;
  seg_word_duration : Value
}.

Definition normalize (s : Value) : Segment :=
  {| seg_id := js_and s (js_coalesce (js_coalesce (get s "id") (get s "ID")) (get s "index"));
     seg_imageUrl :=
       js_and s (js_or (js_or (js_or (get s "imageUrl") (get s "image_Url"))
                              (get s "image_url")) (get s "image"));
     seg_duration :=
       js_and s (js_coalesce (js_coalesce (get s "duration") (get s "length")) (get s "time"));
     seg_image_prompt := js_and s (js_or (get s "image_prompt") (get s "imagePrompt"));
     seg_subtitleText :=
       js_and s (js_or (js_or (get s "subtitleText") (get s "subtitle_text")) (get s "subtitle"));
     seg_word_duration :=
       js_and s (js_or (js_or (get s "word_duration") (get s "wordDuration")) (get s "words")) |}.

(** The alias lists, in the order the expressions above try them. *)
Definition imageUrl_aliases : list string := ["imageUrl"; "image_Url"; "image_url"; "image"].
Definition duration_aliases : list string := ["duration"; "length"; "time"].
Definition id_aliases : list string := ["id"; "ID"; "index"].

(** ** The asset fetcher ([downloadFileToPath], lib/download.js) *)

Module Download.

(** What one pass through the [try] block meets: axios resolves with a
    status (with [validateStatus: null] it resolves for every status) and,
    when the status is 2xx, [mkdir] and the stream pipeline succeed
    ([saved]) or throw an error without a status; or the request itself
    throws, the error carrying [err.response.status] and [err.status],
    either of which may be missing. *)
Inductive Attempt : Type :=
| Replied (status : Z) (saved : bool)
| Threw (response_status : option Z) (own_status : option Z).

(** Truthiness of a status that may be [undefined]. *)
Definition status_truthy (st : option Z) : bool :=
  match st with
  | Some z => negb (z =? 0)
  | None => false
  end.

(** [None] when the pass reaches [return]; otherwise the [status] the
    [catch] block computes,
    [(err && err.response && err.response.status) || err.status]. *)
Definition caught_status (a : Attempt) : option (option Z) :=
  match a with
  | Replied status saved =>
      if (status =? 0) || (status <? 200) || (status >=? 300) then Some (Some status)
      else if saved then None
      else Some None
  | Threw response_status own_status =>
      Some (if status_truthy response_status then response_status else own_status)
  end.

(** [status && [400, 401, 403, 404].includes(status)]. *)
Definition non_retryable (st : option Z) : bool :=
  match st with
  | Some z => negb (z =? 0) && existsb (Z.eqb z) [400; 401; 403; 404]
  | None => false
  end.

(** The error thrown out of the loop: [e.status] and [e.url]. *)
Record error : Type := {
  e_status : option Z;
  e_url : Value
}.

(** One call: how it ended ([None]: it returned), the number of passes
    through the loop, and the delays slept between them, in order. *)
Record result : Type := {
  failure : option error;
  attempts : Z;
  delays : list Z
}.

Definition default_retries : Z := 2.
Definition default_retryDelay : Z := 500.

(** The [while (true)] loop; [attempt] is the counter before [attempt++].
    The result is [None] when [fuel] passes were not enough. *)
Fixpoint loop (fuel : nat) (answers : Z -> Attempt) (url : Value)
  (retries retryDelay : Z) (attempt : Z) (slept : list Z) : option result :=
  match fuel with
  | O => None
  | S fuel' =>
      let attempt := attempt + 1 in
      match caught_status (answers attempt) with
      | None => Some {| failure := None; attempts := attempt; delays := slept |}
      | Some status =>
          if non_retryable status then
            Some {| failure := Some {| e_status := status; e_url := url |};
                    attempts := attempt; delays := slept |}
          else if attempt >? retries then
            Some {| failure := Some {| e_status := status; e_url := url |};
                    attempts := attempt; delays := slept |}
          else loop fuel' answers url retries retryDelay attempt
                    (slept ++ [retryDelay * attempt])
      end
  end.

(** [downloadFileToPath(url, destPath, { retries, retryDelay })]; at most
    [retries + 1] passes are ever needed. *)
Definition downloadFileToPath (answers : Z -> Attempt) (url : Value)
  (retries retryDelay : Z) : option result :=
  loop (S (Z.to_nat retries)) answers url retries retryDelay 0 [].

(** The server called on to answer the successive attempts with the
    statuses of [statuses], every body saved without error; attempts past
    the list are refused by the transport. *)
Definition replies (statuses : list Z) (attempt : Z) : Attempt :=
  match statuses !! Z.to_nat (attempt - 1) with
  | Some st => Replied st true
  | None => Threw None None
  end.

(** Attempt [k] failed in a way the loop retries. *)
Definition retryable_failure (a : Attempt) : Prop :=
  exists st, caught_status a = Some st /\ non_retryable st = false.

(** The delays of linear backoff after attempts [a + 1], ..., [a + m]. *)
Definition backoff_from (retryDelay a : Z) (m : nat) : list Z :=
  map (fun j => retryDelay * (a + Z.of_nat j)) (seq 1 m).

Definition backoff (retryDelay : Z) (m : nat) : list Z := backoff_from retryDelay 0 m.

(** The error thrown when attempt [n] is the last one. *)
Definition failure_at (answers : Z -> Attempt) (url : Value) (n : Z) : option error :=
  option_map (fun st => {| e_status := st; e_url := url |}) (caught_status (answers n)).

End Download.

(** ** Frame geometry and the ffmpeg commands (lib/ffmpegHelpers.js) *)

(** [s.split("x")]. *)
Fixpoint split_x_aux (s : string) (cur : string) : list string :=
  match s with
  | EmptyString => [cur]
  | String c rest =>
      if Ascii.eqb c "x"%char then cur :: split_x_aux rest EmptyString
      else split_x_aux rest (cur ++ String c EmptyString)%string
  end.
Definition split_x (s : string) : list string := split_x_aux s EmptyString.

(** [Number(s) || 0] on numbers. *)
Definition num_or_zero (n : Num) : Num := if num_truthy n then n else num_of_Z 0.

(** [Number.isFinite(w) && w > 0 ? w : dflt], [w] possibly [undefined]. *)
Definition dimension_or (w : option Num) (dflt : Z) : Num :=
  match w with
  | Some n => if num_isFinite n && SFltb (S754_zero false) n then n else num_of_Z dflt
  | None => num_of_Z dflt
  end.

(** The first lines of both composition functions: [resolution.split]
    throws a TypeError unless [resolution] is a string ([None]);
    otherwise the pair [(width, height)]. *)
Definition parse_resolution (rt : Runtime) (resolution : Value) : option (Num * Num) :=
  match resolution with
  | VStr s =>
      let parts := map (fun p => num_or_zero (str_to_number rt p)) (split_x s) in
      Some (dimension_or (parts !! 0%nat) 1280, dimension_or (parts !! 1%nat) 720)
  | _ => None
  end.

(** [Math.min(ratioW, ratioH, 1)] with [ratioW = width / iw] and
    [ratioH = height / ih]; the probed sides are integers. *)
Definition scale_factor (width height : Num) (iw ih : Z) : Num :=
  let ratioW := f64_div width (num_of_Z iw) in
  let ratioH := f64_div height (num_of_Z ih) in
  js_min (js_min ratioW ratioH) (num_of_Z 1).

(** [Math.max(1, Math.floor(n * factor))]. *)
Definition scaled_side (n : Z) (factor : Num) : Num :=
  js_max (num_of_Z 1) (js_floor (f64_mul (num_of_Z n) factor)).

(** The scaled size of an image of native size [iw] x [ih] in the single-run
    filter graph: [scaledW] and [scaledH] of the source. *)
Definition scaled_size (width height : Num) (iw ih : Z) : Num * Num :=
  let factor := scale_factor width height iw ih in
  (scaled_side iw factor, scaled_side ih factor).

(** A video filter chain of the graph, by the template that writes it:
    [FitPad w h] is
    [scale=w:h:force_original_aspect_ratio=decrease,pad=w:h:(ow-iw)/2:(oh-ih)/2,setsar=1]
    and [ScalePad sw sh w h] is
    [scale=sw:sh,pad=w:h:(ow-iw)/2:(oh-ih)/2,setsar=1]; the pad offsets
    [(ow-iw)/2:(oh-ih)/2] centre the scaled image in the [w] x [h] frame. *)
Inductive VideoFilter : Type :=
| FitPad (width height : Num)
| ScalePad (scaledW scaledH : Num) (width height : Num).

(** [videoFilter] for an image that probed to [(iw, ih)]; a failed probe
    is [(0, 0)]. *)
Definition videoFilter (width height : Num) (dim : Z * Z) : VideoFilter :=
  let '(iw, ih) := dim in
  if (iw =? 0) || (ih =? 0) then FitPad width height
  else let '(scaledW, scaledH) := scaled_size width height iw ih in
       ScalePad scaledW scaledH width height.

(** The frame a chain puts out: the size given to [pad]. *)
Definition padded_size (f : VideoFilter) : Num * Num :=
  match f with
  | FitPad w h => (w, h)
  | ScalePad _ _ w h => (w, h)
  end.

(** ** Errors, effects and the outside world *)

Inductive Error : Type :=
| ReferenceError (identifier : string)
| TypeError (message : string)
| DownloadFailed (e : Download.error)
| PayloadValidation (index : nat)
| SegmentsArrayRequired
| FFmpegTimedOut
| Failure (message : string)
| Diverged.

(** The message of the error the validation step throws. *)
Definition validation_message (index : nat) : string :=
  ("Payload validation failed: each segment must include a numeric 'duration' in seconds (missing or invalid at index "
     ++ show_nat index ++ ")")%string.

(** [err.message] of the errors whose text the handler and the ffmpeg
    helpers write themselves. *)
Definition own_message (e : Error) : option string :=
  match e with
  | PayloadValidation index => Some (validation_message index)
  | SegmentsArrayRequired => Some "segments array required"%string
  | FFmpegTimedOut => Some "FFmpeg process timed out"%string
  | _ => None
  end.

(** What a download task resolves with. *)
Record Downloaded : Type := {
  imagePath : string;
  duration : Value;
  subtitleText : Value;
  word_duration : Value
}.

Record SubtitleResult : Type := {
  srtPath : Value;
  calculatedDuration : Value;
  subtitleStyle : Value
}.

(** Modelled from the spec: lib/subtitleHelpers.js is not among the
    sources.  Section 4.7 gives the contract
    [generate(segment, workDir, index, fallbackDuration, style) ->
    {srtPath, calculatedDuration, subtitleStyle}] and a preset lookup;
    either may also throw. *)
Record SubtitleHelpers : Type := {
  getSubtitleStylePresets : Error + Value;
  createSubtitleFile : Downloaded -> string -> nat -> Value -> Value -> Error + SubtitleResult
}.

(** One image input of the single-run command: [cmd.addInput(path)] with
    [-loop 1 -framerate 24] and, when [input_t] is [Some d], [-t d]. *)
Record ImageInput : Type := {
  input_path : string;
  input_t : option Value
}.

(** The filter [[src:v] filter [sv out]]. *)
Record Chain : Type := {
  chain_src : nat;
  chain_filter : VideoFilter;
  chain_out : nat
}.

(** The single-run command: its inputs in [addInput] order, the filter
    chains, and the last filter
    [[sv..][sv..]..concat=n=concat_n:v=1:a=0[v]] with its input labels in
    order; the output options are constants of the source. *)
Record FastCommand : Type := {
  inputs : list ImageInput;
  chains : list Chain;
  concat_inputs : list nat;
  concat_n : nat;
  fast_out : string
}.

(** The per-segment command of [createSegmentVideo]: one looped image,
    [-vf scale=w:h:force_original_aspect_ratio=decrease,pad=w:h:(ow-iw)/2:(oh-ih)/2],
    [-t d] when [segment_t] is [Some d]. *)
Record SegmentCommand : Type := {
  segment_input : string;
  segment_width : Num;
  segment_height : Num;
  segment_t : option Value;
  segment_out : string
}.

(** How the ffmpeg process of one per-segment render behaves: it fails
    before the [start] event; or it starts and emits [end] or [error]
    the given number of milliseconds later; or it starts and never
    finishes. *)
Inductive Render : Type :=
| FailsToStart (e : Error)
| Ends (ms : Z)
| Errors (ms : Z) (e : Error)
| Stalls.

Inductive Callee : Type :=
| CreateSubtitleFile (index : nat)
| CreateVideoFromSegments (segments : list Downloaded)
| CreateSegmentVideo (index : nat) (segment : Downloaded)
| ConcatVideos (paths : list string) (out : string)
| UploadVideoToSupabase (path : string) (jobId : string).

(** The effects of one request, in the order the handler performs them.
    Downloads run under the limiter and are not listed here. *)
Inductive Effect : Type :=
| EMkdir (dir : string)
| ECall (f : Callee)
| ERunFast (cmd : FastCommand)
| ERunSegment (index : nat) (cmd : SegmentCommand)
| EKill (index : nat)
| EWriteList (path : string) (lines : list string)
| ERunConcat (list_file : string) (out : string)
| ERm (dir : string).

(** Everything outside the handler that decides how one request goes:
    the runtime and [path.dirname]; whether [NODE_ENV] is [production];
    [os.cpus().length]; the directory of server.js joined with [temp] and
    the [uuidv4()] of the request; whether [mkdir] of the session
    directory fails; what the server of segment [i]'s URL answers at each
    attempt; the order in which in-flight downloads settle; the subtitle
    helpers, [None] when the module does not bind them; what ffprobe
    reports for a file ([None]: an error or no stream list; else the width
    and height of each stream, 0 for a missing one); how the single ffmpeg
    run, each per-segment run, the write of the list file, the concat run
    and the upload end. *)
Record World : Type := {
  rt : Runtime;
  dirname : string -> string;
  production : bool;
  cpus : Z;
  TEMP_ROOT : string;
  sessionId : string;
  mkdir_session : option Error;
  server_answers : nat -> Z -> Download.Attempt;
  schedule : list nat;
  subtitleHelpers : option SubtitleHelpers;
  ffprobe : string -> option (list (Z * Z));
  fast_run : option Error;
  segment_run : nat -> Render;
  write_list : option Error;
  concat_run : option Error;
  upload : Error + Value
}.

(** A computation of the handler: the effects so far and how it stands. *)
Inductive Result (A : Type) : Type :=
| Ok (a : A)
| Throw (e : Error)
| Hang.
Arguments Ok {A} a.
Arguments Throw {A} e.
Arguments Hang {A}.

Definition M (A : Type) : Type := list Effect * Result A.

Definition ret {A} (a : A) : M A := ([], Ok a).
Definition throw {A} (e : Error) : M A := ([], Throw e).
Definition emit (ev : Effect) : M unit := ([ev], Ok tt).
Definition lift {A} (r : Error + A) : M A :=
  match r with inl e => throw e | inr a => ret a end.
Definition check (failure : option Error) : M unit :=
  match failure with Some e => throw e | None => ret tt end.

Definition bind {A B} (m : M A) (k : A -> M B) : M B :=
  match m with
  | (t, Ok a) => let '(t', r) := k a in (t ++ t', r)
  | (t, Throw e) => (t, Throw e)
  | (t, Hang) => (t, Hang)
  end.

(** [try { m } catch (e) { h e }]. *)
Definition try_catch {A} (m : M A) (h : Error -> M A) : M A :=
  match m with
  | (t, Throw e) => let '(t', r) := h e in (t ++ t', r)
  | _ => m
  end.

Notation "'let*' x ':=' m 'in' k" := (bind m (fun x => k))
  (at level 10, x pattern, m at level 100, k at level 200).

(** ** Composition: the single run and the per-segment fallback *)

(** [path.join(dir, name)] for a plain file name. *)
Definition join (dir name : string) : string := (dir ++ "/" ++ name)%string.

(** [probeImage]: the first stream with a width and a height, [(0, 0)]
    when ffprobe fails or no stream has both. *)
Definition probeImage (w : World) (path : string) : Z * Z :=
  match ffprobe w path with
  | None => (0, 0)
  | Some streams =>
      match find (fun s => negb (fst s =? 0) && negb (snd s =? 0)) streams with
      | Some vs => vs
      | None => (0, 0)
      end
  end.

(** [seg.duration != null && Number.isFinite(Number(seg.duration))]. *)
Definition numeric_duration (r : Runtime) (d : Value) : bool :=
  negb (nullish d) && num_isFinite (to_number r d).

(** The command [createVideoFromSegments] builds before it runs it. *)
Definition fast_command (w : World) (segments : list Downloaded) (outPath : string)
  (width height : Num) : FastCommand :=
  let dims := map (fun s => probeImage w (imagePath s)) segments in
  {| inputs :=
       map (fun seg => {| input_path := imagePath seg;
                          input_t := if numeric_duration (rt w) (duration seg)
                                     then Some (duration seg) else None |}) segments;
     chains :=
       imap (fun i _ => {| chain_src := i;
                           chain_filter := videoFilter width height (default (0, 0) (dims !! i));
                           chain_out := i |}) segments;
     concat_inputs := imap (fun i _ => i) segments;
     concat_n := length segments;
     fast_out := outPath |}.

Definition createVideoFromSegments (w : World) (segments : list Downloaded)
  (outPath : string) (resolution : Value) : M string :=
  let* _ := emit (ECall (CreateVideoFromSegments segments)) in
  match segments with
  | [] => throw SegmentsArrayRequired
  | _ :: _ =>
      match parse_resolution (rt w) resolution with
      | None => throw (TypeError "resolution.split is not a function")
      | Some (width, height) =>
          let* _ := emit (ERunFast (fast_command w segments outPath width height)) in
          let* _ := check (fast_run w) in
          ret outPath
      end
  end.

(** The timer [createSegmentVideo] arms on [start]. *)
Definition SEGMENT_TIMEOUT_MS : Z := 60000.

(** The timer fires: [cmd.kill('SIGKILL')], then [reject]. *)
Definition timed_out {A} (index : nat) : M A :=
  let* _ := emit (EKill index) in throw FFmpegTimedOut.

(** The command [createSegmentVideo] builds; [duration = 3] is its
    parameter default, for [undefined]. *)
Definition segment_command (seg : Downloaded) (outPath : string) (width height : Num)
  : SegmentCommand :=
  let duration := match duration seg with VUndef => VInt 3 | d => d end in
  {| segment_input := imagePath seg;
     segment_width := width;
     segment_height := height;
     segment_t := if truthy duration then Some duration else None;
     segment_out := outPath |}.

Definition createSegmentVideo (w : World) (index : nat) (seg : Downloaded)
  (outPath : string) (resolution : Value) : M string :=
  let* _ := emit (ECall (CreateSegmentVideo index seg)) in
  match parse_resolution (rt w) resolution with
  | None => throw (TypeError "resolution.split is not a function")
  | Some (width, height) =>
      let cmd := segment_command seg outPath width height in
      let* _ := emit (ERunSegment index cmd) in
      match segment_run w index with
      | FailsToStart e => throw e
      | Ends ms => if ms <? SEGMENT_TIMEOUT_MS then ret outPath else timed_out index
      | Errors ms e => if ms <? SEGMENT_TIMEOUT_MS then throw e else timed_out index
      | Stalls => timed_out index
      end
  end.

(** [p.replace(/'/g, "'\\''")]. *)
Fixpoint escape_quotes (p : string) : string :=
  match p with
  | EmptyString => EmptyString
  | String c rest =>
      if Ascii.eqb c "'"%char then ("'\''" ++ escape_quotes rest)%string
      else String c (escape_quotes rest)
  end.

Definition list_line (p : string) : string := ("file '" ++ escape_quotes p ++ "'")%string.

Definition concatVideos (w : World) (videoPaths : list string) (finalOutPath : string)
  : M string :=
  let* _ := emit (ECall (ConcatVideos videoPaths finalOutPath)) in
  let listFile := (dirname w finalOutPath ++ "/filelist.txt")%string in
  let* _ := check (write_list w) in
  let* _ := emit (EWriteList listFile (map list_line videoPaths)) in
  let* _ := emit (ERunConcat listFile finalOutPath) in
  let* _ := check (concat_run w) in
  ret finalOutPath.

(** The [for] loop of the fallback: one render after the other, the
    first rejection leaving the loop. *)
Definition segOut (sessionDir : string) (i : nat) : string :=
  join sessionDir ("seg_" ++ show_nat i ++ ".mp4").

Fixpoint encode_segments (w : World) (sessionDir : string) (resolution : Value)
  (i : nat) (segs : list Downloaded) : M (list string) :=
  match segs with
  | [] => ret []
  | seg :: rest =>
      let* p := createSegmentVideo w i seg (segOut sessionDir i) resolution in
      let* ps := encode_segments w sessionDir resolution (S i) rest in
      ret (p :: ps)
  end.

(** Step 3 of the handler: the single run, and on any error of it the
    per-segment encode and concat. *)
Definition compose (w : World) (sessionDir : string) (resolution : Value)
  (downloaded : list Downloaded) : M string :=
  let finalPath := join sessionDir "final.mp4" in
  try_catch (createVideoFromSegments w downloaded finalPath resolution)
    (fun _ =>
       let* segVideoPaths := encode_segments w sessionDir resolution 0 downloaded in
       concatVideos w segVideoPaths finalPath).

(** ** The job handler ([POST /generate-video], server.js) *)

Inductive Details : Type :=
| InternalServerError
| Message (e : Error).

(** The JSON bodies the handler sends. *)
Inductive Body : Type :=
| ErrorBody (error : string)
| FailureBody (error : string) (details : Details)
| ResultBody (jobId : string) (url : Value).

(** How a request ends: a response; the handler's promise rejects outside
    its [try] and the handler itself sends nothing; or it waits for ever. *)
Inductive Outcome : Type :=
| Responded (status : Z) (body : Body)
| Unhandled (e : Error)
| Pending.

Record Run : Type := {
  trace : list Effect;
  outcome : Outcome
}.

(** White space [String.prototype.trim] removes, within ASCII. *)
Definition is_space (c : ascii) : bool :=
  let n := nat_of_ascii c in
  (n =? 32)%nat || ((9 <=? n)%nat && (n <=? 13)%nat).

Fixpoint all_spaces (s : string) : bool :=
  match s with
  | EmptyString => true
  | String c rest => is_space c && all_spaces rest
  end.

(** [String.prototype.toLowerCase], within ASCII. *)
Definition lower_char (c : ascii) : ascii :=
  let n := nat_of_ascii c in
  if (65 <=? n)%nat && (n <=? 90)%nat then ascii_of_nat (n + 32) else c.

Fixpoint toLowerCase (s : string) : string :=
  match s with
  | EmptyString => EmptyString
  | String c rest => String (lower_char c) (toLowerCase rest)
  end.

(** The first statement: a one-element array holding an object is replaced
    by that object. *)
Definition unwrap_body (body : Value) : Value :=
  match body with
  | VArr [x] => if truthy x && typeof_object x then x else body
  | _ => body
  end.

(** The body the handler destructures: the unwrapped body, or [{}] when
    that is falsy ([body || {}]). *)
Definition request_body (req_body : Value) : Value :=
  js_or (unwrap_body req_body) (VObj []).

(** [!jobId || typeof jobId !== 'string' || jobId.trim() === ''] is false:
    the job id, when the request has a usable one. *)
Definition valid_jobId (jobId : Value) : option string :=
  match jobId with
  | VStr s => if all_spaces s then None else Some s
  | _ => None
  end.

(** The destructuring default [resolution = "1280x720"]. *)
Definition resolution_of (body : Value) : Value :=
  match get body "resolution" with
  | VUndef => VStr "1280x720"
  | r => r
  end.

(** The subtitle styling block.  [getSubtitleStylePresets] is a free
    identifier of server.js when the module's import of
    lib/subtitleHelpers.js is commented out, as it is in the source
    ([subtitleHelpers w = None]): calling it throws a ReferenceError. *)
Definition globalSubtitleStyle (w : World) (subtitlePreset subtitleStyle : Value)
  : Error + Value :=
  if truthy subtitlePreset then
    match subtitleHelpers w with
    | None => inl (ReferenceError "getSubtitleStylePresets")
    | Some h =>
        match getSubtitleStylePresets h with
        | inl e => inl e
        | inr presets =>
            match subtitlePreset with
            | VStr p =>
                if nullish presets then inl (TypeError "presets is null or undefined")
                else inr (js_or (get presets (toLowerCase p)) (get presets "default"))
            | _ => inl (TypeError "subtitlePreset.toLowerCase is not a function")
            end
        end
    end
  else if truthy subtitleStyle then inr subtitleStyle
  else inr VNull.

(** [e.split("?")[0]]. *)
Fixpoint before_question (e : string) : string :=
  match e with
  | EmptyString => EmptyString
  | String c rest => if Ascii.eqb c "?"%char then EmptyString else String c (before_question rest)
  end.

Definition safeExt (r : Runtime) (urlStr : Value) (fallback : string) : string :=
  match url_pathname r urlStr with
  | None => fallback
  | Some p =>
      let e := before_question (extname r p) in
      if (e =? "")%string then fallback else e
  end.

Definition sessionDir (w : World) : string := join (TEMP_ROOT w) (sessionId w).

(** Where download task [i] writes the image of its segment. *)
Definition imgPath (w : World) (i : nat) (seg : Segment) : string :=
  join (sessionDir w) ("img_" ++ show_nat i ++ safeExt (rt w) (seg_imageUrl seg) ".png").

(** The closure handed to [limit] for segment [i], by what its promise
    settles with.  [downloadFileToPath] is called with its default
    options; it always returns (see the totality lemma of the fetcher),
    so the last case is never met. *)
Definition download_task (w : World) (task : nat * Segment)
  : Limiter.Settlement Downloaded Error :=
  let '(i, seg) := task in
  match Download.downloadFileToPath (server_answers w i) (seg_imageUrl seg)
          Download.default_retries Download.default_retryDelay with
  | Some r =>
      match Download.failure r with
      | None =>
          Limiter.Fulfilled
            {| imagePath := imgPath w i seg;
               duration := seg_duration seg;
               subtitleText := seg_subtitleText seg;
               word_duration := seg_word_duration seg |}
      | Some e => Limiter.Rejected (DownloadFailed e)
      end
  | None => Limiter.Rejected Diverged
  end.

(** [Promise.all] over promises that settle in the order of [log], each
    entry naming the position of its promise in the array: a fulfilment
    stores its value at that position, the first rejection rejects the
    whole. *)
Fixpoint promise_all_log {A} (log : list (nat * Limiter.Settlement A Error))
  (values : list (option A)) : Error + list (option A) :=
  match log with
  | [] => inr values
  | (i, Limiter.Fulfilled v) :: rest => promise_all_log rest (<[i := Some v]> values)
  | (_, Limiter.Rejected e) :: _ => inl e
  end.

Fixpoint all_some {A} (values : list (option A)) : option (list A) :=
  match values with
  | [] => Some []
  | Some v :: rest => option_map (cons v) (all_some rest)
  | None :: _ => None
  end.

Definition promise_all {A} (n : nat) (log : list (nat * Limiter.Settlement A Error))
  : M (list A) :=
  match promise_all_log log (replicate n None) with
  | inl e => throw e
  | inr values =>
      match all_some values with
      | Some vs => ret vs
      | None => ([], Hang)
      end
  end.

(** Step 1: the fan-out under the limiter and [Promise.all].  The limiter
    is the module's one; the request is taken alone, with no other job's
    downloads in the queue.  Task [(i, seg)] is the closure of the [i]-th
    segment, and its promise the [i]-th of [downloadTasks]. *)
Definition download_all (w : World) (segments : list Segment) : M (list Downloaded) :=
  let tasks := imap (fun i seg => (i, seg)) segments in
  let final :=
    Limiter.run_all (download_task w) (MAX_CONCURRENCY (cpus w)) (schedule w) tasks in
  promise_all (length segments)
    (map (fun p => (fst (fst p), snd p)) (Limiter.settled final)).

(** [seg.subtitleText || seg.word_duration]. *)
Definition wants_subtitles (seg : Downloaded) : bool :=
  truthy (js_or (subtitleText seg) (word_duration seg)).

Definition no_subtitles : SubtitleResult :=
  {| srtPath := VNull; calculatedDuration := VNull; subtitleStyle := VNull |}.

(** Step 2, [downloaded.map]: the subtitle file of every segment that has
    subtitle data.  [createSubtitleFile] is a free identifier when the
    import is commented out. *)
Fixpoint subtitle_results (w : World) (style : Value) (i : nat) (segs : list Downloaded)
  : M (list SubtitleResult) :=
  match segs with
  | [] => ret []
  | seg :: rest =>
      let* r :=
        (if wants_subtitles seg then
           match subtitleHelpers w with
           | None => throw (ReferenceError "createSubtitleFile")
           | Some h =>
               let* _ := emit (ECall (CreateSubtitleFile i)) in
               lift (createSubtitleFile h seg (sessionDir w) i (duration seg) style)
           end
         else ret no_subtitles) in
      let* rs := subtitle_results w style (S i) rest in
      ret (r :: rs)
  end.

(** [downloaded.forEach]: a truthy [calculatedDuration] replaces the
    segment's duration. *)
Definition update_duration (seg : Downloaded) (r : SubtitleResult) : Downloaded :=
  if truthy (calculatedDuration r) then
    {| imagePath := imagePath seg;
       duration := calculatedDuration r;
       subtitleText := subtitleText seg;
       word_duration := word_duration seg |}
  else seg.

Definition update_durations (segs : list Downloaded) (rs : list SubtitleResult)
  : list Downloaded :=
  zip_with update_duration segs rs.

(** [s.duration == null || !Number.isFinite(Number(s.duration))]. *)
Definition missing_duration (r : Runtime) (seg : Downloaded) : bool :=
  nullish (duration seg) || negb (num_isFinite (to_number r (duration seg))).

(** [Array.prototype.findIndex], [None] standing for [-1]. *)
Fixpoint findIndex {A} (p : A -> bool) (l : list A) : option nat :=
  match l with
  | [] => None
  | x :: rest => if p x then Some 0%nat else option_map S (findIndex p rest)
  end.

Definition validate_durations (r : Runtime) (segs : list Downloaded) : M unit :=
  match findIndex (missing_duration r) segs with
  | Some missingDuration => throw (PayloadValidation missingDuration)
  | None => ret tt
  end.

(** The body of the handler's [try] block; it yields the uploaded URL. *)
Definition job (w : World) (videoJobId : string) (style : Value) (resolution : Value)
  (segments : list Segment) : M Value :=
  let* downloaded := download_all w segments in
  let* subtitleResults := subtitle_results w style 0 downloaded in
  let downloaded := update_durations downloaded subtitleResults in
  let* _ := validate_durations (rt w) downloaded in
  let* finalPath := compose w (sessionDir w) resolution downloaded in
  let* _ := emit (ECall (UploadVideoToSupabase finalPath videoJobId)) in
  let* url := lift (upload w) in
  ret url.

(** The two ends of the [try] block: the success response followed by the
    removal of the session directory, and the [catch] block. *)
Definition finish (w : World) (videoJobId : string) (m : M Value) : Run :=
  match m with
  | (t, Ok url) =>
      {| trace := t ++ [ERm (sessionDir w)];
         outcome := Responded 200 (ResultBody videoJobId url) |}
  | (t, Throw e) =>
      {| trace := t ++ (if production w then [ERm (sessionDir w)] else []);
         outcome := Responded 500
                      (FailureBody "Video generation failed"
                         (if production w then InternalServerError else Message e)) |}
  | (t, Hang) => {| trace := t; outcome := Pending |}
  end.

(** The segments of the request as the handler normalises them, when the
    [segments] field is a non-empty array. *)
Definition raw_segments (body : Value) : option (list Value) :=
  match get body "segments" with
  | VArr (s :: rest) => Some (s :: rest)
  | _ => None
  end.

Definition handler (w : World) (req_body : Value) : Run :=
  let body := request_body req_body in
  match valid_jobId (get body "jobId") with
  | None =>
      {| trace := [];
         outcome := Responded 400 (ErrorBody "jobId required in request body") |}
  | Some videoJobId =>
      match globalSubtitleStyle w (get body "subtitlePreset") (get body "subtitleStyle") with
      | inl e => {| trace := []; outcome := Unhandled e |}
      | inr style =>
          match raw_segments body with
          | None =>
              {| trace := []; outcome := Responded 400 (ErrorBody "segments array required") |}
          | Some rawSegments =>
              let segments := map normalize rawSegments in
              match mkdir_session w with
              | Some e => {| trace := []; outcome := Unhandled e |}
              | None =>
                  let r := finish w videoJobId
                             (job w videoJobId style (resolution_of body) segments) in
                  {| trace := EMkdir (sessionDir w) :: trace r; outcome := outcome r |}
              end
          end
      end
  end.

(** ** Concrete worlds and requests, for evaluating the model *)

Fixpoint digits_value (s : string) (acc : Z) : option Z :=
  match s with
  | EmptyString => Some acc
  | String c rest =>
      let n := nat_of_ascii c in
      if (48 <=? n)%nat && (n <=? 57)%nat
      then digits_value rest (10 * acc + Z.of_nat (n - 48))
      else None
  end.

(** ToNumber on the strings the examples convert: it agrees with
    ECMAScript on strings of decimal digits and on the empty string, and
    is NaN on every string with another character. *)
Definition decimal_to_number (s : string) : Num :=
  match digits_value s 0 with
  | Some z => num_of_Z z
  | None => S754_nan
  end.

(** The URLs of the README's example, as [new URL] and [extname] read
    them; every other value is not a URL. *)
Definition example_runtime : Runtime :=
  {| str_to_number := decimal_to_number;
     obj_to_number := fun _ => S754_nan;
     url_pathname := fun v =>
       match v with
       | VStr "https://example.com/image1.jpg" => Some "/image1.jpg"
       | VStr "https://example.com/image2.jpg" => Some "/image2.jpg"
       | _ => None
       end%string;
     extname := fun p =>
       if (p =? "/image1.jpg")%string || (p =? "/image2.jpg")%string
       then ".jpg"%string else EmptyString |}.

(** A world in which everything outside the handler goes well: every URL
    answers 200 at once, downloads settle in the order they started,
    images probe to 1920 x 1080, every ffmpeg run ends, the upload
    returns a URL.  The subtitle helpers are absent, as in the source. *)
Definition calm_world : World :=
  {| rt := example_runtime;
     dirname := fun _ => "/app/temp/session-1";
     production := false;
     cpus := 4;
     TEMP_ROOT := "/app/temp";
     sessionId := "session-1";
     mkdir_session := None;
     server_answers := fun _ _ => Download.Replied 200 true;
     schedule := [];
     subtitleHelpers := None;
     ffprobe := fun _ => Some [(1920, 1080)];
     fast_run := None;
     segment_run := fun _ => Ends 1500;
     write_list := None;
     concat_run := None;
     upload := inr (VStr "https://storage.example/videos/job-123.mp4") |}.

Definition with_schedule (w : World) (sched : list nat) : World :=
  {| rt := rt w; dirname := dirname w; production := production w; cpus := cpus w;
     TEMP_ROOT := TEMP_ROOT w; sessionId := sessionId w; mkdir_session := mkdir_session w;
     server_answers := server_answers w; schedule := sched;
     subtitleHelpers := subtitleHelpers w; ffprobe := ffprobe w; fast_run := fast_run w;
     segment_run := segment_run w; write_list := write_list w; concat_run := concat_run w;
     upload := upload w |}.

Definition with_fast_run (w : World) (r : option Error) : World :=
  {| rt := rt w; dirname := dirname w; production := production w; cpus := cpus w;
     TEMP_ROOT := TEMP_ROOT w; sessionId := sessionId w; mkdir_session := mkdir_session w;
     server_answers := server_answers w; schedule := schedule w;
     subtitleHelpers := subtitleHelpers w; ffprobe := ffprobe w; fast_run := r;
     segment_run := segment_run w; write_list := write_list w; concat_run := concat_run w;
     upload := upload w |}.

Definition with_segment_run (w : World) (r : nat -> Render) : World :=
  {| rt := rt w; dirname := dirname w; production := production w; cpus := cpus w;
     TEMP_ROOT := TEMP_ROOT w; sessionId := sessionId w; mkdir_session := mkdir_session w;
     server_answers := server_answers w; schedule := schedule w;
     subtitleHelpers := subtitleHelpers w; ffprobe := ffprobe w; fast_run := fast_run w;
     segment_run := r; write_list := write_list w; concat_run := concat_run w;
     upload := upload w |}.

Definition example_segment (url : string) (d : Z) : Value :=
  VObj [("imageUrl", VStr url); ("duration", VInt d)]%string.

(** The request of the README, without its subtitle text. *)
Definition example_request : Value :=
  VObj [("jobId", VStr "job-123");
        ("resolution", VStr "1280x720");
        ("segments", VArr [example_segment "https://example.com/image1.jpg" 3;
                           example_segment "https://example.com/image2.jpg" 4])]%string.

(** A small run of the limiter: tasks are numbered, the odd ones reject. *)
Definition parity_run (n : nat) : Limiter.Settlement nat nat :=
  if Nat.even n then Limiter.Fulfilled n else Limiter.Rejected n.

Definition parity_events : list (Limiter.event nat) :=
  [Limiter.Submit 1%nat; Limiter.Submit 2%nat; Limiter.Submit 3%nat; Limiter.Submit 4%nat;
   Limiter.Settle 1%nat; Limiter.Settle 0%nat].

Definition parity_state : Limiter.state nat nat nat :=
  {| Limiter.queue := [];
     Limiter.active := 2;
     Limiter.inflight := [3%nat; 4%nat];
     Limiter.started := [1%nat; 2%nat; 3%nat; 4%nat];
     Limiter.settled := [(2%nat, Limiter.Fulfilled 2%nat); (1%nat, Limiter.Rejected 1%nat)] |}.

(** ** Notions the properties are stated with *)

(** The normaliser as the specification words it: the value of the first
    alias that is a key of the segment object. *)
Fixpoint first_present (s : Value) (aliases : list string) : Value :=
  match aliases with
  | [] => VUndef
  | a :: rest => if has_key s a then get s a else first_present s rest
  end.

(** [v] is the value of the first alias whose value passes [keep], all
    aliases before it being skipped; or no alias passes and [v] is the
    value of the last one. *)
Definition first_kept (keep : Value -> bool) (s : Value) (aliases : list string)
  (v : Value) : Prop :=
  (exists a before after,
      aliases = before ++ a :: after
      /\ Forall (fun b => keep (get s b) = false) before
      /\ keep (get s a) = true
      /\ v = get s a)
  \/ (Forall (fun b => keep (get s b) = false) aliases
      /\ v = get s (List.last aliases EmptyString)).

Definition not_nullish (v : Value) : bool := negb (nullish v).

(** A segment whose [imageUrl] is present and empty. *)
Definition blank_imageUrl_segment : Value :=
  VObj [("imageUrl", VStr ""); ("image_Url", VStr "https://example.com/image1.jpg")]%string.

(** The first two stages of [job]: the downloads, the subtitle files and
    the durations they recompute. *)
Definition prepare (w : World) (style : Value) (segments : list Segment)
  : M (list Downloaded) :=
  let* downloaded := download_all w segments in
  let* subtitleResults := subtitle_results w style 0 downloaded in
  ret (update_durations downloaded subtitleResults).

(** The rest of [job]: validation, composition, upload. *)
Definition publish (w : World) (videoJobId : string) (resolution : Value)
  (downloaded : list Downloaded) : M Value :=
  let* _ := validate_durations (rt w) downloaded in
  let* finalPath := compose w (sessionDir w) resolution downloaded in
  let* _ := emit (ECall (UploadVideoToSupabase finalPath videoJobId)) in
  let* url := lift (upload w) in
  ret url.

(** The request passes the entry checks of the handler, the session
    directory is made, every download succeeds and the subtitle stage
    ends: [segs] are the downloaded segments with their durations
    updated, and [t] the effects of the subtitle stage. *)
Definition reaches_validation (w : World) (req_body : Value) (videoJobId : string)
  (t : list Effect) (segs : list Downloaded) : Prop :=
  exists style rawSegments,
    valid_jobId (get (request_body req_body) "jobId") = Some videoJobId
    /\ globalSubtitleStyle w (get (request_body req_body) "subtitlePreset")
         (get (request_body req_body) "subtitleStyle") = inr style
    /\ raw_segments (request_body req_body) = Some rawSegments
    /\ mkdir_session w = None
    /\ prepare w style (map normalize rawSegments) = (t, Ok segs).

(** The resolution the handler passes on. *)
Definition request_resolution (req_body : Value) : Value :=
  resolution_of (request_body req_body).

(** An effect of composition or publication: a call of one of the three
    ffmpeg helpers or of the upload, an ffmpeg run, a kill, the list
    file. *)
Definition is_render_work (ev : Effect) : bool :=
  match ev with
  | ECall (CreateVideoFromSegments _) | ECall (CreateSegmentVideo _ _)
  | ECall (ConcatVideos _ _) | ECall (UploadVideoToSupabase _ _) => true
  | ERunFast _ | ERunSegment _ _ | EKill _ | EWriteList _ _ | ERunConcat _ _ => true
  | EMkdir _ | ERm _ | ECall (CreateSubtitleFile _) => false
  end.

Definition is_upload (ev : Effect) : bool :=
  match ev with ECall (UploadVideoToSupabase _ _) => true | _ => false end.

Definition is_concat (ev : Effect) : bool :=
  match ev with ECall (ConcatVideos _ _) | EWriteList _ _ | ERunConcat _ _ => true | _ => false end.

(** A call or a run of [createSegmentVideo] for segment [i]. *)
Definition segment_work (ev : Effect) : option nat :=
  match ev with
  | ECall (CreateSegmentVideo i _) | ERunSegment i _ => Some i
  | _ => None
  end.

(** The render of segment [i] is still running when the timer fires. *)
Definition outlasts_timeout (r : Render) : Prop :=
  match r with
  | Stalls => True
  | Ends ms | Errors ms _ => SEGMENT_TIMEOUT_MS <= ms
  | FailsToStart _ => False
  end.

Definition ends_in_time (r : Render) : Prop :=
  match r with
  | Ends ms => ms < SEGMENT_TIMEOUT_MS
  | _ => False
  end.

(** The scenes of the video the single-run command makes: for each input
    label of the concat filter, in order, the image file of the input its
    chain reads. *)
Definition fast_scenes (cmd : FastCommand) : list (option string) :=
  map (fun label =>
         match find (fun c => (chain_out c =? label)%nat) (chains cmd) with
         | Some c => option_map input_path (inputs cmd !! chain_src c)
         | None => None
         end) (concat_inputs cmd).

(** The lines last written to a list file, [lists] holding the list
    files written so far, the latest first. *)
Definition written_lines (lists : list (string * list string)) (list_file : string)
  : option (list string) :=
  option_map snd (find (fun f => (fst f =? list_file)%string) lists).

(** The image behind a line of a list file: that of the last render of
    the file the line names. *)
Definition image_of_line (videos : list (string * string)) (line : string) : option string :=
  option_map snd (find (fun v => (list_line (fst v) =? line)%string) videos).

(** The scenes of the file the first concat run of a trace makes, by the
    effects before it.  [lists] holds the list files written so far with
    their lines and [videos] the per-segment files rendered so far with
    the image each was rendered from, the latest first.  The run reads the
    lines last written to its list file and shows, for each line in
    order, the image of the file the line names. *)
Fixpoint concat_scenes (lists : list (string * list string)) (videos : list (string * string))
  (tr : list Effect) : option (list (option string)) :=
  match tr with
  | [] => None
  | ERunSegment _ cmd :: rest =>
      concat_scenes lists ((segment_out cmd, segment_input cmd) :: videos) rest
  | EWriteList path lines :: rest => concat_scenes ((path, lines) :: lists) videos rest
  | ERunConcat list_file _ :: _ =>
      option_map (map (image_of_line videos)) (written_lines lists list_file)
  | _ :: rest => concat_scenes lists videos rest
  end.

(** The command of the single run, when ffmpeg was started on it. *)
Fixpoint fast_run_command (tr : list Effect) : option FastCommand :=
  match tr with
  | [] => None
  | ERunFast cmd :: _ => Some cmd
  | _ :: rest => fast_run_command rest
  end.

(** A call of [createSegmentVideo] or of [concatVideos]: the handler
    makes them in the [catch] block of the single run only. *)
Definition is_fallback_call (ev : Effect) : bool :=
  match ev with
  | ECall (CreateSegmentVideo _ _) | ECall (ConcatVideos _ _) => true
  | _ => false
  end.

(** The scene sequence of the video a request composed.  When the
    fallback was entered the single run has failed, and the final file is
    what the concat run made of its list file; there is none when no
    concat ran.  Otherwise it is that of the single run. *)
Definition scenes (tr : list Effect) : option (list (option string)) :=
  if existsb is_fallback_call tr then concat_scenes [] [] tr
  else option_map fast_scenes (fast_run_command tr).

(** The downloaded segments in segment order. *)
Definition downloaded_in_order (w : World) (segments : list Segment) : list Downloaded :=
  imap (fun i seg => {| imagePath := imgPath w i seg;
                        duration := seg_duration seg;
                        subtitleText := seg_subtitleText seg;
                        word_duration := seg_word_duration seg |}) segments.

(** A request with a job id, a subtitle preset and no segment. *)
Definition preset_request : Value :=
  VObj [("jobId", VStr "job-123"); ("subtitlePreset", VStr "bold"); ("segments", VArr [])]%string.

(** The README's request with the second duration negative. *)
Definition negative_request : Value :=
  VObj [("jobId", VStr "job-123");
        ("segments", VArr [example_segment "https://example.com/image1.jpg" 3;
                           example_segment "https://example.com/image2.jpg" (-1)])]%string.

(** A request whose one segment has no duration. *)
Definition no_duration_request : Value :=
  VObj [("jobId", VStr "job-123");
        ("segments", VArr [example_segment "https://example.com/image1.jpg" 3;
                           VObj [("imageUrl", VStr "https://example.com/image2.jpg")]])]%string.

(** What the downloads of [no_duration_request] resolve with. *)
Definition no_duration_downloaded : list Downloaded :=
  [ {| imagePath := "/app/temp/session-1/img_0.jpg"; duration := VInt 3;
       subtitleText := VUndef; word_duration := VUndef |};
    {| imagePath := "/app/temp/session-1/img_1.jpg"; duration := VUndef;
       subtitleText := VUndef; word_duration := VUndef |} ]%string.

(** The value is a number, and a finite one, before any conversion. *)
Definition finite_number (v : Value) : bool :=
  match v with
  | VNum n => num_isFinite n
  | _ => false
  end.

(** The README's request with [true] for the second duration. *)
Definition boolean_duration_request : Value :=
  VObj [("jobId", VStr "job-123");
        ("segments", VArr [example_segment "https://example.com/image1.jpg" 3;
                           VObj [("imageUrl", VStr "https://example.com/image2.jpg");
                                 ("duration", VBool true)]])]%string.

(** What the downloads of [boolean_duration_request] resolve with. *)
Definition boolean_duration_downloaded : list Downloaded :=
  [ {| imagePath := "/app/temp/session-1/img_0.jpg"; duration := VInt 3;
       subtitleText := VUndef; word_duration := VUndef |};
    {| imagePath := "/app/temp/session-1/img_1.jpg"; duration := VBool true;
       subtitleText := VUndef; word_duration := VUndef |} ]%string.

(** What the downloads of [negative_request] resolve with. *)
Definition negative_downloaded : list Downloaded :=
  [ {| imagePath := "/app/temp/session-1/img_0.jpg"; duration := VInt 3;
       subtitleText := VUndef; word_duration := VUndef |};
    {| imagePath := "/app/temp/session-1/img_1.jpg"; duration := VInt (-1);
       subtitleText := VUndef; word_duration := VUndef |} ]%string.

(** The effects of the per-segment renders of [segs], numbered from [k],
    when each of them ends in time, and the files they write. *)
Fixpoint render_events (width height : Num) (dir : string) (k : nat) (segs : list Downloaded)
  : list Effect :=
  match segs with
  | [] => []
  | seg :: rest =>
      ECall (CreateSegmentVideo k seg)
      :: ERunSegment k (segment_command seg (segOut dir k) width height)
      :: render_events width height dir (S k) rest
  end.

Fixpoint segment_paths (dir : string) (k : nat) (segs : list Downloaded) : list string :=
  match segs with
  | [] => []
  | _ :: rest => segOut dir k :: segment_paths dir (S k) rest
  end.

(** What the downloads of [example_request] resolve with. *)
Definition example_downloaded : list Downloaded :=
  [ {| imagePath := "/app/temp/session-1/img_0.jpg"; duration := VInt 3;
       subtitleText := VUndef; word_duration := VUndef |};
    {| imagePath := "/app/temp/session-1/img_1.jpg"; duration := VInt 4;
       subtitleText := VUndef; word_duration := VUndef |} ]%string.

(** [calm_world], but the single run fails and the render of the second
    segment never finishes. *)
Definition stalled_world : World :=
  with_segment_run (with_fast_run calm_world (Some (Failure "Invalid data found")))
    (fun i => if (i =? 1)%nat then Stalls else Ends 1500).

(** [calm_world], but the second download completes before the first and
    the single run fails, so that the file is composed by the fallback. *)
Definition reordered_world : World :=
  with_schedule (with_fast_run calm_world (Some (Failure "Invalid data found"))) [1%nat; 0%nat].

(** The same request with a preset that is not a string. *)
Definition boolean_preset_request : Value :=
  VObj [("jobId", VStr "job-123"); ("subtitlePreset", VBool true); ("segments", VArr [])]%string.

(** ** Shapes of numbers in the scale computation *)

(** A finite number above zero. *)
Definition positive_finite (x : Num) : Prop :=
  exists m e, x = S754_finite false m e.

(** [+0], or a finite positive number m * 2^e that is at most 1. *)
Definition at_most_one (f : Num) : Prop :=
  f = S754_zero false
  \/ exists m e, f = S754_finite false m e /\ e <= 0 /\ Zpos m <= 2 ^ (- e).

(** What a quotient of two positive finite numbers can be: [+0] on
    underflow, a positive finite number of at most 53 bits, or [+Infinity]
    on overflow. *)
Definition nonneg_shape (x : Num) : Prop :=
  x = S754_zero false
  \/ (exists m e, x = S754_finite false m e /\ Zpos m < 2 ^ prec)
  \/ x = S754_infinity false.

(** The round or sticky bit of a shifted mantissa is set. *)
Definition inexact (st : shr_record) : bool := shr_r st || shr_s st.

(** ** Notions the further properties are stated with *)

(** The request passes the two entry checks and the styling block of the
    handler, and the session directory is made: the [try] block runs, for
    job [videoJobId], style [style] and the raw segments [rawSegments]. *)
Definition accepted (w : World) (req_body : Value) (videoJobId : string) (style : Value)
  (rawSegments : list Value) : Prop :=
  valid_jobId (get (request_body req_body) "jobId") = Some videoJobId
  /\ globalSubtitleStyle w (get (request_body req_body) "subtitlePreset")
       (get (request_body req_body) "subtitleStyle") = inr style
  /\ raw_segments (request_body req_body) = Some rawSegments
  /\ mkdir_session w = None.

(** The removal of a directory. *)
Definition is_removal (ev : Effect) : bool :=
  match ev with ERm _ => true | _ => false end.

(** A run of ffmpeg. *)
Definition is_ffmpeg_run (ev : Effect) : bool :=
  match ev with ERunFast _ | ERunSegment _ _ | ERunConcat _ _ => true | _ => false end.

(** The error of the [catch] block's response. *)
Definition failure_details (w : World) (e : Error) : Details :=
  if production w then InternalServerError else Message e.


(** [calm_world] in production, with a 404 for the image of the second
    segment. *)
Definition missing_image_world : World :=
  {| rt := rt calm_world; dirname := dirname calm_world; production := true;
     cpus := cpus calm_world; TEMP_ROOT := TEMP_ROOT calm_world;
     sessionId := sessionId calm_world; mkdir_session := None;
     server_answers := fun i _ => if (i =? 1)%nat then Download.Replied 404 true
                                  else Download.Replied 200 true;
     schedule := schedule calm_world; subtitleHelpers := None; ffprobe := ffprobe calm_world;
     fast_run := None; segment_run := segment_run calm_world; write_list := None;
     concat_run := None; upload := upload calm_world |}.


(** The README's request with the resolution given as a number. *)
Definition numeric_resolution_request : Value :=
  VObj [("jobId", VStr "job-123");
        ("resolution", VInt 720);
        ("segments", VArr [example_segment "https://example.com/image1.jpg" 3;
                           example_segment "https://example.com/image2.jpg" 4])]%string.

(** The request of the README as it is printed there: the first segment
    has a subtitle text. *)
Definition readme_segments : list Value :=
  [VObj [("imageUrl", VStr "https://example.com/image1.jpg");
         ("duration", VInt 3); ("subtitleText", VStr "Hello")];
   example_segment "https://example.com/image2.jpg" 4]%string.

Definition readme_request : Value :=
  VObj [("jobId", VStr "job-123");
        ("resolution", VStr "1280x720");
        ("segments", VArr readme_segments)]%string.

(** [seg.subtitleText || seg.word_duration] on a normalised segment. *)
Definition has_subtitle_data (seg : Segment) : bool :=
  truthy (js_or (seg_subtitleText seg) (seg_word_duration seg)).

(** The string holds the character. *)
Fixpoint has_char (c : ascii) (s : string) : bool :=
  match s with
  | EmptyString => false
  | String d rest => Ascii.eqb d c || has_char c rest
  end.

(** The keys of a raw segment the normaliser reads. *)
Definition known_keys : list string :=
  ["id"; "ID"; "index"; "imageUrl"; "image_Url"; "image_url"; "image";
   "duration"; "length"; "time"; "image_prompt"; "imagePrompt";
   "subtitleText"; "subtitle_text"; "subtitle"; "word_duration"; "wordDuration"; "words"]%string.

(** ** The process environment *)

(** [process.env]: a variable is a string or is not set. *)
Definition Env : Type := string -> option string.

(** Truthiness of [process.env.X]: set and not empty. *)
Definition env_truthy (v : option string) : bool :=
  match v with
  | Some s => negb (s =? "")%string
  | None => false
  end.

(** [process.env.NODE_ENV === 'production'], the test behind [production]
    of a world. *)
Definition production_of (env : Env) : bool :=
  match env "NODE_ENV"%string with
  | Some s => (s =? "production")%string
  | None => false
  end.

(** ** CORS options (server.js) *)

Module Cors.

(** [s.split(",")]. *)
Fixpoint split_comma (s : string) : list string :=
  match s with
  | EmptyString => [EmptyString]
  | String c rest =>
      if Ascii.eqb c ","%char then EmptyString :: split_comma rest
      else match split_comma rest with
           | piece :: pieces => String c piece :: pieces
           | [] => [String c EmptyString]
           end
  end.

(** [String.prototype.trim], within ASCII: white space is dropped from
    both ends. *)
Fixpoint trim_start (s : string) : string :=
  match s with
  | EmptyString => EmptyString
  | String c rest => if is_space c then trim_start rest else s
  end.

Fixpoint trim_end (s : string) : string :=
  match s with
  | EmptyString => EmptyString
  | String c rest =>
      let r := trim_end rest in
      if is_space c && (r =? "")%string then EmptyString else String c r
  end.

Definition trim (s : string) : string := trim_end (trim_start s).

(** [(process.env.CORS_ORIGINS || "").split(",").map(s => s.trim()).filter(Boolean)]. *)
Definition allowedOrigins (env : Env) : list string :=
  List.filter (fun s => negb (s =? "")%string)
    (map trim (split_comma (default EmptyString (env "CORS_ORIGINS"%string)))).

(** The [origin] option: [true], which makes the middleware reflect the
    origin of every request, or the callback over the list. *)
Inductive OriginOption : Type :=
| ReflectAny
| FromList (allowed : list string).

Record Options : Type := {
  origin : OriginOption;
  methods : list string;
  allowedHeaders : list string;
  credentials : bool
}.

Definition corsOptions (env : Env) : Options :=
  match allowedOrigins env with
  | [] =>
      {| origin := ReflectAny;
         methods := ["GET"; "POST"; "OPTIONS"];
         allowedHeaders := ["Content-Type"; "Authorization"];
         credentials := false |}
  | allowed =>
      {| origin := FromList allowed;
         methods := ["GET"; "POST"; "OPTIONS"];
         allowedHeaders := ["Content-Type"; "Authorization"];
         credentials := match env "CORS_CREDENTIALS" with
                        | Some s => (s =? "true")
                        | None => false
                        end |}
  end%string.

(** The callback: [callback(null, true)] when the request has no origin
    or a listed one, [callback(new Error("Not allowed by CORS"))]
    otherwise. *)
Definition origin_callback (allowed : list string) (request_origin : option string) : bool :=
  negb (env_truthy request_origin)
  || existsb (fun a => (default EmptyString request_origin =? a)%string) allowed.

(** Whether a request of the given origin passes the middleware. *)
Definition accepts (o : Options) (request_origin : option string) : bool :=
  match origin o with
  | ReflectAny => true
  | FromList allowed => origin_callback allowed request_origin
  end.

End Cors.

(** ** The JSON parse error handler (server.js) *)

Module JsonError.

(** What the handler reads of the error it is given: whether it is a
    [SyntaxError], its [status] when that is a number, whether it has a
    [body] property, and its [message]. *)
Record Err : Type := {
  is_SyntaxError : bool;
  status : option Z;
  has_body : bool;
  message : string
}.

Definition TRUNCATED : string := "...[truncated]".
Definition UNAVAILABLE : string := "<unavailable>".
Definition SNIPPET_CHARS : nat := 2000.

(** The snippet of the raw body that is logged; [rawBody] is [None] when
    the request has none.  Lengths count the characters of the string, as
    [length] and [slice] count the UTF-16 units of a JS string. *)
Definition snippet (rawBody : option string) : string :=
  if env_truthy rawBody then
    let raw := default EmptyString rawBody in
    if (SNIPPET_CHARS <? String.length raw)%nat
    then (substring 0 SNIPPET_CHARS raw ++ TRUNCATED)%string
    else raw
  else UNAVAILABLE.

(** The handler answers 400, with or without the snippet, or passes the
    error on with [next(err)]. *)
Inductive Answer : Type :=
| InvalidJSON (message : string) (rawBodySnippet : option string)
| Next.

(** [err] is [None] for a falsy error. *)
Definition handle (production : bool) (err : option Err) (rawBody : option string) : Answer :=
  match err with
  | Some e =>
      if is_SyntaxError e
         && match status e with Some st => st =? 400 | None => false end
         && has_body e
      then InvalidJSON (message e) (if production then None else Some (snippet rawBody))
      else Next
  | None => Next
  end.

End JsonError.

(** ** The storage helpers (lib/supabaseHelpers.js) *)

Module Supabase.

Section WithStorage.

(** The client object [createClient] returns and the contents of a file. *)
Context {Client Bytes : Type}.

(** What [storage.from(bucket).upload(...)] does: it throws, or resolves
    with an [error] (its [message]), or with no error and [data]
    ([data.path]). *)
Inductive UploadReply : Type :=
| UploadThrows (e : Error)
| UploadError (message : string)
| UploadData (path : Value).

(** What [storage.from(bucket).remove([...])] does. *)
Inductive RemoveReply : Type :=
| RemoveThrows (e : Error)
| RemoveError
| RemoveDone.

(** The calls the helpers make, in order. *)
Inductive Call : Type :=
| ReadFile (path : string)
| CreateClient (url key : string)
| Upload (bucket fileName contentType : string) (upsert : bool)
| GetPublicUrl (bucket fileName : string)
| Remove (bucket : string) (fileNames : list string).

(** The file system and the Supabase library, as the helpers meet them. *)
Record Outside : Type := {
  readFile : string -> Error + Bytes;
  createClient : string -> string -> Error + Client;
  upload : Client -> string -> string -> Bytes -> UploadReply;
  publicUrl : Client -> string -> string -> Value;
  remove : Client -> string -> list string -> RemoveReply
}.

Variable out : Outside.

(** A computation of the module: from the value of its variable
    [supabase] ([null] or the client) to the calls made, the new value of
    the variable, and the value returned or the error thrown. *)
Definition Op (A : Type) : Type :=
  option Client -> list Call * option Client * (Error + A).

Definition sret {A} (a : A) : Op A := fun st => ([], st, inr a).
Definition sthrow {A} (e : Error) : Op A := fun st => ([], st, inl e).
Definition scall (c : Call) : Op unit := fun st => ([c], st, inr tt).
Definition slift {A} (r : Error + A) : Op A :=
  match r with inl e => sthrow e | inr a => sret a end.

Definition sbind {A B} (m : Op A) (k : A -> Op B) : Op B := fun st =>
  match m st with
  | (t, st', inr a) => let '(t', st'', r) := k a st' in (t ++ t', st'', r)
  | (t, st', inl e) => (t, st', inl e)
  end.

(** [try { m } catch (error) { h error }]. *)
Definition scatch {A} (m : Op A) (h : Error -> Op A) : Op A := fun st =>
  match m st with
  | (t, st', inl e) => let '(t', st'', r) := h e st' in (t ++ t', st'', r)
  | r => r
  end.

Definition MISSING_ENVIRONMENT : Error :=
  Failure "Missing Supabase environment variables: require SUPABASE_URL and SUPABASE_SERVICE_ROLE_KEY (or fallback SUPABASE_ANON_KEY).".

(** [process.env.SUPABASE_SERVICE_ROLE_KEY || process.env.SUPABASE_ANON_KEY]. *)
Definition supabaseKey (env : Env) : option string :=
  if env_truthy (env "SUPABASE_SERVICE_ROLE_KEY"%string)
  then env "SUPABASE_SERVICE_ROLE_KEY"%string
  else env "SUPABASE_ANON_KEY"%string.

(** [getSupabaseClient]: the client of the module variable when there is
    one; otherwise a new one, kept in the variable. *)
Definition getSupabaseClient (env : Env) : Op Client := fun st =>
  match st with
  | Some client => ([], st, inr client)
  | None =>
      if env_truthy (env "SUPABASE_URL"%string) && env_truthy (supabaseKey env) then
        let url := default EmptyString (env "SUPABASE_URL"%string) in
        let key := default EmptyString (supabaseKey env) in
        match createClient out url key with
        | inr client => ([CreateClient url key], Some client, inr client)
        | inl e => ([CreateClient url key], None, inl e)
        end
      else ([], None, inl MISSING_ENVIRONMENT)
  end.

(** The default of the [bucketName] parameter,
    [process.env.SUPABASE_BUCKET_NAME || 'videos']. *)
Definition bucket_of (env : Env) (bucketName : option string) : string :=
  match bucketName with
  | Some b => b
  | None =>
      if env_truthy (env "SUPABASE_BUCKET_NAME"%string)
      then default EmptyString (env "SUPABASE_BUCKET_NAME"%string)
      else "videos"%string
  end.

Definition keyType (env : Env) : string :=
  if env_truthy (env "SUPABASE_SERVICE_ROLE_KEY"%string) then "service-role" else "anon".

Definition upload_failed (env : Env) (bucketName fileName message : string) : Error :=
  Failure ("Supabase upload failed (" ++ keyType env ++ " key) to bucket '" ++ bucketName
           ++ "', path '" ++ fileName ++ "': " ++ message).

Record Uploaded : Type := {
  url : Value;
  path : Value
}.

(** [uploadVideoToSupabase(filePath, jobId, bucketName)]; the [catch]
    block logs the error and throws it again. *)
Definition uploadVideoToSupabase (env : Env) (filePath jobId : string)
  (bucketName : option string) : Op Uploaded :=
  let bucket := bucket_of env bucketName in
  scatch
    (sbind (scall (ReadFile filePath)) (fun _ =>
     sbind (slift (readFile out filePath)) (fun fileBuffer =>
     let fileName := (jobId ++ ".mp4")%string in
     sbind (getSupabaseClient env) (fun client =>
     sbind (scall (Upload bucket fileName "video/mp4" true)) (fun _ =>
     match upload out client bucket fileName fileBuffer with
     | UploadThrows e => sthrow e
     | UploadError message => sthrow (upload_failed env bucket fileName message)
     | UploadData data_path =>
         sbind (scall (GetPublicUrl bucket fileName)) (fun _ =>
         sret {| url := publicUrl out client bucket fileName; path := data_path |})
     end)))))
    (fun error => sthrow error).

(** [deleteVideoFromSupabase(fileName, bucketName)]. *)
Definition deleteVideoFromSupabase (env : Env) (fileName : string)
  (bucketName : option string) : Op bool :=
  let bucket := bucket_of env bucketName in
  scatch
    (sbind (getSupabaseClient env) (fun client =>
     sbind (scall (Remove bucket [fileName])) (fun _ =>
     match remove out client bucket [fileName] with
     | RemoveThrows e => sthrow e
     | RemoveError => sret false
     | RemoveDone => sret true
     end)))
    (fun _ => sret false).

(** Successive calls of [getSupabaseClient], the environment possibly
    changing between them: what each returned, and the calls made. *)
Fixpoint get_clients (envs : list Env) (st : option Client)
  : list Call * option Client * list (Error + Client) :=
  match envs with
  | [] => ([], st, [])
  | env :: rest =>
      let '(t, st', r) := getSupabaseClient env st in
      let '(t', st'', rs) := get_clients rest st' in
      (t ++ t', st'', r :: rs)
  end.

End WithStorage.

Arguments Outside : clear implicits.

End Supabase.

(** ** The launcher (start.js) *)

Module Startup.

(** The events of the [ffmpeg -version] child process the check listens
    to: [close] with its exit code ([null] when a signal ended it), and
    [error]. *)
Inductive ProcEvent : Type :=
| Close (code : option Z)
| SpawnError.

(** [checkFFmpeg]: the promise resolves at the first of the two events,
    with [code === 0] or [false]; [None] while neither has come. *)
Definition checkFFmpeg (events : list ProcEvent) : option bool :=
  match events with
  | [] => None
  | Close code :: _ => Some (match code with Some c => c =? 0 | None => false end)
  | SpawnError :: _ => Some false
  end.

Inductive Failure : Type :=
| FFmpegNotFound
| TempDirectoryNotFound
| MissingSupabaseVariables.

(** How [startServer] goes: [process.exit(code)] after a failed check,
    the spawn of the server, or the wait for the ffmpeg check. *)
Inductive Launch : Type :=
| Exit (code : Z) (why : Failure)
| Spawn (command : string) (args : list string) (child_env : Env)
| Waiting.

(** [{ ...process.env, NODE_ENV: 'production' }]. *)
Definition child_env (env : Env) : Env :=
  fun name => if (name =? "NODE_ENV")%string then Some "production"%string else env name.

(** [startServer]; [tempDir] is [existsSync('./temp')]. *)
Definition startServer (events : list ProcEvent) (tempDir : bool) (env : Env) : Launch :=
  match checkFFmpeg events with
  | None => Waiting
  | Some ffmpegAvailable =>
      if negb ffmpegAvailable then Exit 1 FFmpegNotFound
      else if negb tempDir then Exit 1 TempDirectoryNotFound
      else if negb (env_truthy (env "SUPABASE_URL"%string))
              || negb (env_truthy (env "SUPABASE_ANON_KEY"%string))
      then Exit 1 MissingSupabaseVariables
      else Spawn "node" ["server.js"%string] (child_env env)
  end.

End Startup.

(** An environment with the service role key only. *)
Definition service_role_env : Env :=
  fun name =>
    if (name =? "SUPABASE_URL")%string then Some "https://project.supabase.co"%string
    else if (name =? "SUPABASE_SERVICE_ROLE_KEY")%string then Some "service-key"%string
    else None.

(** An environment with the two variables the README asks for. *)
Definition anon_env : Env :=
  fun name =>
    if (name =? "SUPABASE_URL")%string then Some "https://project.supabase.co"%string
    else if (name =? "SUPABASE_ANON_KEY")%string then Some "anon-key"%string
    else None.

(** An environment in which nothing is set. *)
Definition empty_env : Env := fun _ => None.

(** A storage in which every call succeeds; a client is named by its URL
    and key, and the public URL of an object is made of its bucket and
    name. *)
Definition example_storage : Supabase.Outside (string * string) string :=
  {| Supabase.readFile := fun _ => inr "mp4"%string;
     Supabase.createClient := fun url key => inr (url, key);
     Supabase.upload := fun _ _ fileName _ => Supabase.UploadData (VStr fileName);
     Supabase.publicUrl := fun _ bucket fileName =>
       VStr ("https://storage.example/" ++ bucket ++ "/" ++ fileName);
     Supabase.remove := fun _ _ _ => Supabase.RemoveDone |}.

(** What the handler's call [uploadVideoToSupabase(finalPath, videoJobId)]
    gives it, [uploadResult.url] or the error thrown, when the storage
    helpers run against [out] in environment [env] with the module
    variable at [st]. *)
Definition upload_via {Client Bytes : Type} (out : Supabase.Outside Client Bytes)
  (env : Env) (st : option Client) (finalPath videoJobId : string) : Error + Value :=
  match Supabase.uploadVideoToSupabase out env finalPath videoJobId None st with
  | (_, _, inr uploaded) => inr (Supabase.url uploaded)
  | (_, _, inl e) => inl e
  end.

(** The first segment of the README's request with its keys in another
    order and a key the normaliser does not know. *)
Definition annotated_segment : Value :=
  VObj [("note", VStr "draft"); ("duration", VInt 3);
        ("imageUrl", VStr "https://example.com/image1.jpg")]%string.

(** The tasks settled so far, in the order they settled, followed by the
    tasks in flight, are the tasks started, in the order they started. *)
Definition in_start_order {T A E : Type} (s : Limiter.state T A E) : Prop :=
  map fst (Limiter.settled s) ++ Limiter.inflight s = Limiter.started s.

(** Two tasks handed to a limiter with no slot. *)
Definition two_submissions : list (Limiter.event nat) :=
  [Limiter.Submit 1%nat; Limiter.Submit 2%nat].

(** * Properties *)

(** ** The limiter *)

Section LimiterFacts.

Context {T A E : Type}.
Variable run : T -> Limiter.Settlement A E.
Variable c : Z.

Import Limiter.

Lemma next_inv subm s : pre_inv run c subm s -> inv run c subm (next c s).
Proof.
  intros [Ha Hb Hf Hq Ho Hp]. unfold next.
  destruct (queue s) as [|e q] eqn:Eq.
  - split; rewrite ?Eq; auto. congruence.
  - destruct (active s >=? c) eqn:Ec.
    + split; rewrite ?Eq; auto. intros _. lia.
    + split; cbn.
      * rewrite length_app. cbn. lia.
      * lia.
      * rewrite <- Hf, <- app_assoc. reflexivity.
      * intros Hne. destruct Hq as [Hq|Hq]; [congruence | lia | ].
        cbn in Hq. congruence.
      * exact Ho.
      * rewrite app_assoc, Hp. reflexivity.
Qed.

Lemma init_inv : inv run c [] init.
Proof.
  split; cbn; try reflexivity; try lia; try congruence. constructor.
Qed.

Lemma submit_inv subm fn s :
  inv run c subm s -> inv run c (subm ++ [fn]) (submit c fn s).
Proof.
  intros [Ha Hb Hf Hq Ho Hp]. apply next_inv. split; cbn; auto.
  - rewrite app_assoc, Hf. reflexivity.
  - intros _. destruct (queue s) as [|e q] eqn:Eq.
    + right. reflexivity.
    + left. assert (active s >= c) by (apply Hq; congruence). lia.
Qed.

Lemma settle_inv subm k s s' :
  inv run c subm s -> settle run c k s = Some s' -> inv run c subm s'.
Proof.
  intros [Ha Hb Hf Hq Ho Hp] Hs. unfold settle in Hs.
  destruct (inflight s !! k) as [e|] eqn:Ek; [|discriminate].
  injection Hs as <-. apply next_inv. split; cbn; auto.
  - rewrite length_delete by eauto.
    apply lookup_lt_Some in Ek. lia.
  - apply lookup_lt_Some in Ek. lia.
  - intros Hne. left. specialize (Hq Hne). lia.
  - apply Forall_app. split; [exact Ho|]. constructor; [reflexivity|constructor].
  - rewrite map_app. cbn. rewrite <- Hp.
    rewrite (delete_Permutation _ _ _ Ek) at 2.
    rewrite <- app_assoc. cbn. apply Permutation_app_head.
    reflexivity.
Qed.

Lemma exec_inv evs : forall subm s s',
  inv run c subm s -> exec run c evs s = Some s' ->
  inv run c (subm ++ submitted evs) s'.
Proof.
  induction evs as [|ev evs IH]; intros subm s s' Hi He; cbn in *.
  - injection He as <-. rewrite app_nil_r. exact Hi.
  - destruct ev as [fn|k]; cbn in He.
    + replace (subm ++ fn :: submitted evs) with ((subm ++ [fn]) ++ submitted evs)
        by (rewrite <- app_assoc; reflexivity).
      eapply IH; [|exact He]. apply submit_inv. exact Hi.
    + destruct (settle run c k s) as [s1|] eqn:Es; [|discriminate].
      eapply IH; [|exact He]. eapply settle_inv; eauto.
Qed.

Lemma submit_all_inv fns : forall subm s,
  inv run c subm s -> inv run c (subm ++ fns) (submit_all c fns s).
Proof.
  induction fns as [|fn fns IH]; intros subm s Hi; cbn.
  - rewrite app_nil_r. exact Hi.
  - replace (subm ++ fn :: fns) with ((subm ++ [fn]) ++ fns)
      by (rewrite <- app_assoc; reflexivity).
    apply IH. apply submit_inv. exact Hi.
Qed.

Lemma next_unsettled (s : state T A E) : unsettled (next c s) = unsettled s.
Proof.
  unfold next, unsettled. destruct (queue s) as [|e q] eqn:Eq; [rewrite Eq; reflexivity|].
  destruct (active s >=? c); [rewrite Eq; reflexivity|]. cbn. rewrite length_app. cbn. lia.
Qed.

Lemma settle_unsettled k s s' :
  settle run c k s = Some s' -> S (unsettled s') = unsettled s.
Proof.
  unfold settle. destruct (inflight s !! k) as [e|] eqn:Ek; [|discriminate].
  intros Hs. injection Hs as <-. rewrite next_unsettled. unfold unsettled. cbn.
  rewrite length_delete by eauto. apply lookup_lt_Some in Ek. lia.
Qed.

Lemma idle_inv_empty subm s :
  1 <= c -> inv run c subm s -> inflight s = [] -> queue s = [].
Proof.
  intros Hc [Ha Hb Hf Hq Ho Hp] Hi.
  destruct (queue s) as [|e q] eqn:Eq; [reflexivity|].
  assert (active s >= c) by (apply Hq; congruence).
  rewrite Hi in Ha. cbn in Ha. lia.
Qed.

Lemma drain_inv fuel : forall sched s subm,
  inv run c subm s -> inv run c subm (drain run c sched fuel s).
Proof.
  induction fuel as [|fuel IH]; intros sched s subm Hi; cbn; [exact Hi|].
  destruct (inflight s) as [|e l] eqn:Ei; [exact Hi|].
  destruct (settle run c _ s) as [s1|] eqn:Es; [|exact Hi].
  eapply IH. eapply settle_inv; eauto.
Qed.

Lemma drain_done fuel : forall sched s subm,
  1 <= c -> inv run c subm s -> (unsettled s <= fuel)%nat ->
  inflight (drain run c sched fuel s) = [] /\ queue (drain run c sched fuel s) = [].
Proof.
  induction fuel as [|fuel IH]; intros sched s subm Hc Hi Hu; cbn.
  - unfold unsettled in Hu.
    destruct (inflight s), (queue s); cbn in Hu; try lia. auto.
  - destruct (inflight s) as [|e l] eqn:Ei.
    + split; [exact Ei|]. eapply idle_inv_empty; eauto.
    + set (k := (hd 0%nat sched mod length (e :: l))%nat).
      assert (Hk : (k < length (inflight s))%nat).
      { rewrite Ei. apply Nat.mod_upper_bound. cbn. lia. }
      destruct (settle run c k s) as [s1|] eqn:Es.
      * apply (IH _ _ subm); auto.
        -- eapply settle_inv; eauto.
        -- apply settle_unsettled in Es. lia.
      * unfold settle in Es. apply lookup_lt_is_Some_2 in Hk.
        destruct Hk as [x Hx]. rewrite Hx in Es. discriminate.
Qed.

Lemma run_all_done :
  1 <= c -> forall sched fns,
  inv run c fns (run_all run c sched fns) /\
  inflight (run_all run c sched fns) = [] /\ queue (run_all run c sched fns) = [].
Proof.
  intros Hc sched fns. unfold run_all.
  set (s0 := submit_all c fns (@init T A E)).
  assert (Hi : inv run c fns s0) by apply (submit_all_inv fns [] init), init_inv.
  split; [apply drain_inv; exact Hi|].
  apply (drain_done _ _ _ fns); auto.
  destruct Hi as [Ha Hb Hf Hq Ho Hp]. unfold unsettled.
  apply (f_equal (@length T)) in Hf. rewrite length_app in Hf.
  apply Permutation_length in Hp. rewrite length_app, length_map in Hp. lia.
Qed.

End LimiterFacts.

Lemma MAX_CONCURRENCY_floor cpus : 1 <= MAX_CONCURRENCY cpus.
Proof. unfold MAX_CONCURRENCY. lia. Qed.

(** C4: in every state the limiter reaches with pool size
    [N = max 1 (cpus - 1)], at most [N] tasks are active; tasks are started
    in the order they were submitted; a waiting task means the pool is
    full, and when an in-flight task settles, fulfilled or rejected alike,
    the head of the queue is started; every settlement is passed to the
    promise of the task it came from; and a whole fan-out, whatever the
    order in which its tasks settle, ends with every task settled with its
    own result. *)
Theorem pLimit_bounded_fifo_independent {T A E : Type}
  (run : T -> Limiter.Settlement A E) (cpus : Z)
  (evs : list (Limiter.event T)) (s : Limiter.state T A E) :
  Limiter.exec run (MAX_CONCURRENCY cpus) evs Limiter.init = Some s ->
  (0 <= Limiter.active s <= MAX_CONCURRENCY cpus
   /\ Limiter.active s = Z.of_nat (length (Limiter.inflight s)))
  /\ Limiter.started s ++ Limiter.queue s = Limiter.submitted evs
  /\ (Limiter.queue s <> [] -> Limiter.active s = MAX_CONCURRENCY cpus)
  /\ (forall k s' e q,
        Limiter.settle run (MAX_CONCURRENCY cpus) k s = Some s' ->
        Limiter.queue s = e :: q ->
        Limiter.started s' = Limiter.started s ++ [e] /\ Limiter.queue s' = q)
  /\ (Forall (fun p => snd p = run (fst p)) (Limiter.settled s)
      /\ map fst (Limiter.settled s) ++ Limiter.inflight s ≡ₚ Limiter.started s)
  /\ (forall sched fns,
        Limiter.queue (Limiter.run_all run (MAX_CONCURRENCY cpus) sched fns) = []
        /\ Limiter.inflight (Limiter.run_all run (MAX_CONCURRENCY cpus) sched fns) = []
        /\ map fst (Limiter.settled (Limiter.run_all run (MAX_CONCURRENCY cpus) sched fns))
             ≡ₚ fns
        /\ Forall (fun p => snd p = run (fst p))
             (Limiter.settled (Limiter.run_all run (MAX_CONCURRENCY cpus) sched fns))).
Proof.
  intros He.
  pose proof (MAX_CONCURRENCY_floor cpus) as HN.
  pose proof (exec_inv run _ evs [] _ _ (init_inv run _) He) as Hi.
  cbn in Hi. destruct Hi as [Ha Hb Hf Hq Ho Hp].
  assert (Hbusy : Limiter.queue s <> [] -> Limiter.active s = MAX_CONCURRENCY cpus).
  { intros Hne. specialize (Hq Hne). lia. }
  pose proof (run_all_done run _ HN) as Hall.
  split; [split; [lia | exact Ha]|].
  split; [exact Hf|].
  split; [exact Hbusy|].
  split.
  { intros k s' e q Hs Hqe.
    assert (Hact : Limiter.active s = MAX_CONCURRENCY cpus)
      by (apply Hbusy; rewrite Hqe; discriminate).
    unfold Limiter.settle in Hs.
    destruct (Limiter.inflight s !! k) as [x|]; [|discriminate].
    injection Hs as <-. unfold Limiter.next. cbn. rewrite Hqe.
    destruct (Limiter.active s - 1 >=? MAX_CONCURRENCY cpus) eqn:Ec; [lia|].
    cbn. split; reflexivity. }
  split; [split; [exact Ho | exact Hp]|].
  intros sched fns.
  destruct (Hall sched fns) as ([_ _ Hf' _ Ho' Hp'] & Hi' & Hq').
  split; [exact Hq'|]. split; [exact Hi'|]. split; [|exact Ho'].
  rewrite Hi', app_nil_r in Hp'. rewrite Hq', app_nil_r in Hf'.
  rewrite Hp', Hf'. reflexivity.
Qed.

(** The limiter with two slots after four submissions and two settlements,
    one of them a rejection. *)
Lemma pLimit_bounded_fifo_independent_witness :
  Limiter.exec parity_run (MAX_CONCURRENCY 3) parity_events Limiter.init = Some parity_state
  /\ Limiter.active parity_state <= MAX_CONCURRENCY 3
  /\ Limiter.started parity_state ++ Limiter.queue parity_state
     = Limiter.submitted parity_events.
Proof.
  split; [reflexivity|].
  destruct (pLimit_bounded_fifo_independent parity_run 3 parity_events parity_state eq_refl)
    as ((Hb & _) & Hf & _).
  split; [apply Hb | exact Hf].
Defined.

(** ** The fetcher *)

Section DownloadFacts.

Import Download.

Variable answers : Z -> Attempt.
Variable url : Value.
Variables retries retryDelay : Z.

Lemma loop_total fuel : forall a slept,
  retries <= a + Z.of_nat fuel ->
  exists r, loop (S fuel) answers url retries retryDelay a slept = Some r.
Proof.
  induction fuel as [|fuel IH]; intros a slept Hf; cbn.
  - destruct (caught_status (answers (a + 1))) as [st|]; [|eauto].
    destruct (non_retryable st); [eauto|].
    destruct (a + 1 >? retries) eqn:Hgt; [eauto|]. lia.
  - destruct (caught_status (answers (a + 1))) as [st|] eqn:Hc; [|eauto].
    destruct (non_retryable st) eqn:Hn; [eauto|].
    destruct (a + 1 >? retries) eqn:Hgt; [eauto|].
    apply IH. lia.
Qed.

Lemma loop_extends fuel : forall a slept r,
  loop fuel answers url retries retryDelay a slept = Some r ->
  a < attempts r /\ exists more, delays r = slept ++ more.
Proof.
  induction fuel as [|fuel IH]; intros a slept r Hl; cbn in Hl; [discriminate|].
  destruct (caught_status (answers (a + 1))) as [st|].
  - destruct (non_retryable st).
    + injection Hl as <-. cbn. split; [lia|]. exists []. now rewrite app_nil_r.
    + destruct (a + 1 >? retries).
      * injection Hl as <-. cbn. split; [lia|]. exists []. now rewrite app_nil_r.
      * apply IH in Hl. destruct Hl as [Ha [more Hm]]. split; [lia|].
        exists (retryDelay * (a + 1) :: more). rewrite Hm, <- app_assoc. reflexivity.
  - injection Hl as <-. cbn. split; [lia|]. exists []. now rewrite app_nil_r.
Qed.

Lemma backoff_from_S a m :
  backoff_from retryDelay a (S m) = retryDelay * (a + 1) :: backoff_from retryDelay (a + 1) m.
Proof.
  unfold backoff_from. cbn [seq map]. f_equal.
  rewrite <- seq_shift, map_map. apply map_ext. intros j. f_equal. lia.
Qed.

(** [m] retried attempts in a row, from counter [a] on. *)
Lemma loop_retries m : forall fuel a slept,
  (forall j, a < j <= a + Z.of_nat m -> retryable_failure (answers j) /\ j <= retries) ->
  loop (m + fuel) answers url retries retryDelay a slept
  = loop fuel answers url retries retryDelay (a + Z.of_nat m)
      (slept ++ backoff_from retryDelay a m).
Proof.
  induction m as [|m IH]; intros fuel a slept Hr.
  - cbn. rewrite app_nil_r. f_equal. lia.
  - destruct (Hr (a + 1)) as [[st [Hc Hn]] Hle]; [lia|].
    cbn [Nat.add loop]. rewrite Hc, Hn.
    destruct (a + 1 >? retries) eqn:Hgt; [lia|].
    rewrite IH by (intros j Hj; apply Hr; lia).
    rewrite backoff_from_S, <- app_assoc. cbn. f_equal. lia.
Qed.

(** The call ends at the first attempt that succeeds, or fails with one of
    the four statuses, or comes after the retry budget. *)
Lemma download_decided (m : nat) :
  (forall j, 1 <= j <= Z.of_nat m -> retryable_failure (answers j) /\ j <= retries) ->
  match caught_status (answers (Z.of_nat m + 1)) with
  | None => True
  | Some st => non_retryable st = true \/ Z.of_nat m + 1 > retries
  end ->
  downloadFileToPath answers url retries retryDelay
  = Some {| failure := failure_at answers url (Z.of_nat m + 1);
            attempts := Z.of_nat m + 1;
            delays := backoff retryDelay m |}.
Proof.
  intros Hr Hd. unfold downloadFileToPath.
  assert (Hm : (m <= Z.to_nat retries)%nat).
  { destruct m as [|m]; [lia|]. destruct (Hr (Z.of_nat (S m))) as [_ H]; lia. }
  replace (S (Z.to_nat retries)) with (m + S (Z.to_nat retries - m))%nat by lia.
  rewrite loop_retries by (intros j Hj; apply Hr; lia).
  cbn [loop]. unfold failure_at, backoff. cbn [app Z.add].
  replace (0 + Z.of_nat m + 1) with (Z.of_nat m + 1) by lia.
  destruct (caught_status (answers (Z.of_nat m + 1))) as [st|]; [|reflexivity].
  destruct (non_retryable st); [reflexivity|].
  destruct Hd as [Hd|Hd]; [discriminate|].
  destruct (Z.of_nat m + 1 >? retries) eqn:Hgt; [reflexivity|lia].
Qed.

End DownloadFacts.

Lemma four_statuses_non_retryable st :
  In st [400; 401; 403; 404] -> Download.non_retryable (Some st) = true.
Proof.
  cbn. intros [<-|[<-|[<-|[<-|[]]]]]; reflexivity.
Qed.

Lemma other_status_retryable status saved :
  status < 200 \/ 300 <= status -> ~ In status [400; 401; 403; 404] ->
  Download.retryable_failure (Download.Replied status saved).
Proof.
  intros Hs Hn. exists (Some status). split.
  - cbn. destruct (status =? 0) eqn:E0; [reflexivity|].
    destruct (status <? 200) eqn:E1; [reflexivity|].
    destruct (status >=? 300) eqn:E2; [reflexivity|]. lia.
  - cbn. destruct (status =? 0); [reflexivity|]. cbn.
    destruct (status =? 400) eqn:E1; [cbn in Hn; lia|].
    destruct (status =? 401) eqn:E2; [cbn in Hn; lia|].
    destruct (status =? 403) eqn:E3; [cbn in Hn; lia|].
    destruct (status =? 404) eqn:E4; [cbn in Hn; lia|].
    reflexivity.
Qed.

(** C5: [downloadFileToPath] always ends; a reply outside 2xx other than
    400, 401, 403, 404, or a transport error without a status, is a
    failure the loop retries; when attempts 1 to [k] fail that way and
    [k <= retries], attempt [k + 1] is made and the delay slept after
    attempt [j <= k] is [retryDelay * j]; a status 400, 401, 403 or 404 at
    any attempt ends the call there with an error carrying the URL and
    that status, with no further delay; replies 500, 500, 200 under the
    default options succeed at the third attempt after delays 500 and
    1000; and when all [retries + 1] attempts fail in a retried way the
    error carries the URL and the status of the last attempt. *)
Theorem downloadFileToPath_retry_policy
  (answers : Z -> Download.Attempt) (url : Value) (retries retryDelay : Z) :
  (exists r, Download.downloadFileToPath answers url retries retryDelay = Some r)
  /\ (forall status saved,
        status < 200 \/ 300 <= status -> ~ In status [400; 401; 403; 404] ->
        Download.retryable_failure (Download.Replied status saved))
  /\ Download.retryable_failure (Download.Threw None None)
  /\ (forall k : nat,
        Z.of_nat k <= retries ->
        (forall j, 1 <= j <= Z.of_nat k -> Download.retryable_failure (answers j)) ->
        exists r,
          Download.downloadFileToPath answers url retries retryDelay = Some r
          /\ Z.of_nat k < Download.attempts r
          /\ firstn k (Download.delays r) = Download.backoff retryDelay k)
  /\ (forall (k : nat) (st : Z),
        Z.of_nat k <= retries ->
        (forall j, 1 <= j <= Z.of_nat k -> Download.retryable_failure (answers j)) ->
        Download.caught_status (answers (Z.of_nat k + 1)) = Some (Some st) ->
        In st [400; 401; 403; 404] ->
        Download.downloadFileToPath answers url retries retryDelay
        = Some {| Download.failure := Some {| Download.e_status := Some st;
                                              Download.e_url := url |};
                  Download.attempts := Z.of_nat k + 1;
                  Download.delays := Download.backoff retryDelay k |})
  /\ Download.downloadFileToPath (Download.replies [500; 500; 200]) url
       Download.default_retries Download.default_retryDelay
     = Some {| Download.failure := None; Download.attempts := 3;
               Download.delays := [500; 1000] |}
  /\ (0 <= retries ->
      (forall j, 1 <= j <= retries + 1 -> Download.retryable_failure (answers j)) ->
      exists st,
        Download.caught_status (answers (retries + 1)) = Some st
        /\ Download.downloadFileToPath answers url retries retryDelay
           = Some {| Download.failure := Some {| Download.e_status := st;
                                                 Download.e_url := url |};
                     Download.attempts := retries + 1;
                     Download.delays := Download.backoff retryDelay (Z.to_nat retries) |}).
Proof.
  assert (Htot : exists r, Download.downloadFileToPath answers url retries retryDelay = Some r).
  { apply loop_total. lia. }
  split; [exact Htot|].
  split; [apply other_status_retryable|].
  split; [exists None; split; reflexivity|].
  split.
  { intros k Hk Hr. destruct Htot as [r Hd]. exists r. split; [exact Hd|].
    unfold Download.downloadFileToPath in Hd.
    replace (S (Z.to_nat retries)) with (k + S (Z.to_nat retries - k))%nat in Hd by lia.
    rewrite loop_retries in Hd by (intros j Hj; split; [apply Hr|]; lia).
    apply loop_extends in Hd. destruct Hd as [Ha [more Hm]].
    split; [lia|]. rewrite Hm. cbn [app]. unfold Download.backoff.
    rewrite firstn_app.
    assert (Hl : length (Download.backoff_from retryDelay 0 k) = k)
      by (unfold Download.backoff_from; rewrite length_map, length_seq; reflexivity).
    rewrite Hl, Nat.sub_diag, firstn_all2 by lia. cbn. apply app_nil_r. }
  split.
  { intros k st Hk Hr Hc Hin.
    rewrite (download_decided answers url retries retryDelay k).
    - unfold Download.failure_at. rewrite Hc. reflexivity.
    - intros j Hj. split; [apply Hr|]; lia.
    - rewrite Hc. left. apply four_statuses_non_retryable, Hin. }
  split; [reflexivity|].
  intros H0 Hr.
  destruct (Hr (retries + 1)) as [st [Hc Hn]]; [lia|].
  exists st. split; [exact Hc|].
  rewrite (download_decided answers url retries retryDelay (Z.to_nat retries)).
  - unfold Download.failure_at. rewrite Z2Nat.id by lia. rewrite Hc. reflexivity.
  - intros j Hj. split; [apply Hr|]; lia.
  - rewrite Z2Nat.id by lia. rewrite Hc. right. lia.
Qed.

(** Replies 503, 404: one retry after 500 ms, then the 404 ends the call. *)
Lemma downloadFileToPath_retry_policy_witness :
  (forall j, 1 <= j <= Z.of_nat 1 ->
     Download.retryable_failure (Download.replies [503; 404; 200] j))
  /\ Download.downloadFileToPath (Download.replies [503; 404; 200]) (VStr "http://a/b.png") 2 500
     = Some {| Download.failure := Some {| Download.e_status := Some 404;
                                           Download.e_url := VStr "http://a/b.png" |};
               Download.attempts := Z.of_nat 1 + 1;
               Download.delays := Download.backoff 500 1 |}.
Proof.
  assert (Hr : forall j, 1 <= j <= Z.of_nat 1 ->
                 Download.retryable_failure (Download.replies [503; 404; 200] j)).
  { intros j Hj. assert (j = 1) as -> by lia. exists (Some 503). split; reflexivity. }
  split; [exact Hr|].
  destruct (downloadFileToPath_retry_policy
              (Download.replies [503; 404; 200]) (VStr "http://a/b.png") 2 500)
    as (_ & _ & _ & _ & Hstop & _).
  apply (Hstop 1%nat 404); [lia | exact Hr | reflexivity | cbn; tauto].
Defined.

(** ** Frame geometry

    The scale computation runs in binary64 arithmetic.  The facts below
    follow [SpecFloat]'s rounding through the two operations of the source
    that round, the division [width / iw] and the product [iw * factor]. *)

(** *** Digit counts and shifted mantissas *)

(** A positive mantissa of [d] binary digits lies in [2^(d-1), 2^d). *)
Lemma digits2_pos_bounds p :
  2 ^ (Zpos (digits2_pos p) - 1) <= Zpos p < 2 ^ Zpos (digits2_pos p).
Proof.
  induction p as [p IH|p IH|]; cbn [digits2_pos].
  - rewrite Pos2Z.inj_succ.
    replace (Z.succ (Zpos (digits2_pos p)) - 1) with (Z.succ (Zpos (digits2_pos p) - 1)) by lia.
    rewrite !Z.pow_succ_r by lia. lia.
  - rewrite Pos2Z.inj_succ.
    replace (Z.succ (Zpos (digits2_pos p)) - 1) with (Z.succ (Zpos (digits2_pos p) - 1)) by lia.
    rewrite !Z.pow_succ_r by lia. lia.
  - cbn. lia.
Qed.

Lemma Zdigits2_gt m : 0 <= m -> m < 2 ^ Zdigits2 m.
Proof.
  destruct m as [|p|p]; intros Hm; [cbn; lia| |lia].
  cbn [Zdigits2]. apply digits2_pos_bounds.
Qed.

Lemma Zdigits2_le m k : 0 <= k -> 0 <= m < 2 ^ k -> Zdigits2 m <= k.
Proof.
  intros Hk [Hm Hlt]. destruct m as [|p|p]; [cbn; lia| |lia].
  cbn [Zdigits2]. pose proof (digits2_pos_bounds p) as [Hlo _].
  assert (H : 2 ^ (Zpos (digits2_pos p) - 1) < 2 ^ k) by lia.
  apply Z.pow_lt_mono_r_iff in H; lia.
Qed.

Lemma digits2_pos_unique p k :
  2 ^ (k - 1) <= Zpos p < 2 ^ k -> Zpos (digits2_pos p) = k.
Proof.
  intros [Hlo Hhi]. pose proof (digits2_pos_bounds p) as [Hlo' Hhi'].
  assert (Hk : 0 < k).
  { destruct (Z.ltb_spec 0 k) as [|Hk]; [assumption|].
    destruct (Z.eq_dec k 0) as [->|Hk0]; [cbn in Hhi; lia|].
    rewrite Z.pow_neg_r in Hhi by lia. lia. }
  assert (H1 : 2 ^ (k - 1) < 2 ^ Zpos (digits2_pos p)) by lia.
  assert (H2 : 2 ^ (Zpos (digits2_pos p) - 1) < 2 ^ k) by lia.
  apply Z.pow_lt_mono_r_iff in H1; [|lia|lia].
  apply Z.pow_lt_mono_r_iff in H2; lia.
Qed.

Lemma iter_pos_iter {A : Type} (f : A -> A) p x :
  @SpecFloat.iter_pos A f p x = @Pos.iter A f x p.
Proof.
  revert x. induction p as [p IH|p IH|]; intros x; cbn [SpecFloat.iter_pos Pos.iter].
  - rewrite !IH, !Pos.iter_swap. reflexivity.
  - rewrite !IH. reflexivity.
  - reflexivity.
Qed.

(** One right shift halves the mantissa, rounding down; when it sets the
    round or sticky bit, a bit was lost now or before. *)
Lemma shr_1_step st :
  0 <= shr_m st ->
  0 <= shr_m (shr_1 st)
  /\ 2 * shr_m (shr_1 st) <= shr_m st
  /\ (inexact (shr_1 st) = true -> inexact st = true \/ 2 * shr_m (shr_1 st) < shr_m st).
Proof.
  destruct st as [m r s]. unfold inexact. cbn [shr_m shr_r shr_s].
  destruct m as [|[p|p|]|p]; cbn [shr_1 shr_m shr_r shr_s]; intros Hm;
    try lia; (split; [lia|split; [lia|]]);
    destruct r, s; cbn; intros H; auto; try discriminate; right; lia.
Qed.

(** [p] right shifts: the shifted mantissa times [2^p] is at most the
    original one, strictly below it when a bit was lost. *)
Lemma shr_iter p st :
  0 <= shr_m st ->
  0 <= shr_m (SpecFloat.iter_pos shr_1 p st)
  /\ 2 ^ Zpos p * shr_m (SpecFloat.iter_pos shr_1 p st) <= shr_m st
  /\ (inexact (SpecFloat.iter_pos shr_1 p st) = true ->
      inexact st = true \/ 2 ^ Zpos p * shr_m (SpecFloat.iter_pos shr_1 p st) < shr_m st).
Proof.
  intros Hm. rewrite iter_pos_iter.
  apply (Pos.iter_ind _ shr_1 st
           (fun p a => 0 <= shr_m a /\ 2 ^ Zpos p * shr_m a <= shr_m st
                       /\ (inexact a = true -> inexact st = true \/ 2 ^ Zpos p * shr_m a < shr_m st))).
  - change (2 ^ 1) with 2. apply shr_1_step, Hm.
  - intros q a (Ha & Hle & Hin).
    destruct (shr_1_step a Ha) as (Ha' & Hle' & Hin').
    rewrite Pos2Z.inj_succ, Z.pow_succ_r by lia.
    assert (Hp : 0 < 2 ^ Zpos q) by (apply Z.pow_pos_nonneg; lia).
    split; [assumption|]. split; [nia|].
    intros Hx. destruct (Hin' Hx) as [Hy|Hy].
    + destruct (Hin Hy) as [Hz|Hz]; [now left|right; nia].
    + right. nia.
Qed.

Lemma fexp_eq x : fexp prec emax x = Z.max (x - 53) (-1074).
Proof. reflexivity. Qed.

Lemma shr_m_of_loc m l : shr_m (shr_record_of_loc m l) = m.
Proof. destruct l as [|[]]; reflexivity. Qed.

Lemma loc_of_loc m l : loc_of_shr_record (shr_record_of_loc m l) = l.
Proof. destruct l as [|[]]; reflexivity. Qed.

Lemma inexact_loc st : loc_of_shr_record st <> loc_Exact -> inexact st = true.
Proof. destruct st as [m [] []]; cbn; auto. Qed.

Lemma inexact_of_loc m l : inexact (shr_record_of_loc m l) = true -> l <> loc_Exact.
Proof. destruct l as [|[]]; cbn; intros H; discriminate. Qed.

(** Aligning a mantissa to the format's exponent only raises the exponent,
    to [fexp] of the number's magnitude when that is above. *)
Lemma shr_fexp_spec m e l :
  0 <= m ->
  exists mrs e',
    shr_fexp prec emax m e l = (mrs, e')
    /\ e' = Z.max e (fexp prec emax (Zdigits2 m + e))
    /\ 0 <= shr_m mrs
    /\ 2 ^ (e' - e) * shr_m mrs <= m
    /\ (loc_of_shr_record mrs <> loc_Exact ->
        l <> loc_Exact \/ 2 ^ (e' - e) * shr_m mrs < m).
Proof.
  intros Hm. unfold shr_fexp, shr.
  destruct (fexp prec emax (Zdigits2 m + e) - e) as [|p|p] eqn:Hn.
  - exists (shr_record_of_loc m l), e. rewrite shr_m_of_loc, loc_of_loc, Z.sub_diag.
    repeat split; try lia. now left.
  - pose proof (shr_iter p (shr_record_of_loc m l)) as H.
    rewrite shr_m_of_loc in H. destruct (H Hm) as (H0 & Hle & Hin).
    eexists _, _. split; [reflexivity|].
    replace (e + Zpos p - e) with (Zpos p) by lia.
    repeat split; try lia.
    intros Hx. destruct (Hin (inexact_loc _ Hx)) as [Hy|Hy]; [left|now right].
    eapply inexact_of_loc, Hy.
  - exists (shr_record_of_loc m l), e. rewrite shr_m_of_loc, loc_of_loc, Z.sub_diag.
    repeat split; try lia. now left.
Qed.

Lemma round_nearest_even_bounds m l :
  m <= round_nearest_even m l <= m + 1
  /\ (l = loc_Exact -> round_nearest_even m l = m).
Proof.
  destruct l as [|[]]; cbn; try destruct (Z.even m); split; try lia; try discriminate; auto.
Qed.

(** Rounding a nonnegative mantissa gives a zero, an infinity, or a finite
    number whose mantissa has at most 53 bits. *)
Lemma binary_round_aux_shape s m e l :
  0 <= m ->
  binary_round_aux prec emax s m e l = S754_zero s
  \/ (exists m' e', binary_round_aux prec emax s m e l = S754_finite s m' e'
                    /\ Zpos m' < 2 ^ prec)
  \/ binary_round_aux prec emax s m e l = S754_infinity s.
Proof.
  intros Hm. unfold binary_round_aux.
  destruct (shr_fexp_spec m e l Hm) as (mrs1 & e1 & -> & _ & Hm1 & _ & _).
  pose proof (round_nearest_even_bounds (shr_m mrs1) (loc_of_shr_record mrs1)) as [Hr _].
  set (m2 := round_nearest_even _ _) in *.
  assert (Hm2 : 0 <= m2) by lia.
  destruct (shr_fexp_spec m2 e1 loc_Exact Hm2) as (mrs2 & e2 & -> & He2 & Hm3 & Hle & _).
  destruct (shr_m mrs2) as [|q|q] eqn:Hq; [left; reflexivity| |lia].
  right. destruct (e2 <=? emax - prec); [left|right; reflexivity].
  exists q, e2. split; [reflexivity|].
  pose proof (Zdigits2_gt m2 Hm2) as Hd. rewrite fexp_eq in He2.
  assert (Hpow : 2 ^ Zdigits2 m2 <= 2 ^ (e2 - e1 + 53)) by (apply Z.pow_le_mono_r; lia).
  rewrite Z.pow_add_r in Hpow by lia.
  assert (Hp : 0 < 2 ^ (e2 - e1)) by (apply Z.pow_pos_nonneg; lia).
  unfold prec. nia.
Qed.

(** Alignment keeps a value at or below the integer [B], and strictly
    below it when bits were lost. *)
Lemma shr_fexp_bound B m e l :
  0 < B < 2 ^ 53 -> e <= 0 -> 0 <= m <= B * 2 ^ (- e) ->
  exists mrs e',
    shr_fexp prec emax m e l = (mrs, e')
    /\ e' <= 0
    /\ 0 <= shr_m mrs <= B * 2 ^ (- e')
    /\ (loc_of_shr_record mrs <> loc_Exact ->
        l <> loc_Exact \/ shr_m mrs < B * 2 ^ (- e')).
Proof.
  intros HB He [Hm Hle].
  destruct (shr_fexp_spec m e l Hm) as (mrs & e' & Heq & He' & Hm' & Hlo & Hin).
  exists mrs, e'. split; [exact Heq|].
  assert (Hpe : 0 < 2 ^ (- e)) by (apply Z.pow_pos_nonneg; lia).
  assert (Hd : Zdigits2 m <= 53 - e).
  { apply Zdigits2_le; [lia|]. split; [lia|].
    replace (53 - e) with (53 + - e) by lia. rewrite Z.pow_add_r by lia. nia. }
  rewrite fexp_eq in He'.
  assert (He0 : e' <= 0) by lia.
  assert (Hsplit : 2 ^ (- e) = 2 ^ (e' - e) * 2 ^ (- e')).
  { rewrite <- Z.pow_add_r by lia. f_equal. lia. }
  assert (Hp : 0 < 2 ^ (e' - e)) by (apply Z.pow_pos_nonneg; lia).
  assert (Hq : 0 < 2 ^ (- e')) by (apply Z.pow_pos_nonneg; lia).
  rewrite Hsplit in Hle.
  split; [exact He0|]. split; [split; [lia|nia]|].
  intros Hx. destruct (Hin Hx) as [Hy|Hy]; [now left|right; nia].
Qed.

(** Rounding to nearest never crosses an integer below 2^53: a value at
    most [B] rounds to a number at most [B]. *)
Lemma binary_round_aux_bound B m e :
  0 < B < 2 ^ 53 -> e <= 0 -> 0 <= m <= B * 2 ^ (- e) ->
  binary_round_aux prec emax false m e loc_Exact = S754_zero false
  \/ exists m' e', binary_round_aux prec emax false m e loc_Exact = S754_finite false m' e'
                   /\ e' <= 0 /\ Zpos m' <= B * 2 ^ (- e').
Proof.
  intros HB He Hm. unfold binary_round_aux.
  destruct (shr_fexp_bound B m e loc_Exact HB He Hm) as (mrs1 & e1 & -> & He1 & Hm1 & Hin).
  pose proof (round_nearest_even_bounds (shr_m mrs1) (loc_of_shr_record mrs1)) as [Hr Hex].
  set (m2 := round_nearest_even _ _) in *.
  assert (Hm2 : 0 <= m2 <= B * 2 ^ (- e1)).
  { split; [lia|].
    destruct (loc_of_shr_record mrs1) as [|c] eqn:Hl.
    - rewrite (Hex eq_refl). lia.
    - destruct Hin as [Hy|Hy]; [discriminate|now elim Hy|lia]. }
  destruct (shr_fexp_bound B m2 e1 loc_Exact HB He1 Hm2) as (mrs2 & e2 & -> & He2 & Hm3 & _).
  destruct (shr_m mrs2) as [|q|q] eqn:Hq; [left; reflexivity| |lia].
  right. exists q, e2.
  replace (e2 <=? emax - prec) with true by (symmetry; apply Z.leb_le; unfold emax, prec; lia).
  repeat split; lia.
Qed.

(** A 53-bit mantissa with an exponent in range is not rounded. *)
Lemma binary_round_aux_canonical s m e :
  Zpos (digits2_pos m) = 53 -> -1074 <= e <= 971 ->
  binary_round_aux prec emax s (Zpos m) e loc_Exact = S754_finite s m e.
Proof.
  intros Hd He. unfold binary_round_aux, shr_fexp. cbn [Zdigits2].
  rewrite Hd, fexp_eq.
  replace (Z.max (53 + e - 53) (-1074) - e) with 0 by lia.
  cbn [shr shr_record_of_loc shr_m loc_of_shr_record round_nearest_even Zdigits2].
  rewrite Hd, fexp_eq.
  replace (Z.max (53 + e - 53) (-1074) - e) with 0 by lia.
  cbn [shr shr_record_of_loc shr_m].
  replace (e <=? emax - prec) with true by (symmetry; apply Z.leb_le; unfold emax, prec; lia).
  reflexivity.
Qed.

Lemma iter_xO p k : Zpos (Pos.iter xO p k) = Zpos p * 2 ^ Zpos k.
Proof.
  apply (Pos.iter_ind _ xO p (fun k a => Zpos a = Zpos p * 2 ^ Zpos k)).
  - change (2 ^ 1) with 2. lia.
  - intros q a Ha. rewrite Pos2Z.inj_succ, Z.pow_succ_r by lia. lia.
Qed.

(** A positive integer below 2^53 is a number exactly: its mantissa is the
    integer shifted left to 53 bits. *)
Lemma num_of_Z_pos z :
  0 < z < 2 ^ 53 ->
  exists m, num_of_Z z = S754_finite false m (Zdigits2 z - 53)
            /\ Zpos m = z * 2 ^ (53 - Zdigits2 z)
            /\ 1 <= Zdigits2 z <= 53.
Proof.
  intros [Hz Hlt]. destruct z as [|p|p]; try lia.
  cbn [Zdigits2]. pose proof (digits2_pos_bounds p) as [Hlo Hhi].
  set (d := Zpos (digits2_pos p)) in *.
  assert (Hd : 1 <= d <= 53).
  { split; [lia|]. apply (Zdigits2_le (Zpos p) 53); lia. }
  unfold num_of_Z, binary_normalize, binary_round.
  rewrite Z.add_0_r, fexp_eq. fold d.
  replace (Z.max (d - 53) (-1074)) with (d - 53) by lia.
  assert (Hal : exists mz, shl_align p 0 (d - 53) = (mz, d - 53)
                           /\ Zpos mz = Zpos p * 2 ^ (53 - d)).
  { unfold shl_align. rewrite Z.sub_0_r.
    destruct (d - 53) as [|q|q] eqn:Hq; try lia.
    - exists p. split; [reflexivity|]. replace (53 - d) with 0 by lia. cbn. lia.
    - exists (Pos.iter xO p q). split; [reflexivity|].
      rewrite iter_xO. f_equal. f_equal. lia. }
  destruct Hal as (mz & -> & Hmz).
  exists mz. split; [|split; assumption].
  apply binary_round_aux_canonical; [|lia].
  apply digits2_pos_unique. rewrite Hmz.
  assert (H53 : 2 ^ 53 = 2 ^ d * 2 ^ (53 - d)).
  { rewrite <- Z.pow_add_r by lia. f_equal. lia. }
  assert (H52 : 2 ^ (53 - 1) = 2 ^ (d - 1) * 2 ^ (53 - d)).
  { rewrite <- Z.pow_add_r by lia. f_equal. lia. }
  assert (Hp : 0 < 2 ^ (53 - d)) by (apply Z.pow_pos_nonneg; lia).
  rewrite H53, H52. nia.
Qed.

(** [Math.max(1, k)] on a nonnegative integer. *)
Lemma js_max_one k :
  0 <= k < 2 ^ 53 -> js_max (num_of_Z 1) (num_of_Z k) = num_of_Z (Z.max 1 k).
Proof.
  intros Hk.
  destruct (Z.eq_dec k 0) as [->|H0]; [reflexivity|].
  destruct (Z.eq_dec k 1) as [->|H1]; [reflexivity|].
  destruct (num_of_Z_pos k) as (m & Hm & _ & Hd); [lia|].
  assert (Hd2 : 2 <= Zdigits2 k).
  { pose proof (Zdigits2_gt k). destruct (Z.eq_dec (Zdigits2 k) 1) as [E|]; [|lia].
    rewrite E in H. change (2 ^ 1) with 2 in H. lia. }
  replace (Z.max 1 k) with k by lia. rewrite Hm.
  change (num_of_Z 1) with (S754_finite false 4503599627370496 (-52)).
  unfold js_max, SFcompare.
  replace (-52 ?= Zdigits2 k - 53) with Lt by (symmetry; apply Z.compare_lt_iff; lia).
  reflexivity.
Qed.

(** *** The two scale operations *)

(** The floor of a value at most [B] is at most [B]. *)
Lemma floorZ_bound B m e :
  e <= 0 -> Zpos m <= B * 2 ^ (- e) -> 0 <= floorZ false m e <= B.
Proof.
  intros He Hm. unfold floorZ. destruct e as [|p|p]; try lia.
  change (- Z.neg p) with (Zpos p) in Hm.
  assert (Hp : 0 < 2 ^ Zpos p) by (apply Z.pow_pos_nonneg; lia).
  split; [apply Z.div_pos; lia|].
  apply Z.div_le_upper_bound; lia.
Qed.

(** The product [n * f] with [f] at most 1, rounded, floored and clamped,
    is an integer between 1 and [n]. *)
Lemma scaled_side_never_upscaled n f :
  0 < n < 2 ^ 53 -> at_most_one f ->
  exists k, scaled_side n f = num_of_Z k /\ 1 <= k <= n.
Proof.
  intros Hn Hf. unfold scaled_side.
  destruct (num_of_Z_pos n Hn) as (mn & Hmn & Hval & Hd).
  assert (Hfloor : exists k, js_floor (f64_mul (num_of_Z n) f) = num_of_Z k /\ 0 <= k <= n).
  { rewrite Hmn. destruct Hf as [->|(mf & ef & -> & Hef & Hmf)].
    - exists 0. split; [reflexivity|lia].
    - unfold f64_mul, SFmul. cbn [xorb].
      destruct (binary_round_aux_bound n (Zpos (mn * mf)) (Zdigits2 n - 53 + ef))
        as [->|(m' & e' & -> & He' & Hm')]; try lia.
      + split; [lia|]. rewrite Pos2Z.inj_mul, Hval.
        replace (- (Zdigits2 n - 53 + ef)) with ((53 - Zdigits2 n) + - ef) by lia.
        rewrite Z.pow_add_r by lia.
        assert (0 < 2 ^ (53 - Zdigits2 n)) by (apply Z.pow_pos_nonneg; lia).
        nia.
      + exists 0. split; [reflexivity|lia].
      + exists (floorZ false m' e'). split; [reflexivity|].
        apply floorZ_bound; assumption. }
  destruct Hfloor as (k & -> & Hk).
  exists (Z.max 1 k). split; [apply js_max_one; lia|lia].
Qed.

(** The quotient of two positive finite numbers is not NaN and not negative. *)
Lemma f64_div_shape mw ew mi ei :
  nonneg_shape (f64_div (S754_finite false mw ew) (S754_finite false mi ei)).
Proof.
  unfold f64_div, SFdiv. cbn [xorb].
  destruct (SFdiv_core_binary prec emax (Zpos mw) ew (Zpos mi) ei) as [[mz ez] lz] eqn:Hcore.
  assert (Hmz : 0 <= mz).
  { unfold SFdiv_core_binary in Hcore.
    set (s := ew - ei - _) in Hcore.
    set (m' := match s with 0 => Zpos mw | Zpos _ => Z.shiftl (Zpos mw) s | Zneg _ => 0 end)
      in Hcore.
    assert (Hm' : 0 <= m').
    { subst m'. destruct s; try lia. apply Z.shiftl_nonneg. lia. }
    pose proof (Z.div_pos m' (Zpos mi) Hm' eq_refl) as Hq.
    unfold Z.div in Hq.
    destruct (Z.div_eucl m' (Zpos mi)) as [q r]. injection Hcore as <- _ _. exact Hq. }
  destruct (binary_round_aux_shape false mz ez lz Hmz) as [->|[(m & e & -> & Hm)| ->]].
  - now left.
  - right; left. eauto.
  - now right; right.
Qed.

Lemma js_min_shape a b : nonneg_shape a -> nonneg_shape b -> nonneg_shape (js_min a b).
Proof.
  intros Ha Hb.
  assert (H : js_min a b = a \/ js_min a b = b).
  { unfold js_min.
    destruct Ha as [->|[(ma & ea & -> & _)| ->]], Hb as [->|[(mb & eb & -> & _)| ->]];
      cbn; auto.
    destruct (ea ?= eb); auto. destruct (Pos.compare_cont Eq ma mb); auto. }
  destruct H as [-> | ->]; assumption.
Qed.

(** [Math.min(a, 1)] is at most 1. *)
Lemma js_min_one a : nonneg_shape a -> at_most_one (js_min a (num_of_Z 1)).
Proof.
  assert (Hone : at_most_one (S754_finite false 4503599627370496 (-52))).
  { right. eexists _, _. split; [reflexivity|]. split; [lia|]. now vm_compute. }
  change (num_of_Z 1) with (S754_finite false 4503599627370496 (-52)).
  intros [->|[(m & e & -> & Hm)| ->]]; [now left| |exact Hone].
  unfold js_min, SFcompare.
  destruct (Z.compare_spec e (-52)) as [->|He|He]; [| |exact Hone].
  - destruct (PosDef.Pos.compare_cont Eq m 4503599627370496) eqn:Hc;
      cbn [is_neg_zero]; try exact Hone.
    assert (Hlt : Zpos m < 4503599627370496) by exact Hc. clear Hc.
    right. exists m, (-52). split; [reflexivity|]. split; [lia|].
    change (2 ^ (- -52)) with 4503599627370496. lia.
  - right. exists m, e. split; [reflexivity|]. split; [lia|].
    assert (H : 2 ^ prec <= 2 ^ (- e)) by (apply Z.pow_le_mono_r; unfold prec; lia).
    lia.
Qed.

(** [factor] of the source is at most 1, whatever the roundings. *)
Lemma scale_factor_at_most_one width height iw ih :
  positive_finite width -> positive_finite height ->
  0 < iw < 2 ^ 53 -> 0 < ih < 2 ^ 53 ->
  at_most_one (scale_factor width height iw ih).
Proof.
  intros (mw & ew & ->) (mh & eh & ->) Hiw Hih. unfold scale_factor.
  destruct (num_of_Z_pos iw Hiw) as (mi & -> & _).
  destruct (num_of_Z_pos ih Hih) as (mj & -> & _).
  apply js_min_one, js_min_shape; apply f64_div_shape.
Qed.


Lemma lookup_map {A B} (f : A -> B) (l : list A) (i : nat) :
  map f l !! i = option_map f (l !! i).
Proof.
  revert i. induction l as [|x l IH]; intros [|i]; cbn; auto.
Qed.

Lemma fast_command_chain (w : World) segments out width height i seg :
  segments !! i = Some seg ->
  chains (fast_command w segments out width height) !! i
  = Some {| chain_src := i;
            chain_filter := videoFilter width height (probeImage w (imagePath seg));
            chain_out := i |}.
Proof.
  intros Hs. unfold fast_command. cbn [chains].
  rewrite list_lookup_imap, Hs. cbn. rewrite lookup_map, Hs. reflexivity.
Qed.

Lemma padded_size_videoFilter width height dim :
  padded_size (videoFilter width height dim) = (width, height).
Proof.
  unfold videoFilter. destruct dim as [iw ih].
  destruct ((iw =? 0) || (ih =? 0)); [reflexivity|].
  destruct (scaled_size width height iw ih). reflexivity.
Qed.

Lemma dimension_or_positive (w : option Num) (dflt : Z) :
  0 < dflt < 2 ^ 53 -> positive_finite (dimension_or w dflt).
Proof.
  intros Hd.
  assert (Hdef : positive_finite (num_of_Z dflt)).
  { destruct (num_of_Z_pos dflt Hd) as (m & -> & _). now eexists _, _. }
  unfold dimension_or. destruct w as [[s|s| |[] m e]|]; cbn; try exact Hdef.
  now exists m, e.
Qed.

(** Whatever the resolution string, the frame sides are finite and positive. *)
Lemma parse_resolution_positive (rt : Runtime) resolution width height :
  parse_resolution rt resolution = Some (width, height) ->
  positive_finite width /\ positive_finite height.
Proof.
  destruct resolution; cbn; try discriminate. intros [= <- <-].
  split; apply dimension_or_positive; lia.
Qed.

Lemma videoFilter_scaled width height iw ih :
  iw <> 0 -> ih <> 0 ->
  videoFilter width height (iw, ih)
  = ScalePad (scaled_side iw (scale_factor width height iw ih))
             (scaled_side ih (scale_factor width height iw ih)) width height.
Proof.
  intros Hw Hh. unfold videoFilter, scaled_size.
  destruct (Z.eqb_spec iw 0); [contradiction|]. destruct (Z.eqb_spec ih 0); [contradiction|].
  reflexivity.
Qed.

(** Rounding shows in the result: a 2139 x 1000 image in a 1280 x 720
    frame is scaled to 1279 x 598, because [1280 / 2139] rounds down and
    [2139 * (1280 / 2139)] falls below 1280. *)
Lemma scaled_size_rounding_example :
  scaled_size (num_of_Z 1280) (num_of_Z 720) 2139 1000 = (num_of_Z 1279, num_of_Z 598).
Proof. vm_compute. reflexivity. Qed.

(** C6: for a target frame [width] x [height] read from the request's
    resolution and an image that probes to [nativeW] x [nativeH] (positive
    integers, below 2^53), the single-run filter of the segment is
    [scale=scaledW:scaledH] followed by a centred pad to [width] x [height],
    where [scaledW] and [scaledH] are
    [Math.max(1, Math.floor(native * f))] for
    [f = Math.min(width / nativeW, height / nativeH, 1)], computed as the
    source does in binary64 arithmetic: both are integers, at least 1 and
    at most the native side (the image is never upscaled), and the padded
    frame is exactly [width] x [height]. *)
Theorem fast_path_scale_and_pad (w : World) (resolution : Value) (width height : Num)
    (nativeW nativeH : Z) :
  parse_resolution (rt w) resolution = Some (width, height) ->
  0 < nativeW < 2 ^ 53 -> 0 < nativeH < 2 ^ 53 ->
  let f := js_min (js_min (f64_div width (num_of_Z nativeW))
                          (f64_div height (num_of_Z nativeH))) (num_of_Z 1) in
  exists scaledW scaledH : Z,
    videoFilter width height (nativeW, nativeH)
    = ScalePad (num_of_Z scaledW) (num_of_Z scaledH) width height
    /\ num_of_Z scaledW = js_max (num_of_Z 1) (js_floor (f64_mul (num_of_Z nativeW) f))
    /\ num_of_Z scaledH = js_max (num_of_Z 1) (js_floor (f64_mul (num_of_Z nativeH) f))
    /\ (1 <= scaledW <= nativeW /\ 1 <= scaledH <= nativeH)
    /\ padded_size (ScalePad (num_of_Z scaledW) (num_of_Z scaledH) width height)
       = (width, height)
    /\ (forall segments out i seg,
          segments !! i = Some seg ->
          probeImage w (imagePath seg) = (nativeW, nativeH) ->
          chains (fast_command w segments out width height) !! i
          = Some {| chain_src := i;
                    chain_filter :=
                      ScalePad (num_of_Z scaledW) (num_of_Z scaledH) width height;
                    chain_out := i |}).
Proof.
  intros Hparse Hw Hh f.
  destruct (parse_resolution_positive _ _ _ _ Hparse) as [Hwd Hht].
  pose proof (scale_factor_at_most_one width height nativeW nativeH Hwd Hht Hw Hh) as Hf.
  destruct (scaled_side_never_upscaled nativeW _ Hw Hf) as (sw & Hsw & Hbw).
  destruct (scaled_side_never_upscaled nativeH _ Hh Hf) as (sh & Hsh & Hbh).
  assert (Hvf : videoFilter width height (nativeW, nativeH)
                = ScalePad (num_of_Z sw) (num_of_Z sh) width height).
  { rewrite videoFilter_scaled by lia. now rewrite Hsw, Hsh. }
  exists sw, sh.
  split; [exact Hvf|]. split; [symmetry; exact Hsw|]. split; [symmetry; exact Hsh|].
  split; [split; assumption|]. split; [reflexivity|].
  intros segments out i seg Hs Hp.
  rewrite (fast_command_chain w segments out _ _ i seg Hs), Hp, Hvf. reflexivity.
Qed.

(** A 4000 x 3000 image in a 1280 x 720 frame is scaled to 960 x 720. *)
Lemma fast_path_scale_and_pad_witness :
  parse_resolution (rt calm_world) (VStr "1280x720") = Some (num_of_Z 1280, num_of_Z 720)
  /\ videoFilter (num_of_Z 1280) (num_of_Z 720) (4000, 3000)
     = ScalePad (num_of_Z 960) (num_of_Z 720) (num_of_Z 1280) (num_of_Z 720).
Proof.
  assert (Hp : parse_resolution (rt calm_world) (VStr "1280x720")
               = Some (num_of_Z 1280, num_of_Z 720)) by (vm_compute; reflexivity).
  split; [exact Hp|].
  destruct (fast_path_scale_and_pad calm_world (VStr "1280x720") _ _ 4000 3000 Hp
              ltac:(lia) ltac:(lia))
    as (sw & sh & Hvf & Hsw & Hsh & _).
  rewrite Hvf, Hsw, Hsh. vm_compute. reflexivity.
Defined.

(** ** The normaliser *)

Lemma absent_key_undefined props a :
  has_key (VObj props) a = false -> get (VObj props) a = VUndef.
Proof.
  cbn. induction props as [|[k v] props IH]; cbn; [reflexivity|].
  destruct (a =? k)%string; cbn; [discriminate|exact IH].
Qed.

Ltac pick_alias before :=
  left; eexists _, before, _; split; [reflexivity|];
  split; [repeat constructor; assumption|]; split; [assumption|reflexivity].

Lemma imageUrl_first_truthy s :
  first_kept truthy s imageUrl_aliases
    (js_or (js_or (js_or (get s "imageUrl") (get s "image_Url")) (get s "image_url"))
           (get s "image")).
Proof.
  unfold js_or, imageUrl_aliases.
  destruct (truthy (get s "imageUrl")) eqn:E1.
  { rewrite E1, E1. pick_alias (@nil string). }
  destruct (truthy (get s "image_Url")) eqn:E2.
  { rewrite E2. pick_alias ["imageUrl"%string]. }
  destruct (truthy (get s "image_url")) eqn:E3.
  { pick_alias ["imageUrl"%string; "image_Url"%string]. }
  destruct (truthy (get s "image")) eqn:E4.
  { pick_alias ["imageUrl"%string; "image_Url"%string; "image_url"%string]. }
  right. split; [repeat constructor; assumption|reflexivity].
Qed.

Lemma three_first_non_null s a b c :
  first_kept not_nullish s [a; b; c]
    (js_coalesce (js_coalesce (get s a) (get s b)) (get s c)).
Proof.
  unfold js_coalesce, not_nullish.
  destruct (nullish (get s a)) eqn:E1.
  - destruct (nullish (get s b)) eqn:E2.
    + destruct (nullish (get s c)) eqn:E3.
      * right. split; [|reflexivity].
        repeat constructor; cbn; rewrite ?E1, ?E2, ?E3; reflexivity.
      * left. exists c, [a; b], []. split; [reflexivity|].
        split; [repeat constructor; cbn; rewrite ?E1, ?E2; reflexivity|].
        split; [rewrite E3|]; reflexivity.
    + left. exists b, [a], [c]. split; [reflexivity|].
      split; [repeat constructor; cbn; rewrite ?E1; reflexivity|].
      split; [rewrite E2|]; reflexivity.
  - rewrite E1. left. exists a, [], [b; c]. split; [reflexivity|].
    split; [constructor|]. split; [rewrite E1|]; reflexivity.
Qed.

(** C8, as the code has it: for a segment that is not falsy, [imageUrl] is
    the value of the first of [imageUrl], [image_Url], [image_url],
    [image] whose value is truthy, and [duration] and [id] the value of
    the first of [duration], [length], [time] and of [id], [ID], [index]
    whose value is neither [null] nor [undefined]; an alias that is not a
    key of the object reads as [undefined] and is skipped; when every
    alias is skipped the field is the value of the last one. *)
Theorem normalize_alias_priority (s : Value) :
  truthy s = true ->
  first_kept truthy s imageUrl_aliases (seg_imageUrl (normalize s))
  /\ first_kept not_nullish s duration_aliases (seg_duration (normalize s))
  /\ first_kept not_nullish s id_aliases (seg_id (normalize s))
  /\ (forall props a,
        has_key (VObj props) a = false ->
        truthy (get (VObj props) a) = false /\ not_nullish (get (VObj props) a) = false).
Proof.
  intros Hs. unfold normalize. cbn [seg_imageUrl seg_duration seg_id].
  unfold js_and. rewrite Hs.
  split; [apply imageUrl_first_truthy|].
  split; [apply three_first_non_null|].
  split; [apply three_first_non_null|].
  intros props a Ha. rewrite (absent_key_undefined _ _ Ha). split; reflexivity.
Qed.

(** The segment with an empty [imageUrl]. *)
Lemma normalize_alias_priority_witness :
  truthy blank_imageUrl_segment = true
  /\ first_kept truthy blank_imageUrl_segment imageUrl_aliases
       (seg_imageUrl (normalize blank_imageUrl_segment)).
Proof.
  split; [reflexivity|].
  apply (normalize_alias_priority blank_imageUrl_segment). reflexivity.
Defined.

(** C8 as stated fails: [imageUrl] is a key of the segment, yet the value
    of the later alias [image_Url] is taken. *)
Lemma normalize_first_present_counterexample :
  has_key blank_imageUrl_segment "imageUrl" = true
  /\ first_present blank_imageUrl_segment imageUrl_aliases = VStr ""
  /\ seg_imageUrl (normalize blank_imageUrl_segment)
     = VStr "https://example.com/image1.jpg".
Proof. repeat split. Qed.

(** ** The handler: shape of a run *)

Lemma bind_Ok {A B} t (a : A) (k : A -> M B) :
  bind (t, Ok a) k = (t ++ fst (k a), snd (k a)).
Proof. cbn. destruct (k a). reflexivity. Qed.

Lemma bind_Throw {A B} t e (k : A -> M B) : bind (t, Throw e) k = (t, Throw e).
Proof. reflexivity. Qed.

Lemma bind_Hang {A B} t (k : A -> M B) : bind (t, Hang) k = (t, Hang).
Proof. reflexivity. Qed.

Lemma bind_assoc {A B C} (m : M A) (f : A -> M B) (g : B -> M C) :
  bind (bind m f) g = bind m (fun a => bind (f a) g).
Proof.
  destruct m as [t [a| |]]; cbn; try reflexivity.
  destruct (f a) as [t1 [b| |]]; cbn; try reflexivity.
  destruct (g b) as [t2 r]. now rewrite app_assoc.
Qed.

Lemma bind_ret_r {A} (m : M A) : bind m (fun a => ret a) = m.
Proof. destruct m as [t [a| |]]; cbn; try reflexivity. now rewrite app_nil_r. Qed.

Lemma job_split w videoJobId style resolution segments :
  job w videoJobId style resolution segments
  = bind (prepare w style segments) (publish w videoJobId resolution).
Proof.
  unfold job, prepare.
  destruct (download_all w segments) as [t1 [downloaded| |]]; try reflexivity.
  rewrite !bind_Ok.
  destruct (subtitle_results w style 0 downloaded) as [t2 [rs| |]]; try reflexivity.
  rewrite !bind_Ok. cbn [fst snd ret]. rewrite !bind_Ok, app_nil_r.
  unfold publish. cbn [fst snd]. now rewrite app_assoc.
Qed.

Lemma handler_reaches_validation w req videoJobId t segs :
  reaches_validation w req videoJobId t segs ->
  handler w req
  = {| trace := EMkdir (sessionDir w)
                :: trace (finish w videoJobId
                            (bind (t, Ok segs)
                                  (publish w videoJobId (request_resolution req))));
       outcome := outcome (finish w videoJobId
                             (bind (t, Ok segs)
                                   (publish w videoJobId (request_resolution req)))) |}.
Proof.
  intros (style & raws & Hj & Hg & Hr & Hm & Hp).
  unfold handler. rewrite Hj, Hg, Hr, Hm, job_split, Hp. reflexivity.
Qed.

Lemma promise_all_trace {A} n (log : list (nat * Limiter.Settlement A Error)) :
  fst (promise_all n log) = [].
Proof.
  unfold promise_all. destruct (promise_all_log log _); [reflexivity|].
  destruct (all_some _); reflexivity.
Qed.

Lemma download_all_trace w segments : fst (download_all w segments) = [].
Proof. apply promise_all_trace. Qed.

Lemma subtitle_results_trace w style segs : forall i,
  Forall (fun ev => is_render_work ev = false) (fst (subtitle_results w style i segs)).
Proof.
  induction segs as [|seg segs IH]; intros i; cbn [subtitle_results]; [constructor|].
  set (first := if wants_subtitles seg then _ else _).
  assert (Hf : Forall (fun ev => is_render_work ev = false) (fst first)).
  { subst first. destruct (wants_subtitles seg); [|constructor].
    destruct (subtitleHelpers w) as [h|]; [|constructor].
    destruct (createSubtitleFile h seg (sessionDir w) i (duration seg) style);
      repeat constructor. }
  destruct first as [t1 [r| |]]; cbn in *; try exact Hf.
  specialize (IH (S i)).
  destruct (subtitle_results w style (S i) segs) as [t2 [rs| |]]; cbn in *;
    rewrite ?app_nil_r; apply Forall_app; auto.
Qed.

Lemma prepare_inv w style segments t segs :
  prepare w style segments = (t, Ok segs) ->
  exists downloaded results,
    download_all w segments = ([], Ok downloaded)
    /\ subtitle_results w style 0 downloaded = (t, Ok results)
    /\ segs = update_durations downloaded results.
Proof.
  unfold prepare. pose proof (download_all_trace w segments) as Ht. intros H.
  destruct (download_all w segments) as [t1 [downloaded| |]]; cbn in Ht; subst t1;
    try discriminate H.
  rewrite bind_Ok in H. cbn [app] in H.
  destruct (subtitle_results w style 0 downloaded) as [t2 [rs| |]] eqn:Hs;
    try discriminate H.
  rewrite bind_Ok in H. cbn in H. rewrite app_nil_r in H. injection H as <- <-.
  exists downloaded, rs. auto.
Qed.

Lemma prepare_trace w style segments :
  Forall (fun ev => is_render_work ev = false) (fst (prepare w style segments)).
Proof.
  unfold prepare. pose proof (download_all_trace w segments) as Ht.
  destruct (download_all w segments) as [t1 [downloaded| |]]; cbn in Ht; subst t1;
    try constructor.
  rewrite bind_Ok. cbn [app fst].
  pose proof (subtitle_results_trace w style downloaded 0%nat) as Hs.
  destruct (subtitle_results w style 0 downloaded) as [t2 [rs| |]]; cbn in *;
    rewrite ?app_nil_r; exact Hs.
Qed.

Lemma findIndex_Some {A} (p : A -> bool) l : forall i,
  findIndex p l = Some i ->
  (exists x, l !! i = Some x /\ p x = true)
  /\ (forall j y, (j < i)%nat -> l !! j = Some y -> p y = false).
Proof.
  induction l as [|x l IH]; intros i Hf; cbn in Hf; [discriminate|].
  destruct (p x) eqn:Hp.
  - injection Hf as <-. split; [exists x; auto|]. intros j y Hj. lia.
  - destruct (findIndex p l) as [k|] eqn:Hk; [|discriminate].
    injection Hf as <-. destruct (IH k eq_refl) as [[y [Hy Hpy]] Hlt].
    split; [exists y; auto|]. intros [|j] z Hj Hz; cbn in Hz.
    + now injection Hz as <-.
    + apply (Hlt j); [lia|exact Hz].
Qed.

Lemma findIndex_None {A} (p : A -> bool) l :
  findIndex p l = None <-> Forall (fun x => p x = false) l.
Proof.
  induction l as [|x l IH]; cbn.
  - split; [constructor|reflexivity].
  - destruct (p x) eqn:Hp.
    + split; [discriminate|]. intros H. inversion H; congruence.
    + destruct (findIndex p l).
      * split; [discriminate|]. intros H. inversion H; subst.
        apply IH in H3. discriminate.
      * split; [|reflexivity]. intros _. constructor; [exact Hp|]. now apply IH.
Qed.

Lemma findIndex_Exists {A} (p : A -> bool) l :
  Exists (fun x => p x = true) l -> exists i, findIndex p l = Some i.
Proof.
  intros He. destruct (findIndex p l) as [i|] eqn:Hf; [eauto|].
  apply findIndex_None in Hf. apply Exists_exists in He. destruct He as [x [Hx Hp]].
  rewrite Forall_forall in Hf. apply Hf in Hx. congruence.
Qed.

(** A request that reaches validation with a missing duration at index
    [i] first: the job fails there, before any composition. *)
Lemma missing_duration_aborts w req videoJobId t segs i :
  reaches_validation w req videoJobId t segs ->
  findIndex (missing_duration (rt w)) segs = Some i ->
  publish w videoJobId (request_resolution req) segs = ([], Throw (PayloadValidation i))
  /\ outcome (handler w req)
     = Responded 500
         (FailureBody "Video generation failed"
            (if production w then InternalServerError
             else Message (PayloadValidation i)))
  /\ trace (handler w req)
     = EMkdir (sessionDir w) :: t ++ (if production w then [ERm (sessionDir w)] else [])
  /\ Forall (fun ev => is_render_work ev = false) (trace (handler w req)).
Proof.
  intros Hreach Hi.
  assert (Hpub : publish w videoJobId (request_resolution req) segs
                 = ([], Throw (PayloadValidation i))).
  { unfold publish, validate_durations. rewrite Hi. reflexivity. }
  assert (Ht : Forall (fun ev => is_render_work ev = false) t).
  { destruct Hreach as (style & raws & _ & _ & _ & _ & Hp).
    pose proof (prepare_trace w style (map normalize raws)) as Hf.
    now rewrite Hp in Hf. }
  split; [exact Hpub|].
  rewrite (handler_reaches_validation _ _ _ _ _ Hreach), bind_Ok, Hpub.
  cbn [fst snd finish trace outcome]. rewrite app_nil_r.
  split; [reflexivity|]. split; [reflexivity|].
  constructor; [reflexivity|]. apply Forall_app. split; [exact Ht|].
  destruct (production w); repeat constructor.
Qed.

(** C2, as the code has it: when the request passes the entry checks,
    every download succeeds and the subtitle stage ends, and some
    segment's duration, as the subtitle stage left it, is [null],
    [undefined] or does not convert ([Number]) to a finite number, then
    the job fails with the validation error of the first such index (sent
    as [details] outside production), the durations checked are the
    updated ones, and the trace holds no call of a composition helper, no
    ffmpeg run and no upload.  The test converts before it looks: a
    duration that is not a number and converts to a finite one is not
    missing. *)
Theorem validation_names_first_missing_duration
  (w : World) (req : Value) (videoJobId : string) (t : list Effect)
  (segs : list Downloaded) :
  reaches_validation w req videoJobId t segs ->
  Exists (fun seg => missing_duration (rt w) seg = true) segs ->
  exists i,
    findIndex (missing_duration (rt w)) segs = Some i
    /\ (exists seg, segs !! i = Some seg /\ missing_duration (rt w) seg = true)
    /\ (forall j seg, (j < i)%nat -> segs !! j = Some seg ->
                      missing_duration (rt w) seg = false)
    /\ (exists style rawSegments downloaded results,
          download_all w (map normalize rawSegments) = ([], Ok downloaded)
          /\ subtitle_results w style 0 downloaded = (t, Ok results)
          /\ segs = update_durations downloaded results)
    /\ publish w videoJobId (request_resolution req) segs = ([], Throw (PayloadValidation i))
    /\ own_message (PayloadValidation i) = Some (validation_message i)
    /\ outcome (handler w req)
       = Responded 500
           (FailureBody "Video generation failed"
              (if production w then InternalServerError
               else Message (PayloadValidation i)))
    /\ trace (handler w req)
       = EMkdir (sessionDir w) :: t ++ (if production w then [ERm (sessionDir w)] else [])
    /\ Forall (fun ev => is_render_work ev = false) (trace (handler w req)).
Proof.
  intros Hreach Hex.
  destruct (findIndex_Exists _ _ Hex) as [i Hi]. exists i.
  destruct (findIndex_Some _ _ _ Hi) as [Hat Hbefore].
  destruct (missing_duration_aborts _ _ _ _ _ _ Hreach Hi) as (Hpub & Hout & Htr & Hq).
  split; [exact Hi|]. split; [exact Hat|]. split; [exact Hbefore|].
  split.
  { destruct Hreach as (style & raws & _ & _ & _ & _ & Hp).
    apply prepare_inv in Hp. destruct Hp as (d & rs & H1 & H2 & H3).
    exists style, raws, d, rs. auto. }
  split; [exact Hpub|]. split; [reflexivity|]. split; [exact Hout|].
  split; [exact Htr|exact Hq].
Qed.

(** The request whose second segment has no duration fails at index 1. *)
Lemma validation_names_first_missing_duration_witness :
  reaches_validation calm_world no_duration_request "job-123" [] no_duration_downloaded
  /\ Exists (fun seg => missing_duration (rt calm_world) seg = true) no_duration_downloaded
  /\ outcome (handler calm_world no_duration_request)
     = Responded 500
         (FailureBody "Video generation failed" (Message (PayloadValidation 1))).
Proof.
  assert (Hreach : reaches_validation calm_world no_duration_request "job-123" []
                     no_duration_downloaded).
  { exists VNull, [example_segment "https://example.com/image1.jpg" 3;
                   VObj [("imageUrl"%string, VStr "https://example.com/image2.jpg")]].
    repeat split. }
  assert (Hex : Exists (fun seg => missing_duration (rt calm_world) seg = true)
                  no_duration_downloaded).
  { apply Exists_cons_tl, Exists_cons_hd. reflexivity. }
  split; [exact Hreach|]. split; [exact Hex|].
  destruct (validation_names_first_missing_duration calm_world no_duration_request
              "job-123" [] no_duration_downloaded Hreach Hex)
    as (i & Hi & _ & _ & _ & _ & _ & Hout & _).
  vm_compute in Hi. injection Hi as <-. exact Hout.
Defined.

(** C2 as stated fails: [true] is not a finite number, yet [Number(true)]
    is 1; a segment with that duration passes the validation, so that no
    validation error is sent, and the single run is called with it and
    started with [-t true]. *)
Lemma validation_passes_non_number_counterexample :
  reaches_validation calm_world boolean_duration_request "job-123" []
    boolean_duration_downloaded
  /\ option_map duration (boolean_duration_downloaded !! 1%nat) = Some (VBool true)
  /\ finite_number (VBool true) = false
  /\ Forall (fun seg => missing_duration (rt calm_world) seg = false)
       boolean_duration_downloaded
  /\ In (ECall (CreateVideoFromSegments boolean_duration_downloaded))
        (trace (handler calm_world boolean_duration_request))
  /\ (exists cmd,
        In (ERunFast cmd) (trace (handler calm_world boolean_duration_request))
        /\ option_map input_t (inputs cmd !! 1%nat) = Some (Some (VBool true)))
  /\ (forall i,
        outcome (handler calm_world boolean_duration_request)
        <> Responded 500
             (FailureBody "Video generation failed" (Message (PayloadValidation i)))).
Proof.
  split.
  { exists VNull, [example_segment "https://example.com/image1.jpg" 3;
                   VObj [("imageUrl"%string, VStr "https://example.com/image2.jpg");
                         ("duration"%string, VBool true)]].
    repeat split. }
  split; [reflexivity|]. split; [reflexivity|].
  split; [repeat constructor|].
  split; [right; left; reflexivity|].
  split; [|intros i; discriminate].
  eexists. split; [right; right; left; reflexivity|]. reflexivity.
Qed.

(** ** Entry checks *)


Lemma bad_segments_rejected w req videoJobId :
  valid_jobId (get (request_body req) "jobId") = Some videoJobId ->
  truthy (get (request_body req) "subtitlePreset") = false ->
  raw_segments (request_body req) = None ->
  handler w req
  = {| trace := []; outcome := Responded 400 (ErrorBody "segments array required") |}.
Proof.
  unfold handler, request_body, globalSubtitleStyle. intros -> -> Hr.
  destruct (truthy (get _ "subtitleStyle")); now rewrite Hr.
Qed.

(** The session directory is made only after both checks have passed. *)
Lemma mkdir_after_checks w req dir :
  In (EMkdir dir) (trace (handler w req)) ->
  exists videoJobId rawSegments,
    valid_jobId (get (request_body req) "jobId") = Some videoJobId
    /\ raw_segments (request_body req) = Some rawSegments.
Proof.
  unfold handler, request_body.
  destruct (valid_jobId _) as [jid|]; [|intros []].
  destruct (globalSubtitleStyle _ _ _); [intros []|].
  destruct (raw_segments _) as [raws|]; [|intros []].
  eauto.
Qed.

(** A truthy preset that is not a string leaves the handler through an
    exception, whatever the subtitle helpers are. *)
Lemma preset_not_a_string_unhandled w req videoJobId :
  valid_jobId (get (request_body req) "jobId") = Some videoJobId ->
  truthy (get (request_body req) "subtitlePreset") = true ->
  (forall p, get (request_body req) "subtitlePreset" <> VStr p) ->
  exists e, handler w req = {| trace := []; outcome := Unhandled e |}.
Proof.
  unfold handler, request_body, globalSubtitleStyle. intros -> -> Hp.
  destruct (subtitleHelpers w) as [h|]; [|eauto].
  destruct (getSubtitleStylePresets h); [eauto|].
  destruct (get _ "subtitlePreset") eqn:E; eauto.
  now destruct (Hp s).
Qed.

(** C9, at a request the code does not answer with 400: with a job id, a
    subtitle preset and an empty segment list, the handler calls
    [getSubtitleStylePresets], which the module does not bind, before it
    looks at the segments; the exception leaves the handler, outside its
    [try].  With a preset that is not a string the handler is left through
    an exception whatever the subtitle helpers are.  No directory is
    made. *)
Theorem empty_segments_with_preset_unhandled :
  (valid_jobId (get (request_body preset_request) "jobId") = Some "job-123"%string
   /\ get (request_body preset_request) "segments" = VArr []
   /\ handler calm_world preset_request
      = {| trace := [];
           outcome := Unhandled (ReferenceError "getSubtitleStylePresets") |})
  /\ (get (request_body boolean_preset_request) "segments" = VArr []
      /\ forall w, exists e,
           handler w boolean_preset_request = {| trace := []; outcome := Unhandled e |}).
Proof.
  split; [repeat split|]. split; [reflexivity|].
  intros w. apply (preset_not_a_string_unhandled w boolean_preset_request "job-123");
    [reflexivity|reflexivity|discriminate].
Qed.



(** ** What the trace of a run tells *)

Lemma missing_not_numeric r seg :
  missing_duration r seg = negb (numeric_duration r (duration seg)).
Proof.
  unfold missing_duration, numeric_duration.
  destruct (nullish (duration seg)), (num_isFinite _); reflexivity.
Qed.

Lemma finish_trace_in w videoJobId (m : M Value) ev :
  In ev (trace (finish w videoJobId m)) -> In ev (fst m) \/ ev = ERm (sessionDir w).
Proof.
  destruct m as [t [url|e|]]; cbn.
  - rewrite in_app_iff. cbn. intuition auto.
  - rewrite in_app_iff. destruct (production w); cbn; intuition auto.
  - tauto.
Qed.

Lemma Forall_not_In {A} (p : A -> bool) l x :
  Forall (fun y => p y = false) l -> In x l -> p x = true -> False.
Proof.
  rewrite Forall_forall. intros Hf Hx Hp.
  apply (proj2 (list_elem_of_In _ _)) in Hx. apply Hf in Hx. congruence.
Qed.

(** Render work in the trace means the request got to [publish]. *)
Lemma render_work_inversion w req ev :
  In ev (trace (handler w req)) -> is_render_work ev = true ->
  exists videoJobId t segs,
    reaches_validation w req videoJobId t segs
    /\ In ev (fst (publish w videoJobId (request_resolution req) segs)).
Proof.
  unfold handler.
  destruct (valid_jobId _) as [jid|] eqn:Hj; [|intros []].
  destruct (globalSubtitleStyle _ _ _) as [e|style] eqn:Hg; [intros []|].
  destruct (raw_segments _) as [raws|] eqn:Hr; [|intros []].
  destruct (mkdir_session w) as [e|] eqn:Hm; [intros []|].
  cbn [trace]. intros [<-|Hin] Hw; [discriminate|].
  apply finish_trace_in in Hin. destruct Hin as [Hin| ->]; [|discriminate].
  rewrite job_split in Hin.
  pose proof (prepare_trace w style (map normalize raws)) as Hpt.
  destruct (prepare w style (map normalize raws)) as [t [segs|e|]] eqn:Hp; cbn in Hpt.
  - rewrite bind_Ok in Hin. cbn [fst] in Hin. apply in_app_iff in Hin.
    destruct Hin as [Hin|Hin]; [destruct (Forall_not_In _ _ _ Hpt Hin Hw)|].
    exists jid, t, segs. split; [|exact Hin].
    exists style, raws. auto.
  - destruct (Forall_not_In _ _ _ Hpt Hin Hw).
  - destruct (Forall_not_In _ _ _ Hpt Hin Hw).
Qed.

Lemma publish_trace w videoJobId resolution segs :
  fst (publish w videoJobId resolution segs)
  = match findIndex (missing_duration (rt w)) segs with
    | Some _ => []
    | None =>
        fst (compose w (sessionDir w) resolution segs)
        ++ match snd (compose w (sessionDir w) resolution segs) with
           | Ok finalPath => [ECall (UploadVideoToSupabase finalPath videoJobId)]
           | _ => []
           end
    end.
Proof.
  unfold publish, validate_durations.
  destruct (findIndex _ segs); [reflexivity|].
  change (bind (ret tt) ?k) with (bind (([], Ok tt) : M unit) k). rewrite bind_Ok.
  cbn [app fst].
  destruct (compose w (sessionDir w) resolution segs) as [t [p|e|]]; cbn [fst snd].
  - rewrite bind_Ok. cbn [fst]. f_equal.
    destruct (upload w); reflexivity.
  - now rewrite app_nil_r.
  - now rewrite app_nil_r.
Qed.

Lemma createSegmentVideo_events w k s out resolution ev :
  In ev (fst (createSegmentVideo w k s out resolution)) ->
  ev = ECall (CreateSegmentVideo k s)
  \/ (exists cmd, ev = ERunSegment k cmd
                  /\ segment_input cmd = imagePath s /\ segment_out cmd = out)
  \/ ev = EKill k.
Proof.
  unfold createSegmentVideo, timed_out, segment_command.
  destruct (parse_resolution _ _) as [[wd ht]|]; cbn.
  - destruct (segment_run w k) as [e|ms|ms e|]; cbn;
      try destruct (ms <? SEGMENT_TIMEOUT_MS); cbn;
      intuition (subst; eauto 6).
  - intuition (subst; eauto).
Qed.

Lemma encode_segments_calls w dir resolution segs : forall k i seg,
  In (ECall (CreateSegmentVideo i seg)) (fst (encode_segments w dir resolution k segs)) ->
  (k <= i)%nat /\ segs !! (i - k)%nat = Some seg.
Proof.
  induction segs as [|s segs IH]; intros k i seg; cbn [encode_segments]; [intros []|].
  set (out := segOut dir k).
  assert (Hone : In (ECall (CreateSegmentVideo i seg))
                   (fst (createSegmentVideo w k s out resolution)) -> i = k /\ seg = s).
  { intros Hin. apply createSegmentVideo_events in Hin.
    destruct Hin as [Hin|[[cmd [Hin _]]|Hin]]; try discriminate.
    injection Hin as -> ->. auto. }
  destruct (createSegmentVideo w k s out resolution) as [t1 [p|e|]] eqn:Hc; cbn [fst] in *.
  - rewrite bind_Ok. cbn [fst].
    specialize (IH (S k) i seg).
    destruct (encode_segments w dir resolution (S k) segs) as [t2 [ps|e|]];
      cbn [fst snd bind ret] in *; rewrite ?app_nil_r.
    all: rewrite in_app_iff; intros [Hin|Hin];
      [ destruct (Hone Hin) as [-> ->]; split; [lia|];
        rewrite Nat.sub_diag; reflexivity
      | destruct (IH Hin) as [Hle Hl]; split; [lia|];
        replace (i - k)%nat with (S (i - S k)) by lia; exact Hl ].
  - intros Hin. destruct (Hone Hin) as [-> ->]. split; [lia|].
    rewrite Nat.sub_diag. reflexivity.
  - intros Hin. destruct (Hone Hin) as [-> ->]. split; [lia|].
    rewrite Nat.sub_diag. reflexivity.
Qed.

Lemma createVideoFromSegments_events w segs out resolution ev :
  In ev (fst (createVideoFromSegments w segs out resolution)) ->
  ev = ECall (CreateVideoFromSegments segs) \/ exists cmd, ev = ERunFast cmd.
Proof.
  unfold createVideoFromSegments. destruct segs as [|s segs]; cbn; [intuition auto|].
  destruct (parse_resolution _ _) as [[wd ht]|]; cbn; [|intuition auto].
  destruct (fast_run w); cbn; intuition eauto.
Qed.

Lemma concatVideos_events w paths out ev :
  In ev (fst (concatVideos w paths out)) -> is_concat ev = true.
Proof.
  unfold concatVideos. destruct (write_list w); cbn; [intuition (subst; auto)|].
  destruct (concat_run w); cbn; intuition (subst; auto).
Qed.

Lemma try_catch_trace {A} (m : M A) h ev :
  In ev (fst (try_catch m h)) ->
  In ev (fst m) \/ exists e, snd m = Throw e /\ In ev (fst (h e)).
Proof.
  destruct m as [t [a|e|]]; cbn; auto.
  destruct (h e) as [t' r] eqn:Hh. cbn. rewrite in_app_iff.
  intros [H|H]; [auto|]. right. exists e. rewrite Hh. auto.
Qed.

Lemma bind_trace {A B} (m : M A) (k : A -> M B) ev :
  In ev (fst (bind m k)) ->
  In ev (fst m) \/ exists a, snd m = Ok a /\ In ev (fst (k a)).
Proof.
  destruct m as [t [a|e|]]; cbn; auto.
  destruct (k a) as [t' r] eqn:Hk. cbn. rewrite in_app_iff.
  intros [H|H]; [auto|]. right. exists a. rewrite Hk. auto.
Qed.

Lemma compose_events w dir resolution segs ev :
  In ev (fst (compose w dir resolution segs)) ->
  ev = ECall (CreateVideoFromSegments segs)
  \/ (exists cmd, ev = ERunFast cmd)
  \/ In ev (fst (encode_segments w dir resolution 0 segs))
  \/ is_concat ev = true.
Proof.
  unfold compose. intros Hin. apply try_catch_trace in Hin.
  destruct Hin as [Hin|[e [_ Hin]]].
  - apply createVideoFromSegments_events in Hin. tauto.
  - apply bind_trace in Hin. destruct Hin as [Hin|[ps [_ Hin]]]; [tauto|].
    apply concatVideos_events in Hin. tauto.
Qed.

Lemma publish_events w videoJobId resolution segs ev :
  In ev (fst (publish w videoJobId resolution segs)) ->
  findIndex (missing_duration (rt w)) segs = None
  /\ (In ev (fst (compose w (sessionDir w) resolution segs)) \/ is_upload ev = true).
Proof.
  rewrite publish_trace. destruct (findIndex _ segs); [intros []|].
  rewrite in_app_iff. intros [H|H]; [auto|]. split; [reflexivity|]. right.
  destruct (snd (compose _ _ _ _)); cbn in H; intuition (subst; auto).
Qed.

Lemma validated_numeric r segs :
  findIndex (missing_duration r) segs = None ->
  Forall (fun seg => numeric_duration r (duration seg) = true) segs.
Proof.
  intros Hf. apply findIndex_None in Hf. eapply Forall_impl; [exact Hf|].
  intros seg. cbn. rewrite missing_not_numeric. now destruct (numeric_duration _ _).
Qed.

(** C3, as the code has it: whenever a run does any composition or upload
    work, the request got past validation and every segment's duration, as
    the subtitle stage left it, is neither [null] nor [undefined] and
    converts to a finite number; these are the segments the single run is
    called with, and each per-segment render is called with one of them at
    its index.  A request that reaches validation with a segment whose
    duration is not of that kind fails with the validation error and does
    no render work.  (The sign of the number is not checked.) *)
Theorem composition_durations_numeric (w : World) (req : Value) :
  (forall ev,
      In ev (trace (handler w req)) -> is_render_work ev = true ->
      exists videoJobId t segs,
        reaches_validation w req videoJobId t segs
        /\ Forall (fun seg => numeric_duration (rt w) (duration seg) = true) segs
        /\ (forall segs', ev = ECall (CreateVideoFromSegments segs') -> segs' = segs)
        /\ (forall i seg, ev = ECall (CreateSegmentVideo i seg) -> segs !! i = Some seg))
  /\ (forall segs,
        In (ECall (CreateVideoFromSegments segs)) (trace (handler w req)) ->
        Forall (fun seg => numeric_duration (rt w) (duration seg) = true) segs)
  /\ (forall i seg,
        In (ECall (CreateSegmentVideo i seg)) (trace (handler w req)) ->
        numeric_duration (rt w) (duration seg) = true)
  /\ (forall videoJobId t segs,
        reaches_validation w req videoJobId t segs ->
        Exists (fun seg => numeric_duration (rt w) (duration seg) = false) segs ->
        Forall (fun ev => is_render_work ev = false) (trace (handler w req))
        /\ exists i,
             outcome (handler w req)
             = Responded 500
                 (FailureBody "Video generation failed"
                    (if production w then InternalServerError
                     else Message (PayloadValidation i)))).
Proof.
  assert (Hmain : forall ev,
      In ev (trace (handler w req)) -> is_render_work ev = true ->
      exists videoJobId t segs,
        reaches_validation w req videoJobId t segs
        /\ Forall (fun seg => numeric_duration (rt w) (duration seg) = true) segs
        /\ (forall segs', ev = ECall (CreateVideoFromSegments segs') -> segs' = segs)
        /\ (forall i seg, ev = ECall (CreateSegmentVideo i seg) -> segs !! i = Some seg)).
  { intros ev Hin Hw.
    destruct (render_work_inversion _ _ _ Hin Hw) as (jid & t & segs & Hreach & Hp).
    apply publish_events in Hp. destruct Hp as [Hv Hp].
    exists jid, t, segs. split; [exact Hreach|]. split; [now apply validated_numeric|].
    split.
    - intros segs' ->. destruct Hp as [Hp|Hp]; [|discriminate].
      apply compose_events in Hp.
      destruct Hp as [Hp|[[cmd Hp]|[Hp|Hp]]]; try discriminate.
      + now injection Hp.
      + clear -Hp. exfalso. revert Hp. generalize 0%nat. 
        induction segs as [|s segs IH]; intros k Hp; cbn [encode_segments] in Hp; [destruct Hp|].
        apply bind_trace in Hp. destruct Hp as [Hp|[p [_ Hp]]].
        * apply createSegmentVideo_events in Hp.
          destruct Hp as [Hp|[[cmd [Hp _]]|Hp]]; discriminate.
        * apply bind_trace in Hp. destruct Hp as [Hp|[ps [_ Hp]]]; [eauto|destruct Hp].
    - intros i seg ->. destruct Hp as [Hp|Hp]; [|discriminate].
      apply compose_events in Hp.
      destruct Hp as [Hp|[[cmd Hp]|[Hp|Hp]]]; try discriminate.
      apply encode_segments_calls in Hp. destruct Hp as [_ Hp].
      now rewrite Nat.sub_0_r in Hp. }
  split; [exact Hmain|]. split.
  - intros segs Hin. destruct (Hmain _ Hin eq_refl) as (jid & t & segs0 & _ & Hn & Hs & _).
    now rewrite (Hs segs eq_refl).
  - split.
    + intros i seg Hin.
      destruct (Hmain _ Hin eq_refl) as (jid & t & segs0 & _ & Hn & _ & Hs).
      specialize (Hs i seg eq_refl). rewrite Forall_forall in Hn.
      apply Hn. apply list_elem_of_lookup. eauto.
    + intros jid t segs Hreach Hex.
      assert (Hex' : Exists (fun seg => missing_duration (rt w) seg = true) segs).
      { eapply Exists_impl; [exact Hex|]. intros seg. cbn.
        rewrite missing_not_numeric. now intros ->. }
      destruct (findIndex_Exists _ _ Hex') as [i Hi].
      destruct (missing_duration_aborts _ _ _ _ _ _ Hreach Hi) as (_ & Hout & _ & Hq).
      split; [exact Hq|]. exists i. exact Hout.
Qed.

(** The segments the single run is called with for [negative_request]. *)
Lemma composition_durations_numeric_witness :
  In (ECall (CreateVideoFromSegments negative_downloaded))
     (trace (handler calm_world negative_request))
  /\ Forall (fun seg => numeric_duration (rt calm_world) (duration seg) = true)
       negative_downloaded.
Proof.
  assert (Hin : In (ECall (CreateVideoFromSegments negative_downloaded))
                   (trace (handler calm_world negative_request))).
  { right. left. reflexivity. }
  split; [exact Hin|].
  exact (proj1 (proj2 (composition_durations_numeric calm_world negative_request)) _ Hin).
Defined.

(** C3 as stated fails: a segment with duration [-1] passes validation and
    is composed and published. *)
Lemma composition_negative_duration_counterexample :
  outcome (handler calm_world negative_request)
  = Responded 200 (ResultBody "job-123" (VStr "https://storage.example/videos/job-123.mp4"))
  /\ In (ECall (CreateVideoFromSegments negative_downloaded))
        (trace (handler calm_world negative_request))
  /\ negative_downloaded !! 1%nat
     = Some {| imagePath := "/app/temp/session-1/img_1.jpg"; duration := VInt (-1);
               subtitleText := VUndef; word_duration := VUndef |}
  /\ to_number (rt calm_world) (VInt (-1)) = num_of_Z (-1).
Proof.
  split; [reflexivity|]. split; [right; left; reflexivity|]. split; reflexivity.
Qed.

(** ** The per-segment fallback *)

Lemma createSegmentVideo_in_time w k seg out resolution width height :
  parse_resolution (rt w) resolution = Some (width, height) ->
  ends_in_time (segment_run w k) ->
  createSegmentVideo w k seg out resolution
  = ([ECall (CreateSegmentVideo k seg);
      ERunSegment k (segment_command seg out width height)], Ok out).
Proof.
  intros Hp He. unfold createSegmentVideo. rewrite Hp.
  destruct (segment_run w k) as [e|ms|ms e|]; cbn in He; try contradiction.
  cbn. destruct (ms <? SEGMENT_TIMEOUT_MS) eqn:E; [reflexivity|lia].
Qed.

Lemma createSegmentVideo_timeout w k seg out resolution width height :
  parse_resolution (rt w) resolution = Some (width, height) ->
  outlasts_timeout (segment_run w k) ->
  createSegmentVideo w k seg out resolution
  = ([ECall (CreateSegmentVideo k seg);
      ERunSegment k (segment_command seg out width height);
      EKill k], Throw FFmpegTimedOut).
Proof.
  intros Hp Ho. unfold createSegmentVideo. rewrite Hp.
  destruct (segment_run w k) as [e|ms|ms e|]; cbn in Ho; try contradiction; cbn.
  - destruct (ms <? SEGMENT_TIMEOUT_MS) eqn:E; [lia|reflexivity].
  - destruct (ms <? SEGMENT_TIMEOUT_MS) eqn:E; [lia|reflexivity].
  - reflexivity.
Qed.

(** The loop leaves at the first render that fails: the segments before
    it were rendered once each, it is tried once, none after it. *)
Lemma encode_segments_first_failure w dir resolution width height segs :
  forall k i seg ti e,
  parse_resolution (rt w) resolution = Some (width, height) ->
  segs !! i = Some seg ->
  (forall j, (j < i)%nat -> ends_in_time (segment_run w (k + j))) ->
  createSegmentVideo w (k + i) seg (segOut dir (k + i)) resolution = (ti, Throw e) ->
  encode_segments w dir resolution k segs
  = (render_events width height dir k (take i segs) ++ ti, Throw e).
Proof.
  induction segs as [|s segs IH]; intros k i seg ti e Hp Hs Hj Hc; [discriminate|].
  destruct i as [|i]; cbn [encode_segments take render_events].
  - cbn in Hs. injection Hs as ->. rewrite Nat.add_0_r in Hc. rewrite Hc. reflexivity.
  - cbn in Hs.
    rewrite (createSegmentVideo_in_time w k s _ _ width height Hp)
      by (specialize (Hj 0%nat); rewrite Nat.add_0_r in Hj; apply Hj; lia).
    rewrite bind_Ok.
    rewrite (IH (S k) i seg ti e Hp Hs).
    + reflexivity.
    + intros j Hlt. replace (S k + j)%nat with (k + S j)%nat by lia. apply Hj. lia.
    + replace (S k + i)%nat with (k + S i)%nat by lia. exact Hc.
Qed.

Lemma render_events_quiet width height dir segs : forall k,
  Forall (fun ev => is_upload ev = false /\ is_concat ev = false)
    (render_events width height dir k segs).
Proof.
  induction segs as [|s segs IH]; intros k; cbn; repeat constructor; auto.
Qed.

(** The upload is called only with the file a completed composition
    returned. *)
Lemma upload_after_composition w req p videoJobId :
  In (ECall (UploadVideoToSupabase p videoJobId)) (trace (handler w req)) ->
  exists t segs,
    reaches_validation w req videoJobId t segs
    /\ snd (compose w (sessionDir w) (request_resolution req) segs) = Ok p.
Proof.
  intros Hin.
  destruct (render_work_inversion _ _ _ Hin eq_refl) as (jid & t & segs & Hreach & Hp).
  rewrite publish_trace in Hp. destruct (findIndex _ segs); [destruct Hp|].
  apply in_app_iff in Hp. destruct Hp as [Hp|Hp].
  - apply compose_events in Hp. destruct Hp as [Hp|[[cmd Hp]|[Hp|Hp]]]; try discriminate.
    exfalso. clear -Hp. revert Hp. generalize 0%nat.
    induction segs as [|s segs IH]; intros k Hp; cbn [encode_segments] in Hp; [destruct Hp|].
    apply bind_trace in Hp. destruct Hp as [Hp|[q [_ Hp]]].
    + apply createSegmentVideo_events in Hp.
      destruct Hp as [Hp|[[cmd [Hp _]]|Hp]]; discriminate.
    + apply bind_trace in Hp. destruct Hp as [Hp|[ps [_ Hp]]]; [eauto|destruct Hp].
  - destruct (snd (compose _ _ _ _)) as [q| |] eqn:Hc; cbn in Hp; try tauto.
    destruct Hp as [Hp|[]]. injection Hp as -> ->. eauto.
Qed.

(** C7: in the fallback, when the renders of the segments before [i] end
    in time and the render of segment [i] is still running 60 seconds
    after its start, that render is killed and rejects; the loop makes no
    second attempt at segment [i] and touches no later segment; the job
    fails with that rejection; nothing is concatenated and nothing is
    uploaded. *)
Theorem fallback_timeout_fails_job
  (w : World) (req : Value) (videoJobId : string) (t tf : list Effect)
  (segs : list Downloaded) (e0 : Error) (width height : Num) (i : nat) (seg : Downloaded) :
  reaches_validation w req videoJobId t segs ->
  findIndex (missing_duration (rt w)) segs = None ->
  createVideoFromSegments w segs (join (sessionDir w) "final.mp4") (request_resolution req)
  = (tf, Throw e0) ->
  parse_resolution (rt w) (request_resolution req) = Some (width, height) ->
  segs !! i = Some seg ->
  (forall j, (j < i)%nat -> ends_in_time (segment_run w j)) ->
  outlasts_timeout (segment_run w i) ->
  SEGMENT_TIMEOUT_MS = 60000
  /\ createSegmentVideo w i seg (segOut (sessionDir w) i) (request_resolution req)
     = ([ECall (CreateSegmentVideo i seg);
         ERunSegment i (segment_command seg (segOut (sessionDir w) i) width height);
         EKill i], Throw FFmpegTimedOut)
  /\ outcome (handler w req)
     = Responded 500
         (FailureBody "Video generation failed"
            (if production w then InternalServerError else Message FFmpegTimedOut))
  /\ trace (handler w req)
     = EMkdir (sessionDir w)
       :: t ++ tf
          ++ render_events width height (sessionDir w) 0 (take i segs)
          ++ [ECall (CreateSegmentVideo i seg);
              ERunSegment i (segment_command seg (segOut (sessionDir w) i) width height);
              EKill i]
          ++ (if production w then [ERm (sessionDir w)] else [])
  /\ Forall (fun ev => is_upload ev = false /\ is_concat ev = false) (trace (handler w req)).
Proof.
  intros Hreach Hv Hfast Hp Hs Hbefore Hout.
  pose proof (createSegmentVideo_timeout w i seg (segOut (sessionDir w) i)
                (request_resolution req) width height Hp Hout) as Hseg.
  assert (Henc : encode_segments w (sessionDir w) (request_resolution req) 0 segs
                 = (render_events width height (sessionDir w) 0 (take i segs)
                    ++ [ECall (CreateSegmentVideo i seg);
                        ERunSegment i (segment_command seg (segOut (sessionDir w) i)
                                         width height);
                        EKill i], Throw FFmpegTimedOut)).
  { apply (encode_segments_first_failure w _ _ width height segs 0 i seg); auto. }
  assert (Hpub : publish w videoJobId (request_resolution req) segs
                 = (tf ++ render_events width height (sessionDir w) 0 (take i segs)
                       ++ [ECall (CreateSegmentVideo i seg);
                           ERunSegment i (segment_command seg (segOut (sessionDir w) i)
                                            width height);
                           EKill i], Throw FFmpegTimedOut)).
  { unfold publish, validate_durations, compose. rewrite Hv, Hfast.
    cbn [try_catch]. rewrite Henc. reflexivity. }
  assert (Htrace : trace (handler w req)
     = EMkdir (sessionDir w)
       :: t ++ tf
          ++ render_events width height (sessionDir w) 0 (take i segs)
          ++ [ECall (CreateSegmentVideo i seg);
              ERunSegment i (segment_command seg (segOut (sessionDir w) i) width height);
              EKill i]
          ++ (if production w then [ERm (sessionDir w)] else [])).
  { rewrite (handler_reaches_validation _ _ _ _ _ Hreach), bind_Ok, Hpub.
    cbn [fst snd finish trace]. now rewrite <- !app_assoc. }
  split; [reflexivity|]. split; [exact Hseg|].
  split.
  { rewrite (handler_reaches_validation _ _ _ _ _ Hreach), bind_Ok, Hpub. reflexivity. }
  split; [exact Htrace|].
  rewrite Htrace. constructor; [auto|].
  apply Forall_app. split.
  { destruct Hreach as (style & raws & _ & _ & _ & _ & Hprep).
    pose proof (prepare_trace w style (map normalize raws)) as Hq. rewrite Hprep in Hq.
    eapply Forall_impl; [exact Hq|]. intros ev. cbn.
    destruct ev as [| [] | | | | | |]; cbn; intros; try discriminate; auto. }
  apply Forall_app. split.
  { apply Forall_forall. intros ev Hin. apply list_elem_of_In in Hin.
    replace tf with (fst (createVideoFromSegments w segs (join (sessionDir w) "final.mp4")
                            (request_resolution req))) in Hin by now rewrite Hfast.
    apply createVideoFromSegments_events in Hin. destruct Hin as [->|[cmd ->]]; auto. }
  apply Forall_app. split; [apply render_events_quiet|].
  apply Forall_app. split; [repeat constructor|].
  destruct (production w); repeat constructor.
Qed.

(** The second render never finishes: the job of [stalled_world] fails. *)
Lemma fallback_timeout_fails_job_witness :
  reaches_validation stalled_world example_request "job-123" [] example_downloaded
  /\ outlasts_timeout (segment_run stalled_world 1)
  /\ outcome (handler stalled_world example_request)
     = Responded 500 (FailureBody "Video generation failed" (Message FFmpegTimedOut)).
Proof.
  assert (Hreach : reaches_validation stalled_world example_request "job-123" []
                     example_downloaded).
  { exists VNull, [example_segment "https://example.com/image1.jpg" 3;
                   example_segment "https://example.com/image2.jpg" 4].
    repeat split. }
  assert (Hout : outlasts_timeout (segment_run stalled_world 1)) by exact I.
  split; [exact Hreach|]. split; [exact Hout|].
  refine (proj1 (proj2 (proj2
    (fallback_timeout_fails_job stalled_world example_request "job-123" []
       (fst (createVideoFromSegments stalled_world example_downloaded
               (join (sessionDir stalled_world) "final.mp4")
               (request_resolution example_request)))
       example_downloaded (Failure "Invalid data found") (num_of_Z 1280) (num_of_Z 720)
       1%nat
       {| imagePath := "/app/temp/session-1/img_1.jpg"; duration := VInt 4;
          subtitleText := VUndef; word_duration := VUndef |}
       Hreach eq_refl eq_refl eq_refl eq_refl _ Hout)))).
  intros j Hj. assert (j = 0%nat) as -> by lia. cbn. unfold SEGMENT_TIMEOUT_MS. lia.
Defined.

(** ** Segment order *)

Lemma promise_all_log_length {A} (log : list (nat * Limiter.Settlement A Error)) :
  forall vals vals', promise_all_log log vals = inr vals' -> length vals' = length vals.
Proof.
  induction log as [|[j [u|e]] log IH]; intros vals vals' H; cbn in H.
  - now injection H as <-.
  - apply IH in H. now rewrite length_insert in H.
  - discriminate.
Qed.

Lemma promise_all_log_untouched {A} (log : list (nat * Limiter.Settlement A Error)) :
  forall vals vals' i,
    promise_all_log log vals = inr vals' -> ~ In i (map fst log) -> vals' !! i = vals !! i.
Proof.
  induction log as [|[j [u|e]] log IH]; intros vals vals' i H Hn; cbn in H.
  - now injection H as <-.
  - cbn in Hn. rewrite (IH _ _ i H) by tauto.
    apply list_lookup_insert_ne. intros ->. tauto.
  - discriminate.
Qed.

(** Whatever the order of the log, the value of promise [i] ends up at
    index [i]. *)
Lemma promise_all_log_lookup {A} (log : list (nat * Limiter.Settlement A Error)) :
  forall vals vals' i s,
    promise_all_log log vals = inr vals' ->
    List.NoDup (map fst log) -> In (i, s) log -> (i < length vals)%nat ->
    exists v, s = Limiter.Fulfilled v /\ vals' !! i = Some (Some v).
Proof.
  induction log as [|[j [u|e]] log IH]; intros vals vals' i s H Hnd Hin Hlt; cbn in H.
  - destruct Hin.
  - cbn in Hnd. inversion Hnd as [|? ? Hj Hnd']; subst.
    destruct Hin as [Heq|Hin].
    + injection Heq as <- <-. exists u. split; [reflexivity|].
      rewrite (promise_all_log_untouched _ _ _ j H Hj).
      now apply list_lookup_insert_eq.
    + apply (IH _ _ i s H Hnd' Hin). now rewrite length_insert.
  - discriminate.
Qed.

Lemma all_some_lookup {A} (vals : list (option A)) : forall vs,
  all_some vals = Some vs ->
  length vs = length vals /\ forall i v, vals !! i = Some (Some v) -> vs !! i = Some v.
Proof.
  induction vals as [|[x|] vals IH]; intros vs H; cbn in H; try discriminate.
  - injection H as <-. split; [reflexivity|]. intros i v Hi. destruct i; discriminate.
  - destruct (all_some vals) as [vs'|]; [|discriminate]. injection H as <-.
    destruct (IH vs' eq_refl) as [Hl Hv]. split; [cbn; now rewrite Hl|].
    intros [|i] v Hi; cbn in *; [congruence|auto].
Qed.

Lemma imap_index_fst {A} (l : list A) : forall k,
  map fst (imap (fun i x => ((k + i)%nat, x)) l) = seq k (length l).
Proof.
  induction l as [|x l IH]; intros k; cbn; [reflexivity|].
  rewrite Nat.add_0_r. f_equal. rewrite <- (IH (S k)). f_equal.
  apply imap_ext. intros i y _. cbn. f_equal. lia.
Qed.

Lemma download_task_fulfilled w i seg v :
  download_task w (i, seg) = Limiter.Fulfilled v ->
  v = {| imagePath := imgPath w i seg;
         duration := seg_duration seg;
         subtitleText := seg_subtitleText seg;
         word_duration := seg_word_duration seg |}.
Proof.
  unfold download_task.
  destruct (Download.downloadFileToPath _ _ _ _) as [r|]; [|discriminate].
  destruct (Download.failure r); [discriminate|]. now intros [= <-].
Qed.

(** The downloads resolve, whatever the order in which they complete, to
    the segments' images in segment order. *)
Lemma download_all_ordered w segments t downloaded :
  download_all w segments = (t, Ok downloaded) ->
  downloaded = downloaded_in_order w segments.
Proof.
  unfold download_all.
  set (tasks := imap (fun i seg => (i, seg)) segments).
  set (final := Limiter.run_all _ _ _ tasks).
  destruct (run_all_done (download_task w) _ (MAX_CONCURRENCY_floor (cpus w))
              (schedule w) tasks) as ([_ _ Hf _ Ho Hp] & Hi & Hq).
  fold final in Hf, Ho, Hp, Hi, Hq.
  rewrite Hi, app_nil_r in Hp. rewrite Hq, app_nil_r in Hf. rewrite Hf in Hp.
  set (log := map (fun p => (fst (fst p), snd p)) (Limiter.settled final)).
  unfold promise_all.
  destruct (promise_all_log log (replicate (length segments) None)) as [e|vals] eqn:Hl;
    [discriminate|].
  destruct (all_some vals) as [vs|] eqn:Ha; [|discriminate].
  intros [= _ <-].
  destruct (all_some_lookup _ _ Ha) as [Hlen Hval].
  pose proof (promise_all_log_length _ _ _ Hl) as Hlv. rewrite length_replicate in Hlv.
  assert (Hnd : List.NoDup (map fst log)).
  { subst log. rewrite map_map. cbn.
    rewrite <- (map_map fst fst). rewrite Hp. subst tasks.
    pose proof (imap_index_fst segments 0) as Hseq. cbn in Hseq.
    rewrite Hseq. apply List.seq_NoDup. }
  apply list_eq. intros i. unfold downloaded_in_order. rewrite list_lookup_imap.
  destruct (segments !! i) as [seg|] eqn:Hs; cbn.
  - assert (Hin : In (i, seg) (map fst (Limiter.settled final))).
    { apply (Permutation_in _ (Permutation_sym Hp)).
      apply (proj1 (list_elem_of_In _ _)). apply list_elem_of_lookup. exists i.
      subst tasks. rewrite list_lookup_imap, Hs. reflexivity. }
    apply in_map_iff in Hin. destruct Hin as [[task s] [Ht Hin]]. cbn in Ht. subst task.
    assert (Hown : s = download_task w (i, seg)).
    { rewrite Forall_forall in Ho. apply (proj2 (list_elem_of_In _ _)) in Hin.
      apply (Ho _ Hin). }
    assert (Hlog : In (i, s) log).
    { subst log. apply in_map_iff. exists ((i, seg), s). auto. }
    destruct (promise_all_log_lookup _ _ _ i s Hl Hnd Hlog) as [v [Hsv Hv]].
    { rewrite length_replicate. apply lookup_lt_Some in Hs. exact Hs. }
    rewrite (Hval _ _ Hv). f_equal. apply (download_task_fulfilled w i seg).
    now rewrite <- Hown.
  - apply lookup_ge_None. apply lookup_ge_None in Hs. lia.
Qed.

Lemma show_nat_inj a b : show_nat a = show_nat b -> a = b.
Proof.
  unfold show_nat. intros H. apply (f_equal NilEmpty.uint_of_string) in H.
  rewrite !NilEmpty.usu in H. injection H as H. now apply Unsigned.to_uint_inj.
Qed.

Lemma append_String x (a b : string) :
  (String x a ++ b)%string = String x (a ++ b)%string.
Proof. reflexivity. Qed.

Lemma append_cancel_l (a b c : string) : (a ++ b)%string = (a ++ c)%string -> b = c.
Proof.
  induction a as [|x a IH]; [auto|]. rewrite !append_String. intros [= H]. auto.
Qed.

Lemma length_append_string (a b : string) :
  String.length (a ++ b) = (String.length a + String.length b)%nat.
Proof.
  induction a as [|x a IH]; [reflexivity|]. rewrite append_String. cbn. now rewrite IH.
Qed.

Lemma append_cancel_r (s : string) : forall a b : string,
  (a ++ s)%string = (b ++ s)%string -> a = b.
Proof.
  induction a as [|x a IH]; intros [|y b] H.
  - reflexivity.
  - apply (f_equal String.length) in H. rewrite !length_append_string in H. cbn in H. lia.
  - apply (f_equal String.length) in H. rewrite !length_append_string in H. cbn in H. lia.
  - rewrite !append_String in H. injection H as -> H. f_equal. auto.
Qed.

Lemma segOut_inj dir a b : segOut dir a = segOut dir b -> a = b.
Proof.
  unfold segOut, join. intros H.
  apply append_cancel_l in H. apply (append_cancel_l "/") in H.
  apply (append_cancel_l "seg_") in H. apply append_cancel_r in H.
  now apply show_nat_inj.
Qed.

Lemma find_first {A} (p : A -> bool) l : forall i x,
  l !! i = Some x -> p x = true ->
  (forall j y, (j < i)%nat -> l !! j = Some y -> p y = false) ->
  find p l = Some x.
Proof.
  induction l as [|a l IH]; intros i x Hi Hp Hb; [discriminate|].
  destruct i as [|i]; cbn in *.
  - injection Hi as ->. now rewrite Hp.
  - rewrite (Hb 0%nat a) by (auto; lia). apply (IH i); auto.
    intros j y Hj Hy. apply (Hb (S j)); [lia|exact Hy].
Qed.

(** The single run shows the images in the order of its segments. *)
Lemma fast_scenes_in_order w segs out width height :
  fast_scenes (fast_command w segs out width height)
  = map (fun seg => Some (imagePath seg)) segs.
Proof.
  unfold fast_scenes. apply list_eq. intros i.
  rewrite !lookup_map.
  change (concat_inputs (fast_command w segs out width height))
    with (imap (fun (i : nat) (_ : Downloaded) => i) segs).
  rewrite list_lookup_imap.
  destruct (segs !! i) as [seg|] eqn:Hs; cbn; [|reflexivity].
  rewrite (find_first _ _ i _ (fast_command_chain w segs out width height i seg Hs)).
  - cbn. rewrite lookup_map, Hs. reflexivity.
  - cbn. apply Nat.eqb_refl.
  - intros j c Hj Hc. assert (Hlt : (j < length segs)%nat).
    { apply lookup_lt_Some in Hs. lia. }
    apply lookup_lt_is_Some_2 in Hlt. destruct Hlt as [sj Hsj].
    rewrite (fast_command_chain w segs out width height j sj Hsj) in Hc.
    injection Hc as <-. cbn. apply Nat.eqb_neq. lia.
Qed.

Lemma escape_quotes_inj (p : string) : forall q,
  escape_quotes p = escape_quotes q -> p = q.
Proof.
  induction p as [|c p IH]; intros [|d q] H; cbn in H.
  - reflexivity.
  - destruct (Ascii.eqb d "'"); [rewrite !append_String in H|]; discriminate.
  - destruct (Ascii.eqb c "'"); [rewrite !append_String in H|]; discriminate.
  - destruct (Ascii.eqb_spec c "'"%char) as [->|Hc], (Ascii.eqb_spec d "'"%char) as [->|Hd].
    + apply (append_cancel_l "'\''") in H. f_equal. now apply IH.
    + rewrite !append_String in H. injection H as H _. congruence.
    + rewrite !append_String in H. injection H as H _. congruence.
    + injection H as <- H. f_equal. now apply IH.
Qed.

Lemma list_line_inj p q : list_line p = list_line q -> p = q.
Proof.
  unfold list_line. intros H. apply append_cancel_l in H.
  apply append_cancel_r in H. now apply escape_quotes_inj.
Qed.

Lemma segment_paths_lookup dir (l : list Downloaded) : forall k i,
  segment_paths dir k l !! i = option_map (fun _ => segOut dir (k + i)) (l !! i).
Proof.
  induction l as [|s l IH]; intros k [|i]; cbn; try reflexivity.
  - now rewrite Nat.add_0_r.
  - rewrite IH. replace (S k + i)%nat with (k + S i)%nat by lia. reflexivity.
Qed.

(** The files the renders of [segs], numbered from [k], leave behind. *)
Lemma concat_scenes_render_events width height dir rest lists segs : forall k videos,
  concat_scenes lists videos (render_events width height dir k segs ++ rest)
  = concat_scenes lists
      (rev (imap (fun i seg => (segOut dir (k + i), imagePath seg)) segs) ++ videos) rest.
Proof.
  induction segs as [|s segs IH]; intros k videos; [reflexivity|].
  cbn [render_events app concat_scenes segment_command segment_out segment_input imap rev].
  rewrite IH, <- app_assoc, Nat.add_0_r. cbn [app]. f_equal. f_equal. f_equal.
  apply imap_ext. intros i x _. cbn. f_equal. f_equal. lia.
Qed.

Lemma render_events_In width height dir segs : forall k i seg,
  segs !! i = Some seg ->
  In (ERunSegment (k + i) (segment_command seg (segOut dir (k + i)) width height))
     (render_events width height dir k segs).
Proof.
  induction segs as [|s segs IH]; intros k i seg Hs; [discriminate|].
  destruct i as [|i]; cbn in Hs |- *.
  - injection Hs as ->. rewrite Nat.add_0_r. auto.
  - right. right. replace (k + S i)%nat with (S k + i)%nat by lia. now apply IH.
Qed.

Lemma find_unique {A} (p : A -> bool) (l : list A) (x : A) :
  In x l -> p x = true -> (forall y, In y l -> p y = true -> y = x) -> find p l = Some x.
Proof.
  induction l as [|a l IH]; intros Hin Hp Hu; [destruct Hin|].
  cbn. destruct (p a) eqn:Ha.
  - f_equal. apply Hu; [now left|exact Ha].
  - destruct Hin as [->|Hin]; [congruence|]. apply IH; auto. intros y Hy. apply Hu. now right.
Qed.

(** Among the files of the renders, a line names the file of one segment
    only, and so its image. *)
Lemma image_of_line_rendered dir (segs : list Downloaded) i seg :
  segs !! i = Some seg ->
  image_of_line (rev (imap (fun i seg => (segOut dir i, imagePath seg)) segs) ++ [])
    (list_line (segOut dir i))
  = Some (imagePath seg).
Proof.
  intros Hs. unfold image_of_line. rewrite app_nil_r.
  rewrite (find_unique _ _ (segOut dir i, imagePath seg)); [reflexivity| | |].
  - apply in_rev. rewrite rev_involutive. apply list_elem_of_In, elem_of_lookup_imap.
    exists i, seg. auto.
  - cbn. apply String.eqb_refl.
  - intros [q img] Hy Hq. cbn in Hq. apply String.eqb_eq, list_line_inj in Hq. subst q.
    apply in_rev in Hy.
    apply list_elem_of_In, elem_of_lookup_imap in Hy.
    destruct Hy as (j & sj & Hj & Hsj). injection Hj as Hj ->.
    apply segOut_inj in Hj. subst j. congruence.
Qed.

Lemma createVideoFromSegments_cases w segs out resolution :
  (exists width height,
      parse_resolution (rt w) resolution = Some (width, height)
      /\ createVideoFromSegments w segs out resolution
         = ([ECall (CreateVideoFromSegments segs);
             ERunFast (fast_command w segs out width height)], Ok out))
  \/ (exists e, createVideoFromSegments w segs out resolution
                = ([ECall (CreateVideoFromSegments segs)], Throw e))
  \/ (exists e cmd, createVideoFromSegments w segs out resolution
                    = ([ECall (CreateVideoFromSegments segs); ERunFast cmd], Throw e)).
Proof.
  unfold createVideoFromSegments. destruct segs as [|s segs]; cbn; [eauto|].
  destruct (parse_resolution _ _) as [[wd ht]|]; cbn; [|eauto].
  destruct (fast_run w); cbn; [eauto 6|]. left. eauto.
Qed.

Lemma createSegmentVideo_Ok w k seg out resolution t p :
  createSegmentVideo w k seg out resolution = (t, Ok p) ->
  exists width height,
    parse_resolution (rt w) resolution = Some (width, height)
    /\ t = [ECall (CreateSegmentVideo k seg);
            ERunSegment k (segment_command seg out width height)]
    /\ p = out.
Proof.
  unfold createSegmentVideo, timed_out.
  destruct (parse_resolution _ _) as [[wd ht]|]; cbn; [|discriminate].
  destruct (segment_run w k) as [e|ms|ms e|]; cbn;
    try destruct (ms <? SEGMENT_TIMEOUT_MS); cbn; try discriminate.
  intros [= <- <-]. eauto.
Qed.

Lemma encode_segments_parsed w dir resolution width height segs : forall k t ps,
  parse_resolution (rt w) resolution = Some (width, height) ->
  encode_segments w dir resolution k segs = (t, Ok ps) ->
  t = render_events width height dir k segs /\ ps = segment_paths dir k segs.
Proof.
  induction segs as [|s segs IH]; intros k t ps Hp H; cbn [encode_segments] in H.
  - injection H as <- <-. auto.
  - destruct (createSegmentVideo w k s (segOut dir k) resolution) as [t1 [p| |]] eqn:Hc;
      try discriminate.
    apply createSegmentVideo_Ok in Hc. destruct Hc as (wd & ht & Hp' & -> & ->).
    rewrite Hp in Hp'. injection Hp' as <- <-.
    rewrite bind_Ok in H.
    destruct (encode_segments w dir resolution (S k) segs) as [t2 [ps2| |]] eqn:He;
      try discriminate.
    cbn in H. injection H as <- <-.
    destruct (IH _ _ _ Hp He) as (-> & ->).
    rewrite app_nil_r. auto.
Qed.

Lemma encode_segments_Ok w dir resolution segs k t ps :
  encode_segments w dir resolution k segs = (t, Ok ps) ->
  exists width height,
    t = render_events width height dir k segs /\ ps = segment_paths dir k segs.
Proof.
  destruct (parse_resolution (rt w) resolution) as [[wd ht]|] eqn:Hp.
  - intros H. exists wd, ht. now apply (encode_segments_parsed w dir resolution wd ht segs).
  - destruct segs as [|s segs]; cbn [encode_segments].
    + intros [= <- <-]. exists (num_of_Z 0), (num_of_Z 0). auto.
    + unfold createSegmentVideo. rewrite Hp. discriminate.
Qed.

Lemma concatVideos_Ok w paths out t p :
  concatVideos w paths out = (t, Ok p) ->
  t = [ECall (ConcatVideos paths out);
       EWriteList (dirname w out ++ "/filelist.txt")%string (map list_line paths);
       ERunConcat (dirname w out ++ "/filelist.txt")%string out]
  /\ p = out.
Proof.
  unfold concatVideos. destruct (write_list w); cbn; [discriminate|].
  destruct (concat_run w); cbn; [discriminate|]. intros [= <- <-]. auto.
Qed.

(** A run that answers 200 passed validation and composed a file. *)
Lemma success_inversion w req videoJobId url :
  outcome (handler w req) = Responded 200 (ResultBody videoJobId url) ->
  exists t segs tc p,
    reaches_validation w req videoJobId t segs
    /\ compose w (sessionDir w) (request_resolution req) segs = (tc, Ok p)
    /\ trace (handler w req)
       = EMkdir (sessionDir w)
         :: t ++ tc ++ [ECall (UploadVideoToSupabase p videoJobId); ERm (sessionDir w)].
Proof.
  unfold handler.
  destruct (valid_jobId _) as [jid|] eqn:Hj; [|discriminate].
  destruct (globalSubtitleStyle _ _ _) as [e|style] eqn:Hg; [discriminate|].
  destruct (raw_segments _) as [raws|] eqn:Hr; [|discriminate].
  destruct (mkdir_session w) as [e|] eqn:Hm; [discriminate|].
  cbn [trace outcome]. rewrite job_split.
  change (resolution_of _) with (request_resolution req).
  destruct (prepare w style (map normalize raws)) as [t [segs|e|]] eqn:Hp;
    try discriminate.
  rewrite bind_Ok.
  destruct (publish w jid (request_resolution req) segs) as [tp [u|e|]] eqn:Hpub;
    cbn [fst snd finish trace outcome]; intros H; try discriminate H.
  injection H as <- <-.
  unfold publish, validate_durations in Hpub.
  destruct (findIndex _ segs); [discriminate|].
  change (bind (ret tt) ?k) with (bind (([], Ok tt) : M unit) k) in Hpub.
  rewrite bind_Ok in Hpub. cbn [app fst snd] in Hpub.
  destruct (compose w (sessionDir w) (request_resolution req) segs) as [tc [p|e|]] eqn:Hc;
    try discriminate.
  rewrite bind_Ok in Hpub. cbn [fst snd] in Hpub.
  destruct (upload w) as [e|u'] eqn:Hu; cbn in Hpub; [discriminate|].
  injection Hpub as <- <-. exists t, segs, tc, p.
  split; [exists style, raws; auto|]. split; [exact Hc|].
  rewrite <- !app_assoc. reflexivity.
Qed.

Lemma fallback_call_quiet l1 l2 :
  Forall (fun ev => is_render_work ev = false) l1 ->
  existsb is_fallback_call (l1 ++ l2) = existsb is_fallback_call l2.
Proof.
  induction 1 as [|ev l1 Hev _ IH]; [reflexivity|].
  destruct ev as [| [] | | | | | |]; cbn in *; try discriminate; exact IH.
Qed.

Lemma concat_scenes_quiet l1 l2 lists videos :
  Forall (fun ev => is_render_work ev = false) l1 ->
  concat_scenes lists videos (l1 ++ l2) = concat_scenes lists videos l2.
Proof.
  induction 1 as [|ev l1 Hev _ IH]; [reflexivity|].
  destruct ev as [| [] | | | | | |]; cbn in *; try discriminate; exact IH.
Qed.

Lemma fast_run_command_quiet l1 l2 :
  Forall (fun ev => is_render_work ev = false) l1 ->
  fast_run_command (l1 ++ l2) = fast_run_command l2.
Proof.
  induction 1 as [|ev l1 Hev _ IH]; [reflexivity|].
  destruct ev as [| [] | | | | | |]; cbn in *; try discriminate; exact IH.
Qed.

Lemma subtitle_results_length w style segs : forall i t rs,
  subtitle_results w style i segs = (t, Ok rs) -> length rs = length segs.
Proof.
  induction segs as [|seg segs IH]; intros i t rs H; cbn [subtitle_results] in H.
  - now injection H as <- <-.
  - destruct (if wants_subtitles seg then _ else _) as [t1 [r| |]]; try discriminate.
    rewrite bind_Ok in H.
    destruct (subtitle_results w style (S i) segs) as [t2 [rs2| |]] eqn:Hs;
      try discriminate.
    cbn in H. injection H as <- <-. cbn. f_equal. eauto.
Qed.

Lemma update_durations_paths segs : forall rs,
  length rs = length segs ->
  map (fun seg => Some (imagePath seg)) (update_durations segs rs)
  = map (fun seg => Some (imagePath seg)) segs.
Proof.
  unfold update_durations.
  induction segs as [|seg segs IH]; intros [|r rs] Hl; cbn in *; try lia; [reflexivity|].
  f_equal; [|apply IH; lia].
  unfold update_duration. destruct (truthy (calculatedDuration r)); reflexivity.
Qed.

(** How a composition that gives a file went: by the single run, which
    ended without an error; or, the single run having thrown, by the
    renders of all segments in turn, the list file and the concat run. *)
Lemma compose_Ok_cases w resolution segs tc p :
  compose w (sessionDir w) resolution segs = (tc, Ok p) ->
  (exists width height,
      tc = [ECall (CreateVideoFromSegments segs);
            ERunFast (fast_command w segs (join (sessionDir w) "final.mp4") width height)]
      /\ fast_run w = None)
  \/ (exists tf width height,
        tc = tf ++ render_events width height (sessionDir w) 0 segs
                ++ [ECall (ConcatVideos (segment_paths (sessionDir w) 0 segs)
                             (join (sessionDir w) "final.mp4"));
                    EWriteList (dirname w (join (sessionDir w) "final.mp4") ++ "/filelist.txt")
                      (map list_line (segment_paths (sessionDir w) 0 segs));
                    ERunConcat (dirname w (join (sessionDir w) "final.mp4") ++ "/filelist.txt")
                      (join (sessionDir w) "final.mp4")]
        /\ (tf = [ECall (CreateVideoFromSegments segs)]
            \/ exists cmd, tf = [ECall (CreateVideoFromSegments segs); ERunFast cmd])
        /\ write_list w = None /\ concat_run w = None).
Proof.
  intros Hc. unfold compose in Hc.
  assert (Hfall : forall tf e,
            createVideoFromSegments w segs (join (sessionDir w) "final.mp4") resolution
            = (tf, Throw e) ->
            exists width height,
              tc = tf ++ render_events width height (sessionDir w) 0 segs
                      ++ [ECall (ConcatVideos (segment_paths (sessionDir w) 0 segs)
                                   (join (sessionDir w) "final.mp4"));
                          EWriteList
                            (dirname w (join (sessionDir w) "final.mp4") ++ "/filelist.txt")
                            (map list_line (segment_paths (sessionDir w) 0 segs));
                          ERunConcat
                            (dirname w (join (sessionDir w) "final.mp4") ++ "/filelist.txt")
                            (join (sessionDir w) "final.mp4")]
              /\ write_list w = None /\ concat_run w = None).
  { intros tf e Hf. rewrite Hf in Hc. cbn [try_catch] in Hc.
    destruct (encode_segments w (sessionDir w) resolution 0 segs) as [te [ps| |]] eqn:He;
      try discriminate.
    rewrite bind_Ok in Hc.
    destruct (concatVideos w ps (join (sessionDir w) "final.mp4")) as [tk [q| |]] eqn:Hk;
      try discriminate.
    cbn [fst snd] in Hc. injection Hc as <- <-.
    apply encode_segments_Ok in He. destruct He as (wd & ht & -> & ->).
    pose proof Hk as Hk'. apply concatVideos_Ok in Hk'. destruct Hk' as [-> ->].
    exists wd, ht. split; [reflexivity|].
    unfold concatVideos in Hk.
    destruct (write_list w); [discriminate|]. destruct (concat_run w); [discriminate|]. auto. }
  destruct (createVideoFromSegments_cases w segs (join (sessionDir w) "final.mp4") resolution)
    as [(wd & ht & Hp & Hf)|[(e & Hf)|(e & cmd & Hf)]].
  - left. exists wd, ht. rewrite Hf in Hc. cbn [try_catch] in Hc. injection Hc as <- <-.
    split; [reflexivity|].
    unfold createVideoFromSegments in Hf. destruct segs as [|s0 segs]; [discriminate|].
    rewrite Hp in Hf. destruct (fast_run w); [discriminate|reflexivity].
  - right. destruct (Hfall _ _ Hf) as (wd & ht & Htc & Hw & Hr).
    eexists _, wd, ht. split; [exact Htc|]. auto.
  - right. destruct (Hfall _ _ Hf) as (wd & ht & Htc & Hw & Hr).
    eexists _, wd, ht. split; [exact Htc|]. eauto.
Qed.

(** C1: when a request is answered with the published video, the
    downloads resolved to the images of the segments in segment order,
    under the schedule of this run and under any other, and the scenes of
    the composed file are those images in segment order: scene [i] is the
    image that download task [i] fetched from the URL of segment [i].
    When no fallback call was made, the file was composed by the single
    run, which took the images as its inputs in that order and ended
    without an error.  Otherwise the single run had thrown; every segment
    [i] was rendered from its image to [seg_i.mp4]; then the list file was
    written with one line per segment, the line of [seg_i.mp4] at place
    [i]; and the concat run that followed, on that list file, ended
    without an error. *)
Theorem scene_order_is_segment_order
  (w : World) (req : Value) (videoJobId : string) (url : Value) :
  outcome (handler w req) = Responded 200 (ResultBody videoJobId url) ->
  exists rawSegments,
    raw_segments (request_body req) = Some rawSegments
    /\ download_all w (map normalize rawSegments)
       = ([], Ok (downloaded_in_order w (map normalize rawSegments)))
    /\ (forall sched t downloaded,
          download_all (with_schedule w sched) (map normalize rawSegments)
          = (t, Ok downloaded) ->
          downloaded = downloaded_in_order w (map normalize rawSegments))
    /\ scenes (trace (handler w req))
       = Some (imap (fun i raw => Some (imgPath w i (normalize raw))) rawSegments)
    /\ (existsb is_fallback_call (trace (handler w req)) = false ->
        exists cmd,
          fast_run_command (trace (handler w req)) = Some cmd
          /\ fast_run w = None
          /\ fast_out cmd = join (sessionDir w) "final.mp4"
          /\ map (fun input => Some (input_path input)) (inputs cmd)
             = imap (fun i raw => Some (imgPath w i (normalize raw))) rawSegments)
    /\ (existsb is_fallback_call (trace (handler w req)) = true ->
        exists before after,
          trace (handler w req)
          = before
            ++ EWriteList (dirname w (join (sessionDir w) "final.mp4") ++ "/filelist.txt")
                 (imap (fun i _ => list_line (segOut (sessionDir w) i)) rawSegments)
            :: ERunConcat (dirname w (join (sessionDir w) "final.mp4") ++ "/filelist.txt")
                 (join (sessionDir w) "final.mp4")
            :: after
          /\ (forall i raw,
                rawSegments !! i = Some raw ->
                exists cmd,
                  In (ERunSegment i cmd) before
                  /\ segment_input cmd = imgPath w i (normalize raw)
                  /\ segment_out cmd = segOut (sessionDir w) i)
          /\ write_list w = None /\ concat_run w = None).
Proof.
  intros Hout.
  destruct (success_inversion _ _ _ _ Hout) as (t & segs & tc & p & Hreach & Hc & Ht).
  destruct Hreach as (style & raws & Hj & Hg & Hr & Hm & Hp).
  exists raws. split; [exact Hr|].
  pose proof (prepare_trace w style (map normalize raws)) as Hq. rewrite Hp in Hq.
  apply prepare_inv in Hp. destruct Hp as (downloaded & rs & Hd & Hs & ->).
  pose proof (download_all_ordered _ _ _ _ Hd) as ->.
  split; [exact Hd|]. split.
  { intros sched t' ds Hds. apply download_all_ordered in Hds. exact Hds. }
  set (segs := update_durations (downloaded_in_order w (map normalize raws)) rs) in *.
  assert (Himg : map (fun seg => Some (imagePath seg)) segs
                 = imap (fun i raw => Some (imgPath w i (normalize raw))) raws).
  { unfold segs. rewrite update_durations_paths
      by (apply subtitle_results_length in Hs; exact Hs).
    apply list_eq. intros i. unfold downloaded_in_order.
    rewrite lookup_map, !list_lookup_imap, lookup_map.
    destruct (raws !! i); reflexivity. }
  assert (Hat : forall i raw, raws !! i = Some raw ->
                  exists seg, segs !! i = Some seg /\ imagePath seg = imgPath w i (normalize raw)).
  { intros i raw Hi. apply (f_equal (fun l => l !! i)) in Himg.
    rewrite lookup_map, list_lookup_imap, Hi in Himg. cbn in Himg.
    destruct (segs !! i) as [seg|]; [|discriminate]. injection Himg as Himg. eauto. }
  assert (Hlen : length segs = length raws).
  { apply (f_equal length) in Himg. now rewrite length_map, length_imap in Himg. }
  assert (Hquiet : Forall (fun ev => is_render_work ev = false) (EMkdir (sessionDir w) :: t))
    by (constructor; [reflexivity|exact Hq]).
  assert (Htr : trace (handler w req)
                = (EMkdir (sessionDir w) :: t)
                  ++ tc ++ [ECall (UploadVideoToSupabase p videoJobId); ERm (sessionDir w)])
    by (rewrite Ht; reflexivity).
  rewrite Htr. clear Ht Htr. unfold scenes.
  rewrite !(fallback_call_quiet _ _ Hquiet), (fast_run_command_quiet _ _ Hquiet),
    (concat_scenes_quiet _ _ _ _ Hquiet).
  destruct (compose_Ok_cases _ _ _ _ _ Hc)
    as [(wd & ht & -> & Hfast)|(tf & wd & ht & -> & Htf & Hwl & Hcr)].
  - (* the single run *)
    cbn [app existsb is_fallback_call orb fast_run_command option_map].
    rewrite fast_scenes_in_order, Himg.
    split; [reflexivity|]. split; [|intros; discriminate].
    intros _. eexists. split; [reflexivity|]. split; [exact Hfast|]. split; [reflexivity|].
    cbn [inputs fast_command]. rewrite <- Himg, map_map. reflexivity.
  - (* the fallback *)
    set (dir := sessionDir w) in *.
    set (final := join dir "final.mp4") in *.
    set (list_file := (dirname w final ++ "/filelist.txt")%string) in *.
    set (after := [ECall (UploadVideoToSupabase p videoJobId); ERm dir]).
    assert (Hpaths : map list_line (segment_paths dir 0 segs)
                     = imap (fun i _ => list_line (segOut dir i)) raws).
    { apply list_eq. intros i.
      rewrite lookup_map, segment_paths_lookup, list_lookup_imap.
      destruct (raws !! i) as [raw|] eqn:Hi.
      - destruct (Hat _ _ Hi) as (seg & -> & _). reflexivity.
      - apply lookup_ge_None in Hi. rewrite <- Hlen in Hi.
        apply lookup_ge_None in Hi. now rewrite Hi. }
    assert (Hfb : existsb is_fallback_call
                    ((tf ++ render_events wd ht dir 0 segs
                         ++ [ECall (ConcatVideos (segment_paths dir 0 segs) final);
                             EWriteList list_file (map list_line (segment_paths dir 0 segs));
                             ERunConcat list_file final]) ++ after) = true).
    { rewrite !existsb_app. cbn. now rewrite !orb_true_r. }
    rewrite Hfb. split; [|split; [intros; discriminate|]].
    + rewrite <- !app_assoc.
      assert (Hskip : forall rest, concat_scenes [] [] (tf ++ rest) = concat_scenes [] [] rest)
        by (intros rest; destruct Htf as [->|[cmd ->]]; reflexivity).
      rewrite Hskip, concat_scenes_render_events.
      cbn [app concat_scenes]. unfold written_lines. cbn [find fst].
      rewrite String.eqb_refl. cbn [option_map snd]. f_equal.
      rewrite <- Himg. apply list_eq. intros i.
      rewrite !lookup_map, segment_paths_lookup.
      destruct (segs !! i) as [seg|] eqn:Hseg; cbn [option_map]; [|reflexivity].
      f_equal. now apply image_of_line_rendered.
    + intros _.
      exists ((EMkdir dir :: t) ++ tf ++ render_events wd ht dir 0 segs
              ++ [ECall (ConcatVideos (segment_paths dir 0 segs) final)]), after.
      split; [rewrite <- Hpaths, <- !app_assoc; reflexivity|]. split; [|auto].
      intros i raw Hi. destruct (Hat _ _ Hi) as (seg & Hseg & <-).
      exists (segment_command seg (segOut dir i) wd ht).
      split; [|split; reflexivity].
      apply in_app_iff. right. apply in_app_iff. right. apply in_app_iff. left.
      apply (render_events_In wd ht dir segs 0 i seg Hseg).
Qed.

(** Downloads completing in reverse order, composed by the fallback. *)
Lemma scene_order_is_segment_order_witness :
  outcome (handler reordered_world example_request)
  = Responded 200 (ResultBody "job-123" (VStr "https://storage.example/videos/job-123.mp4"))
  /\ scenes (trace (handler reordered_world example_request))
     = Some [Some "/app/temp/session-1/img_0.jpg"%string;
             Some "/app/temp/session-1/img_1.jpg"%string]
  /\ In (EWriteList "/app/temp/session-1/filelist.txt"
           ["file '/app/temp/session-1/seg_0.mp4'"%string;
            "file '/app/temp/session-1/seg_1.mp4'"%string])
        (trace (handler reordered_world example_request)).
Proof.
  assert (Hout : outcome (handler reordered_world example_request)
                 = Responded 200 (ResultBody "job-123"
                                    (VStr "https://storage.example/videos/job-123.mp4")))
    by reflexivity.
  split; [exact Hout|].
  destruct (scene_order_is_segment_order reordered_world example_request _ _ Hout)
    as (raws & Hr & _ & _ & Hs & _ & Hfb).
  vm_compute in Hr. injection Hr as <-. split; [rewrite Hs; reflexivity|].
  destruct (Hfb eq_refl) as (before & after & Htr & _). rewrite Htr.
  apply in_app_iff. right. left. reflexivity.
Defined.

(** * Further properties *)

(** ** The handler: how a request ends *)

Lemma all_some_total {A} (vals : list (option A)) :
  (forall i, (i < length vals)%nat -> exists v, vals !! i = Some (Some v)) ->
  exists vs, all_some vals = Some vs.
Proof.
  induction vals as [|x vals IH]; intros H; [now exists []|].
  destruct (H 0%nat) as [v Hv]; [cbn; lia|]. cbn in Hv. injection Hv as ->.
  destruct IH as [vs Hvs].
  { intros i Hi. apply (H (S i)). cbn. lia. }
  exists (v :: vs). cbn. now rewrite Hvs.
Qed.

Lemma promise_all_log_inl {A} (log : list (nat * Limiter.Settlement A Error)) :
  forall vals e, promise_all_log log vals = inl e -> exists i, In (i, Limiter.Rejected e) log.
Proof.
  induction log as [|[j [u|e']] log IH]; intros vals e H; cbn in H.
  - discriminate.
  - destruct (IH _ _ H) as [i Hi]. exists i. now right.
  - injection H as <-. exists j. now left.
Qed.

Lemma promise_all_log_rejects {A} (log : list (nat * Limiter.Settlement A Error)) :
  forall vals i e, In (i, Limiter.Rejected e) log -> exists e', promise_all_log log vals = inl e'.
Proof.
  induction log as [|[j [u|e']] log IH]; intros vals i e H; cbn.
  - destruct H.
  - destruct H as [H|H]; [discriminate|]. eapply IH, H.
  - now exists e'.
Qed.

(** The settlement log of the fan-out: each segment's task is in it
    once, under its index, with the settlement of that task. *)
Lemma download_log w segments :
  let log := map (fun p => (fst (fst p), snd p))
               (Limiter.settled
                  (Limiter.run_all (download_task w) (MAX_CONCURRENCY (cpus w)) (schedule w)
                     (imap (fun i seg => (i, seg)) segments))) in
  List.NoDup (map fst log)
  /\ (forall i seg, segments !! i = Some seg -> In (i, download_task w (i, seg)) log)
  /\ (forall i s, In (i, s) log ->
        exists seg, segments !! i = Some seg /\ s = download_task w (i, seg)).
Proof.
  set (tasks := imap (fun i seg => (i, seg)) segments).
  set (final := Limiter.run_all _ _ _ tasks).
  destruct (run_all_done (download_task w) _ (MAX_CONCURRENCY_floor (cpus w))
              (schedule w) tasks) as ([_ _ Hf _ Ho Hp] & Hi & Hq).
  fold final in Hf, Ho, Hp, Hi, Hq.
  rewrite Hi, app_nil_r in Hp. rewrite Hq, app_nil_r in Hf. rewrite Hf in Hp.
  cbn zeta. set (log := map _ (Limiter.settled final)).
  assert (Hown : forall task s, In (task, s) (Limiter.settled final) -> s = download_task w task).
  { intros task s Hin. rewrite Forall_forall in Ho.
    apply (proj2 (list_elem_of_In _ _)) in Hin. apply (Ho _ Hin). }
  assert (Htask : forall i seg, In (i, seg) tasks <-> segments !! i = Some seg).
  { intros i seg. subst tasks. split.
    - intros Hin. apply (proj2 (list_elem_of_In _ _)) in Hin.
      apply list_elem_of_lookup in Hin. destruct Hin as [j Hj].
      rewrite list_lookup_imap in Hj. destruct (segments !! j) as [x|] eqn:Hx; [|discriminate].
      cbn in Hj. injection Hj as <- <-. exact Hx.
    - intros Hs. apply (proj1 (list_elem_of_In _ _)). apply list_elem_of_lookup. exists i.
      rewrite list_lookup_imap, Hs. reflexivity. }
  split; [|split].
  - subst log. rewrite map_map. cbn. rewrite <- (map_map fst fst). rewrite Hp. subst tasks.
    pose proof (imap_index_fst segments 0) as Hseq. cbn in Hseq.
    rewrite Hseq. apply List.seq_NoDup.
  - intros i seg Hs.
    assert (Hin : In (i, seg) (map fst (Limiter.settled final))).
    { apply (Permutation_in _ (Permutation_sym Hp)). now apply Htask. }
    apply in_map_iff in Hin. destruct Hin as [[task s] [Ht Hin]]. cbn in Ht. subst task.
    rewrite <- (Hown _ _ Hin). subst log. apply in_map_iff. exists ((i, seg), s). auto.
  - intros i s Hin. subst log. apply in_map_iff in Hin.
    destruct Hin as [[[j seg] s'] [Heq Hin]]. cbn in Heq. injection Heq as <- <-.
    exists seg. split; [|now apply Hown].
    apply Htask. apply (Permutation_in _ Hp). apply in_map_iff. exists ((j, seg), s'). auto.
Qed.

(** [Promise.all] over the download tasks: every task fulfilled gives the
    downloads in segment order; otherwise it rejects with the error of a
    task that rejected.  It never stays pending. *)
Lemma download_all_cases w segments :
  (download_all w segments = ([], Ok (downloaded_in_order w segments))
   /\ forall i seg, segments !! i = Some seg ->
        exists v, download_task w (i, seg) = Limiter.Fulfilled v)
  \/ (exists e i seg,
        download_all w segments = ([], Throw e)
        /\ segments !! i = Some seg
        /\ download_task w (i, seg) = Limiter.Rejected e).
Proof.
  destruct (download_log w segments) as (Hnd & Hall & Hlog).
  pose proof (download_all_ordered w segments) as Hord.
  unfold download_all in *. cbn zeta in *.
  set (log := map _ (Limiter.settled _)) in *.
  unfold promise_all in *.
  destruct (promise_all_log log (replicate (length segments) None)) as [e|vals] eqn:Hl.
  - right. destruct (promise_all_log_inl _ _ _ Hl) as [i Hi].
    destruct (Hlog _ _ Hi) as (seg & Hs & He). exists e, i, seg. auto.
  - left.
    assert (Hful : forall i seg, segments !! i = Some seg ->
              exists v, download_task w (i, seg) = Limiter.Fulfilled v
                        /\ vals !! i = Some (Some v)).
    { intros i seg Hs.
      destruct (promise_all_log_lookup _ _ _ i _ Hl Hnd (Hall _ _ Hs)) as [v [Hv Hvi]].
      - rewrite length_replicate. now apply lookup_lt_Some in Hs.
      - eauto. }
    pose proof (promise_all_log_length _ _ _ Hl) as Hlen. rewrite length_replicate in Hlen.
    destruct (all_some_total vals) as [vs Hvs].
    { intros i Hi. rewrite Hlen in Hi. apply lookup_lt_is_Some in Hi. destruct Hi as [seg Hs].
      destruct (Hful _ _ Hs) as (v & _ & Hv). eauto. }
    rewrite Hvs in *. split.
    + rewrite (Hord [] vs eq_refl). reflexivity.
    + intros i seg Hs. destruct (Hful _ _ Hs) as (v & Hv & _). eauto.
Qed.
Lemma Forall_bind {A B} (P : Effect -> Prop) (m : M A) (k : A -> M B) :
  Forall P (fst m) -> (forall a, Forall P (fst (k a))) -> Forall P (fst (bind m k)).
Proof.
  destruct m as [t [a|e|]]; cbn; intros Hm Hk; auto.
  specialize (Hk a). destruct (k a) as [t' r]. cbn in *. apply Forall_app. auto.
Qed.

Lemma Forall_try_catch {A} (P : Effect -> Prop) (m : M A) (h : Error -> M A) :
  Forall P (fst m) -> (forall e, Forall P (fst (h e))) -> Forall P (fst (try_catch m h)).
Proof.
  destruct m as [t [a|e|]]; cbn; intros Hm Hk; auto.
  specialize (Hk e). destruct (h e) as [t' r]. cbn in *. apply Forall_app. auto.
Qed.

Lemma Forall_lift {A} (P : Effect -> Prop) (r : Error + A) : Forall P (fst (lift r)).
Proof. destruct r; constructor. Qed.

Lemma Forall_check (P : Effect -> Prop) (f : option Error) : Forall P (fst (check f)).
Proof. destruct f; constructor. Qed.

(** One step of a proof that the effects of a computation of the handler
    all satisfy a predicate that holds of what it emits. *)
Ltac job_step :=
  first
    [ apply Forall_bind; [|intros ?]
    | apply Forall_try_catch; [|intros ?]
    | apply Forall_lift
    | apply Forall_check
    | discriminate
    | (constructor; [reflexivity|constructor])
    | constructor ].

Lemma job_uploaded w videoJobId style resolution segments t url :
  job w videoJobId style resolution segments = (t, Ok url) -> upload w = inr url.
Proof.
  unfold job. intros H.
  destruct (download_all w segments) as [t1 [d| |]]; try discriminate H. rewrite bind_Ok in H.
  destruct (subtitle_results w style 0 d) as [t2 [rs| |]]; try discriminate H.
  rewrite bind_Ok in H. cbn [fst snd] in H.
  destruct (validate_durations _ _) as [t3 [[]| |]]; try discriminate H.
  rewrite bind_Ok in H. cbn [fst snd] in H.
  destruct (compose _ _ _ _) as [t4 [p| |]]; try discriminate H.
  rewrite bind_Ok in H. cbn [fst snd] in H.
  destruct (upload w) as [e|u]; cbn in H; [discriminate|]. now injection H as _ <-.
Qed.

(** The five ways through the head of the handler. *)
Lemma handler_cases w req :
  (valid_jobId (get (request_body req) "jobId") = None
   /\ handler w req
      = {| trace := []; outcome := Responded 400 (ErrorBody "jobId required in request body") |})
  \/ (exists e,
        globalSubtitleStyle w (get (request_body req) "subtitlePreset")
          (get (request_body req) "subtitleStyle") = inl e
        /\ handler w req = {| trace := []; outcome := Unhandled e |})
  \/ (raw_segments (request_body req) = None
      /\ handler w req
         = {| trace := []; outcome := Responded 400 (ErrorBody "segments array required") |})
  \/ (exists e, mkdir_session w = Some e
                /\ handler w req = {| trace := []; outcome := Unhandled e |})
  \/ (exists videoJobId style rawSegments,
        accepted w req videoJobId style rawSegments
        /\ handler w req
           = {| trace := EMkdir (sessionDir w)
                         :: trace (finish w videoJobId
                                     (job w videoJobId style (request_resolution req)
                                        (map normalize rawSegments)));
                outcome := outcome (finish w videoJobId
                                      (job w videoJobId style (request_resolution req)
                                         (map normalize rawSegments))) |}).
Proof.
  unfold handler, accepted.
  destruct (valid_jobId _) as [jid|] eqn:Hj; [|now left].
  destruct (globalSubtitleStyle _ _ _) as [e|style] eqn:Hg; [right; left; eauto|].
  destruct (raw_segments _) as [raws|] eqn:Hr; [|right; right; left; auto].
  destruct (mkdir_session w) as [e|] eqn:Hm; [right; right; right; left; eauto|].
  right; right; right; right. exists jid, style, raws. auto.
Qed.

Lemma valid_jobId_verbatim v s : valid_jobId v = Some s -> v = VStr s.
Proof.
  destruct v; cbn; try discriminate. destruct (all_spaces s0); [discriminate|]. now intros [= ->].
Qed.

(** X1: Every response of the handler is of one of three kinds.  A 400
    carries one of two messages and is sent before anything is done; a
    request whose [jobId] is missing, is not a string or is blank gets the
    first of them whatever else it holds.  A 200 carries the [jobId] of
    the request, character for character, and the URL the upload
    returned.  A 500 carries [Video generation failed] and, as its
    details, the error caught outside production and [Internal server
    error] in production. *)
Theorem handler_responses (w : World) (req : Value) :
  (forall status body,
      outcome (handler w req) = Responded status body ->
      (status = 400
       /\ trace (handler w req) = []
       /\ (body = ErrorBody "jobId required in request body"
           \/ body = ErrorBody "segments array required"))
      \/ (status = 200
          /\ exists videoJobId url,
               body = ResultBody videoJobId url
               /\ get (request_body req) "jobId" = VStr videoJobId
               /\ upload w = inr url)
      \/ (status = 500
          /\ exists e, body = FailureBody "Video generation failed" (failure_details w e)))
  /\ (valid_jobId (get (request_body req) "jobId") = None ->
      handler w req
      = {| trace := [];
           outcome := Responded 400 (ErrorBody "jobId required in request body") |}).
Proof.
  split.
  - destruct (handler_cases w req)
      as [[Hj ->]|[(e & Hg & ->)|[[Hr ->]|[(e & Hm & ->)|(jid & style & raws & Hacc & ->)]]]];
      cbn [outcome trace]; try discriminate.
    + intros status body [= <- <-]. left. auto.
    + intros status body [= <- <-]. left. auto.
    + destruct Hacc as (Hj & _).
      pose proof (job_uploaded w jid style (request_resolution req) (map normalize raws)) as Hu.
      destruct (job _ _ _ _ _) as [t [url|e|]]; cbn [finish outcome]; [| |discriminate].
      * intros status body [= <- <-]. right; left. split; [reflexivity|].
        exists jid, url. split; [reflexivity|]. split; [|apply (Hu t), eq_refl].
        now apply valid_jobId_verbatim.
      * intros status body [= <- <-]. right; right. split; [reflexivity|]. now exists e.
  - intros Hj. unfold handler. now rewrite Hj.
Qed.

(** ** The handler: the session directory *)

Lemma subtitle_results_no_removal w style segs : forall i,
  Forall (fun ev => is_removal ev = false) (fst (subtitle_results w style i segs)).
Proof.
  induction segs as [|seg segs IH]; intros i; cbn [subtitle_results]; [constructor|].
  job_step; [|job_step; [apply IH|constructor]].
  destruct (wants_subtitles seg); [|constructor].
  destruct (subtitleHelpers w); repeat job_step.
Qed.

Lemma createSegmentVideo_no_removal w i seg out resolution :
  Forall (fun ev => is_removal ev = false) (fst (createSegmentVideo w i seg out resolution)).
Proof.
  unfold createSegmentVideo, timed_out. job_step; [repeat constructor|].
  destruct (parse_resolution _ _) as [[wd ht]|]; [|constructor].
  job_step; [repeat constructor|].
  destruct (segment_run w i) as [e|ms|ms e|]; try destruct (ms <? _); repeat job_step.
Qed.

Lemma encode_segments_no_removal w dir resolution segs : forall i,
  Forall (fun ev => is_removal ev = false) (fst (encode_segments w dir resolution i segs)).
Proof.
  induction segs as [|seg segs IH]; intros i; cbn [encode_segments]; [constructor|].
  job_step; [apply createSegmentVideo_no_removal|].
  job_step; [apply IH|constructor].
Qed.

Lemma compose_no_removal w dir resolution segs :
  Forall (fun ev => is_removal ev = false) (fst (compose w dir resolution segs)).
Proof.
  unfold compose. job_step.
  - unfold createVideoFromSegments. job_step; [repeat constructor|].
    destruct segs; [constructor|].
    destruct (parse_resolution _ _) as [[wd ht]|]; repeat job_step.
  - job_step; [apply encode_segments_no_removal|].
    unfold concatVideos. repeat job_step.
Qed.

Lemma job_no_removal w videoJobId style resolution segments :
  Forall (fun ev => is_removal ev = false)
    (fst (job w videoJobId style resolution segments)).
Proof.
  unfold job. job_step; [rewrite download_all_trace; constructor|].
  job_step; [apply subtitle_results_no_removal|].
  job_step; [unfold validate_durations; destruct (findIndex _ _); constructor|].
  job_step; [apply compose_no_removal|].
  repeat job_step.
Qed.

(** X2: The session directory over one request.  A request answered 400,
    or whose handler threw before the [try] block, touched nothing; every
    other request had the directory made first.  After a 200 response the
    removal of the directory is the last effect, and nothing was removed
    before it.  After a 500 response outside production nothing is removed
    at all: the files stay for debugging.  In production, a job that fails
    once its images are all downloaded (in the subtitle stage, the
    validation, the composition or the upload) ends with the removal of
    the directory, nothing having been removed before.  A job that fails
    on a download is left out here: its other downloads may still be
    under way and are no effects of this trace. *)
Theorem session_directory_lifecycle (w : World) (req : Value) :
  (forall body, outcome (handler w req) = Responded 400 body -> trace (handler w req) = [])
  /\ (forall e, outcome (handler w req) = Unhandled e -> trace (handler w req) = [])
  /\ (forall body,
        outcome (handler w req) = Responded 200 body ->
        exists t, trace (handler w req) = EMkdir (sessionDir w) :: t ++ [ERm (sessionDir w)]
                  /\ Forall (fun ev => is_removal ev = false) t)
  /\ (forall body,
        outcome (handler w req) = Responded 500 body ->
        production w = false ->
        exists t, trace (handler w req) = EMkdir (sessionDir w) :: t
                  /\ Forall (fun ev => is_removal ev = false) t)
  /\ (forall body videoJobId style rawSegments downloaded,
        outcome (handler w req) = Responded 500 body ->
        production w = true ->
        accepted w req videoJobId style rawSegments ->
        download_all w (map normalize rawSegments) = ([], Ok downloaded) ->
        exists t, trace (handler w req) = EMkdir (sessionDir w) :: t ++ [ERm (sessionDir w)]
                  /\ Forall (fun ev => is_removal ev = false) t).
Proof.
  destruct (handler_cases w req)
    as [[Hj ->]|[(e & Hg & ->)|[[Hr ->]|[(e & Hm & ->)|(jid & style & raws & Hacc & ->)]]]];
    cbn [outcome trace]; try (repeat split; intros; (discriminate || reflexivity)).
  pose proof (job_no_removal w jid style (request_resolution req) (map normalize raws)) as Hq.
  destruct (job _ _ _ _ _) as [t [url|e|]]; cbn [finish outcome trace fst] in *.
  - split; [intros; discriminate|]. split; [intros; discriminate|].
    split; [intros body _; eauto|]. split; intros; discriminate.
  - split; [intros; discriminate|]. split; [intros; discriminate|].
    split; [intros; discriminate|]. split.
    + intros body _ Hp. rewrite Hp, app_nil_r. eauto.
    + intros body jid' style' raws' d _ Hp _ _. rewrite Hp. eauto.
  - repeat split; intros; discriminate.
Qed.

(** ** The fetcher: bounds *)

Lemma loop_result answers url retries retryDelay fuel : forall a slept r,
  Download.loop fuel answers url retries retryDelay a slept = Some r ->
  a < Download.attempts r <= Z.max (a + 1) (retries + 1)
  /\ Download.delays r
     = slept ++ Download.backoff_from retryDelay a (Z.to_nat (Download.attempts r - a - 1))
  /\ Download.failure r = Download.failure_at answers url (Download.attempts r)
  /\ (forall j, a < j < Download.attempts r -> Download.retryable_failure (answers j)).
Proof.
  induction fuel as [|fuel IH]; intros a slept r Hl; cbn in Hl; [discriminate|].
  assert (Hstop : forall f,
            Download.failure_at answers url (a + 1) = f ->
            Some {| Download.failure := f; Download.attempts := a + 1;
                    Download.delays := slept |} = Some r ->
            a < Download.attempts r <= Z.max (a + 1) (retries + 1)
            /\ Download.delays r
               = slept ++ Download.backoff_from retryDelay a
                            (Z.to_nat (Download.attempts r - a - 1))
            /\ Download.failure r = Download.failure_at answers url (Download.attempts r)
            /\ (forall j, a < j < Download.attempts r ->
                          Download.retryable_failure (answers j))).
  { intros f Hf [= <-]. cbn. split; [lia|].
    replace (a + 1 - a - 1) with 0 by lia. cbn. rewrite app_nil_r.
    split; [reflexivity|]. split; [now symmetry|]. intros j Hj. lia. }
  unfold Download.failure_at in Hstop.
  destruct (Download.caught_status (answers (a + 1))) as [st|] eqn:Hc;
    [|apply (Hstop None); auto].
  destruct (Download.non_retryable st) eqn:Hn; [eapply Hstop; eauto|].
  destruct (a + 1 >? retries) eqn:Hgt; [eapply Hstop; eauto|].
  apply IH in Hl. destruct Hl as (Ha & Hd & Hf & Hr).
  split; [lia|]. split; [|split; [exact Hf|]].
  - rewrite Hd, <- app_assoc. f_equal.
    replace (Z.to_nat (Download.attempts r - a - 1))
      with (S (Z.to_nat (Download.attempts r - (a + 1) - 1))) by lia.
    now rewrite backoff_from_S.
  - intros j Hj. destruct (Z.eq_dec j (a + 1)) as [->|Hne].
    + exists st. auto.
    + apply Hr. lia.
Qed.

(** X3: Whatever the server and the network do, one call of
    [downloadFileToPath] makes at least one and at most [retries + 1]
    requests (one when [retries] is zero or negative); it sleeps
    [retryDelay * 1], [retryDelay * 2], ... between them and never after
    the last; every request before the last failed in a way the loop
    retries; and the call returns exactly when the last request's pass
    reached [return], its error otherwise carrying the URL and the status
    of that last request. *)
Theorem downloadFileToPath_bounded
  (answers : Z -> Download.Attempt) (url : Value) (retries retryDelay : Z) :
  exists r,
    Download.downloadFileToPath answers url retries retryDelay = Some r
    /\ 1 <= Download.attempts r <= Z.max 1 (retries + 1)
    /\ Download.delays r = Download.backoff retryDelay (Z.to_nat (Download.attempts r - 1))
    /\ Z.of_nat (length (Download.delays r)) = Download.attempts r - 1
    /\ (forall j, 1 <= j < Download.attempts r -> Download.retryable_failure (answers j))
    /\ Download.failure r = Download.failure_at answers url (Download.attempts r)
    /\ (forall e, Download.failure r = Some e -> Download.e_url e = url).
Proof.
  destruct (loop_total answers url retries retryDelay (Z.to_nat retries) 0 [])
    as [r Hr]; [lia|].
  exists r. split; [exact Hr|].
  apply loop_result in Hr. destruct Hr as (Ha & Hd & Hf & Hq).
  split; [lia|]. cbn [app] in Hd.
  replace (Download.attempts r - 0 - 1) with (Download.attempts r - 1) in Hd by lia.
  split; [exact Hd|].
  split.
  { rewrite Hd. unfold Download.backoff_from. rewrite length_map, length_seq. lia. }
  split; [intros j Hj; apply Hq; lia|]. split; [exact Hf|].
  intros e He. rewrite Hf in He. unfold Download.failure_at in He.
  destruct (Download.caught_status _); [|discriminate]. cbn in He. now injection He as <-.
Qed.

(** ** The handler: a download that fails *)

Lemma download_task_rejected w i seg e :
  download_task w (i, seg) = Limiter.Rejected e ->
  exists status,
    e = DownloadFailed {| Download.e_status := status; Download.e_url := seg_imageUrl seg |}.
Proof.
  unfold download_task, Download.downloadFileToPath.
  destruct (loop_total (server_answers w i) (seg_imageUrl seg) Download.default_retries
              Download.default_retryDelay (Z.to_nat Download.default_retries) 0 [])
    as [r Hr]; [lia|].
  rewrite Hr. apply loop_result in Hr. destruct Hr as (_ & _ & Hf & _).
  destruct (Download.failure r) as [[st u]|] eqn:He; [|discriminate].
  intros [= <-]. exists st. f_equal. f_equal.
  unfold Download.failure_at in Hf.
  destruct (Download.caught_status _); [|discriminate]. now injection Hf as _ ->.
Qed.

(** X4: When the image of some segment cannot be downloaded, the job fails
    as a whole: the handler answers 500 with the download error of a
    segment whose download failed, and beside the downloads it has only
    made the session directory (and removed it, in production): no
    subtitle file, no ffmpeg run, no upload. *)
Theorem download_failure_fails_job
  (w : World) (req : Value) (videoJobId : string) (style : Value)
  (rawSegments : list Value) (i : nat) (seg : Segment) (e : Error) :
  accepted w req videoJobId style rawSegments ->
  map normalize rawSegments !! i = Some seg ->
  download_task w (i, seg) = Limiter.Rejected e ->
  exists j seg' status,
    map normalize rawSegments !! j = Some seg'
    /\ download_task w (j, seg')
       = Limiter.Rejected
           (DownloadFailed {| Download.e_status := status;
                              Download.e_url := seg_imageUrl seg' |})
    /\ handler w req
       = {| trace := EMkdir (sessionDir w)
                     :: (if production w then [ERm (sessionDir w)] else []);
            outcome :=
              Responded 500
                (FailureBody "Video generation failed"
                   (failure_details w
                      (DownloadFailed {| Download.e_status := status;
                                         Download.e_url := seg_imageUrl seg' |}))) |}.
Proof.
  intros Hacc Hs He.
  destruct (handler_cases w req)
    as [[Hj _]|[(e1 & Hg & _)|[[Hr _]|[(e1 & Hm & _)|(jid & st & raws & Hacc' & ->)]]]];
    destruct Hacc as (Hj' & Hg' & Hr' & Hm'); try congruence.
  destruct Hacc' as (Hj'' & Hg'' & Hr'' & _).
  assert (jid = videoJobId) as -> by congruence.
  assert (st = style) as -> by congruence.
  assert (raws = rawSegments) as -> by congruence.
  destruct (download_all_cases w (map normalize rawSegments))
    as [[_ Hall]|(e' & j & seg' & Hd & Hs' & He')].
  { destruct (Hall _ _ Hs) as [v Hv]. congruence. }
  destruct (download_task_rejected _ _ _ _ He') as [status ->].
  exists j, seg', status. split; [exact Hs'|]. split; [exact He'|].
  unfold job. rewrite Hd, bind_Throw. cbn [finish trace outcome app].
  unfold failure_details. reflexivity.
Qed.

(** A 404 for the second image of the README's request, in production. *)
Lemma download_failure_fails_job_witness :
  accepted missing_image_world example_request "job-123" VNull
    [example_segment "https://example.com/image1.jpg" 3;
     example_segment "https://example.com/image2.jpg" 4]
  /\ handler missing_image_world example_request
     = {| trace := [EMkdir "/app/temp/session-1"; ERm "/app/temp/session-1"];
          outcome := Responded 500 (FailureBody "Video generation failed" InternalServerError) |}.
Proof.
  assert (Hacc : accepted missing_image_world example_request "job-123" VNull
                   [example_segment "https://example.com/image1.jpg" 3;
                    example_segment "https://example.com/image2.jpg" 4]).
  { repeat split. }
  split; [exact Hacc|].
  destruct (download_failure_fails_job missing_image_world example_request "job-123" VNull _
              1%nat (normalize (example_segment "https://example.com/image2.jpg" 4))
              (DownloadFailed {| Download.e_status := Some 404;
                                 Download.e_url := VStr "https://example.com/image2.jpg" |})
              Hacc eq_refl eq_refl)
    as (j & seg' & status & _ & _ & ->).
  reflexivity.
Defined.

(** ** The handler: which composition runs *)

Lemma raw_segments_nonempty body raws : raw_segments body = Some raws -> raws <> [].
Proof.
  unfold raw_segments. destruct (get body "segments") as [| | | | |[|s rest]|]; try discriminate.
  now intros [= <-].
Qed.

Lemma length_downloaded_in_order w segments :
  length (downloaded_in_order w segments) = length segments.
Proof. unfold downloaded_in_order. apply length_imap. Qed.

(** The segments that reach validation are as many as the request's. *)
Lemma reaches_validation_length w req videoJobId t segs :
  reaches_validation w req videoJobId t segs ->
  exists rawSegments,
    raw_segments (request_body req) = Some rawSegments
    /\ length segs = length rawSegments /\ segs <> [].
Proof.
  intros (style & raws & _ & _ & Hr & _ & Hp). exists raws. split; [exact Hr|].
  apply prepare_inv in Hp. destruct Hp as (downloaded & rs & Hd & Hs & ->).
  apply download_all_ordered in Hd. apply subtitle_results_length in Hs.
  assert (Hlen : length (update_durations downloaded rs) = length raws).
  { unfold update_durations. rewrite length_zip_with, Hs, Hd, length_downloaded_in_order,
      length_map. lia. }
  split; [exact Hlen|]. intros E. rewrite E in Hlen.
  apply raw_segments_nonempty in Hr. destruct raws; [congruence|discriminate].
Qed.

Lemma not_render_work_quiet ev :
  is_render_work ev = false -> segment_work ev = None /\ is_concat ev = false.
Proof.
  destruct ev as [d|c|cmd|i cmd|i|p l|l o|d]; try destruct c; cbn; intros H;
    try discriminate; auto.
Qed.

Lemma render_work_of_fallback ev :
  segment_work ev <> None \/ is_concat ev = true \/ (exists i, ev = EKill i) ->
  is_render_work ev = true.
Proof.
  destruct ev as [d|c|cmd|i cmd|i|p l|l o|d]; try destruct c; cbn;
    intros [H|[H|[j H]]]; congruence.
Qed.

Lemma handler_publish w req videoJobId t segs tp r :
  reaches_validation w req videoJobId t segs ->
  publish w videoJobId (request_resolution req) segs = (tp, r) ->
  handler w req
  = {| trace := EMkdir (sessionDir w) :: trace (finish w videoJobId (t ++ tp, r));
       outcome := outcome (finish w videoJobId (t ++ tp, r)) |}.
Proof.
  intros Hv Hp. rewrite (handler_reaches_validation _ _ _ _ _ Hv), bind_Ok, Hp. reflexivity.
Qed.

(** X5: When the single ffmpeg run ends without an error, the video is
    composed by that one run: the handler calls [createVideoFromSegments]
    on the validated segments, runs its command once and uploads
    [final.mp4] of the session directory under the job id; no per-segment
    render and no concat is ever started.  The response is 200 with the
    URL of the upload, or 500 when the upload fails. *)
Theorem single_run_composes_alone
  (w : World) (req : Value) (videoJobId : string) (t : list Effect)
  (segs : list Downloaded) (width height : Num) :
  reaches_validation w req videoJobId t segs ->
  findIndex (missing_duration (rt w)) segs = None ->
  parse_resolution (rt w) (request_resolution req) = Some (width, height) ->
  fast_run w = None ->
  trace (handler w req)
  = EMkdir (sessionDir w)
    :: t ++ [ECall (CreateVideoFromSegments segs);
             ERunFast (fast_command w segs (join (sessionDir w) "final.mp4") width height);
             ECall (UploadVideoToSupabase (join (sessionDir w) "final.mp4") videoJobId)]
         ++ match upload w with
            | inr _ => [ERm (sessionDir w)]
            | inl _ => if production w then [ERm (sessionDir w)] else []
            end
  /\ outcome (handler w req)
     = match upload w with
       | inr url => Responded 200 (ResultBody videoJobId url)
       | inl e => Responded 500 (FailureBody "Video generation failed" (failure_details w e))
       end
  /\ Forall (fun ev => segment_work ev = None /\ is_concat ev = false) (trace (handler w req)).
Proof.
  intros Hv Hf Hp Hr.
  destruct (reaches_validation_length _ _ _ _ _ Hv) as (raws & _ & _ & Hne).
  assert (Hquiet : Forall (fun ev => segment_work ev = None /\ is_concat ev = false) t).
  { destruct Hv as (style & raws' & _ & _ & _ & _ & Hprep).
    pose proof (prepare_trace w style (map normalize raws')) as Ht. rewrite Hprep in Ht.
    cbn in Ht. eapply Forall_impl; [exact Ht|]. apply not_render_work_quiet. }
  assert (Hc : compose w (sessionDir w) (request_resolution req) segs
               = ([ECall (CreateVideoFromSegments segs);
                   ERunFast (fast_command w segs (join (sessionDir w) "final.mp4") width height)],
                  Ok (join (sessionDir w) "final.mp4"))).
  { unfold compose, createVideoFromSegments. destruct segs as [|s0 segs]; [congruence|].
    rewrite Hp, Hr. reflexivity. }
  assert (Hpub : publish w videoJobId (request_resolution req) segs
                 = ([ECall (CreateVideoFromSegments segs);
                     ERunFast (fast_command w segs (join (sessionDir w) "final.mp4")
                                 width height);
                     ECall (UploadVideoToSupabase (join (sessionDir w) "final.mp4") videoJobId)],
                    match upload w with inr url => Ok url | inl e => Throw e end)).
  { unfold publish, validate_durations. rewrite Hf, Hc. destruct (upload w); reflexivity. }
  rewrite (handler_publish _ _ _ _ _ _ _ Hv Hpub).
  destruct (upload w) as [e|url]; cbn [finish trace outcome]; rewrite <- ?app_assoc;
    (split; [reflexivity|]); (split; [reflexivity|]);
    constructor; try (split; reflexivity);
    apply Forall_app; (split; [exact Hquiet|]);
    repeat (constructor; [split; reflexivity|]);
    try destruct (production w); repeat constructor.
Qed.

Lemma single_run_composes_alone_witness :
  reaches_validation calm_world example_request "job-123" [] example_downloaded
  /\ outcome (handler calm_world example_request)
     = Responded 200 (ResultBody "job-123" (VStr "https://storage.example/videos/job-123.mp4"))
  /\ Forall (fun ev => segment_work ev = None /\ is_concat ev = false)
       (trace (handler calm_world example_request)).
Proof.
  assert (Hv : reaches_validation calm_world example_request "job-123" [] example_downloaded).
  { exists VNull, [example_segment "https://example.com/image1.jpg" 3;
                   example_segment "https://example.com/image2.jpg" 4].
    repeat split. }
  split; [exact Hv|].
  destruct (single_run_composes_alone calm_world example_request "job-123" [] example_downloaded
              (num_of_Z 1280) (num_of_Z 720) Hv eq_refl eq_refl eq_refl) as (_ & Ho & Hq).
  split; [exact Ho | exact Hq].
Defined.

(** X6: The per-segment renders and the concat are a fallback only: whenever
    one of them appears among the effects of a request, the single run
    was tried first on the same validated segments and threw. *)
Theorem fallback_only_after_single_run_failed (w : World) (req : Value) (ev : Effect) :
  In ev (trace (handler w req)) ->
  segment_work ev <> None \/ is_concat ev = true \/ (exists i, ev = EKill i) ->
  exists videoJobId t segs tf e,
    reaches_validation w req videoJobId t segs
    /\ findIndex (missing_duration (rt w)) segs = None
    /\ createVideoFromSegments w segs (join (sessionDir w) "final.mp4") (request_resolution req)
       = (tf, Throw e)
    /\ In (ECall (CreateVideoFromSegments segs)) (trace (handler w req)).
Proof.
  intros Hin Hev.
  pose proof (render_work_of_fallback _ Hev) as Hw.
  destruct (render_work_inversion _ _ _ Hin Hw) as (jid & t & segs & Hv & Hp).
  exists jid, t, segs.
  destruct (publish_events _ _ _ _ _ Hp) as [Hf [Hc|Hu]].
  2:{ destruct ev as [d|c|cmd|i cmd|i|p l|l o|d]; try discriminate.
      destruct c; try discriminate.
      destruct Hev as [H|[H|[i H]]]; cbn in *; congruence. }
  unfold compose in Hc. apply try_catch_trace in Hc.
  destruct Hc as [Hc|(e & He & _)].
  { apply createVideoFromSegments_events in Hc. destruct Hc as [->|[cmd ->]];
      destruct Hev as [H|[H|[i H]]]; cbn in *; congruence. }
  destruct (createVideoFromSegments w segs _ _) as [tf r] eqn:Hcv. cbn in He. subst r.
  exists tf, e. split; [exact Hv|]. split; [exact Hf|]. split; [reflexivity|].
  destruct (publish w jid (request_resolution req) segs) as [tp r] eqn:Hpub.
  rewrite (handler_publish _ _ _ _ _ _ _ Hv Hpub). cbn [trace]. right.
  assert (Hcall : In (ECall (CreateVideoFromSegments segs)) tp).
  { pose proof (publish_trace w jid (request_resolution req) segs) as Ht.
    rewrite Hpub, Hf in Ht. cbn [fst] in Ht. rewrite Ht. apply in_app_iff. left.
    unfold compose. rewrite Hcv. cbn [try_catch].
    destruct (bind _ _) as [t' r']. cbn [fst]. apply in_app_iff. left.
    unfold createVideoFromSegments in Hcv.
    destruct segs as [|s0 segs'].
    - injection Hcv as <- _. now left.
    - destruct (parse_resolution _ _) as [[wd ht]|].
      + destruct (fast_run w); injection Hcv as <- _; now left.
      + injection Hcv as <- _. now left. }
  destruct r as [url|e'|]; cbn [finish trace]; rewrite ?in_app_iff; auto.
Qed.

(** The fallback of [reordered_world] ran after its single run failed. *)
Lemma fallback_only_after_single_run_failed_witness :
  In (ERunConcat "/app/temp/session-1/filelist.txt" "/app/temp/session-1/final.mp4")
     (trace (handler reordered_world example_request))
  /\ exists segs tf e,
       createVideoFromSegments reordered_world segs
         (join (sessionDir reordered_world) "final.mp4") (request_resolution example_request)
       = (tf, Throw e)
       /\ In (ECall (CreateVideoFromSegments segs))
             (trace (handler reordered_world example_request)).
Proof.
  assert (Hin : In (ERunConcat "/app/temp/session-1/filelist.txt"
                      "/app/temp/session-1/final.mp4")
                   (trace (handler reordered_world example_request))).
  { vm_compute. tauto. }
  split; [exact Hin|].
  destruct (fallback_only_after_single_run_failed reordered_world example_request _ Hin)
    as (jid & t & segs & tf & e & _ & _ & Hc & Hcall).
  { right; left. reflexivity. }
  exists segs, tf, e. split; [exact Hc | exact Hcall].
Defined.

(** ** The handler: a resolution that is not a string *)

(** X7: [resolution] is read with [resolution.split("x")] by both composition
    functions, and the handler passes on whatever the request holds: when
    that is not a string (a number, [null], an array, an object), the
    images are downloaded and validated, the single run throws a
    TypeError before it builds a command, the fallback throws the same at
    its first segment, and the job is answered 500.  No ffmpeg process is
    ever started and nothing is uploaded. *)
Theorem resolution_not_a_string_fails_job
  (w : World) (req : Value) (videoJobId : string) (t : list Effect) (segs : list Downloaded) :
  reaches_validation w req videoJobId t segs ->
  findIndex (missing_duration (rt w)) segs = None ->
  (forall s, request_resolution req <> VStr s) ->
  exists seg0 message,
    segs !! 0%nat = Some seg0
    /\ trace (handler w req)
       = EMkdir (sessionDir w)
         :: t ++ [ECall (CreateVideoFromSegments segs); ECall (CreateSegmentVideo 0 seg0)]
              ++ (if production w then [ERm (sessionDir w)] else [])
    /\ outcome (handler w req)
       = Responded 500
           (FailureBody "Video generation failed" (failure_details w (TypeError message)))
    /\ Forall (fun ev => is_ffmpeg_run ev = false /\ is_upload ev = false)
         (trace (handler w req)).
Proof.
  intros Hv Hf Hres.
  destruct (reaches_validation_length _ _ _ _ _ Hv) as (raws & _ & _ & Hne).
  destruct segs as [|seg0 segs']; [congruence|].
  assert (Hp : parse_resolution (rt w) (request_resolution req) = None).
  { destruct (request_resolution req); try reflexivity. now elim (Hres s). }
  exists seg0, "resolution.split is not a function"%string. split; [reflexivity|].
  assert (Hpub : publish w videoJobId (request_resolution req) (seg0 :: segs')
                 = ([ECall (CreateVideoFromSegments (seg0 :: segs'));
                     ECall (CreateSegmentVideo 0 seg0)],
                    Throw (TypeError "resolution.split is not a function"))).
  { unfold publish, validate_durations. rewrite Hf.
    unfold compose, createVideoFromSegments. rewrite Hp. cbn [encode_segments].
    unfold createSegmentVideo. rewrite Hp. reflexivity. }
  rewrite (handler_publish _ _ _ _ _ _ _ Hv Hpub). cbn [finish trace outcome].
  rewrite <- app_assoc. split; [reflexivity|]. split; [reflexivity|].
  constructor; [split; reflexivity|]. apply Forall_app. split.
  - destruct Hv as (style & raws' & _ & _ & _ & _ & Hprep).
    pose proof (prepare_trace w style (map normalize raws')) as Ht. rewrite Hprep in Ht.
    cbn in Ht. eapply Forall_impl; [exact Ht|].
    intros ev. destruct ev as [d|c|cmd|i cmd|i|p l|l o|d]; try destruct c; cbn; intros H;
      try discriminate; auto.
  - repeat (constructor; [split; reflexivity|]).
    destruct (production w); repeat constructor.
Qed.

Lemma resolution_not_a_string_fails_job_witness :
  reaches_validation calm_world numeric_resolution_request "job-123" [] example_downloaded
  /\ (forall s, request_resolution numeric_resolution_request <> VStr s)
  /\ exists message,
       outcome (handler calm_world numeric_resolution_request)
       = Responded 500 (FailureBody "Video generation failed" (Message (TypeError message))).
Proof.
  assert (Hv : reaches_validation calm_world numeric_resolution_request "job-123" []
                 example_downloaded).
  { exists VNull, [example_segment "https://example.com/image1.jpg" 3;
                   example_segment "https://example.com/image2.jpg" 4].
    repeat split. }
  assert (Hr : forall s, request_resolution numeric_resolution_request <> VStr s)
    by (intros s; discriminate).
  split; [exact Hv|]. split; [exact Hr|].
  destruct (resolution_not_a_string_fails_job calm_world numeric_resolution_request "job-123" []
              example_downloaded Hv eq_refl Hr) as (seg0 & message & _ & _ & Ho & _).
  exists message. exact Ho.
Defined.

(** ** The handler: subtitle data without the subtitle helpers *)

Lemma subtitle_results_without_helpers w style segs : forall i,
  subtitleHelpers w = None ->
  subtitle_results w style i segs
  = if existsb wants_subtitles segs
    then ([], Throw (ReferenceError "createSubtitleFile"))
    else ([], Ok (map (fun _ => no_subtitles) segs)).
Proof.
  intros i Hh. revert i.
  induction segs as [|seg segs IH]; intros i; cbn [subtitle_results existsb map]; [reflexivity|].
  rewrite Hh. destruct (wants_subtitles seg); cbn [orb]; [reflexivity|].
  change (bind (ret no_subtitles) ?k) with (bind (([], Ok no_subtitles) : M SubtitleResult) k).
  rewrite bind_Ok, IH. destruct (existsb wants_subtitles segs); reflexivity.
Qed.

Lemma wants_subtitles_in_order w segments :
  existsb wants_subtitles (downloaded_in_order w segments) = existsb has_subtitle_data segments.
Proof.
  unfold downloaded_in_order.
  enough (H : forall k,
            existsb wants_subtitles
              (imap (fun i seg => {| imagePath := imgPath w (k + i) seg;
                                     duration := seg_duration seg;
                                     subtitleText := seg_subtitleText seg;
                                     word_duration := seg_word_duration seg |}) segments)
            = existsb has_subtitle_data segments) by apply (H 0%nat).
  induction segments as [|seg segments IH]; intros k; cbn; [reflexivity|].
  f_equal. rewrite <- (IH (S k)). f_equal. apply imap_ext. intros i x _. cbn.
  f_equal. f_equal. lia.
Qed.

(** X8: server.js calls [createSubtitleFile] for every segment that has a
    subtitle text or word timings, and its import of the subtitle helpers
    is commented out.  So, in the module as it stands, a job in which any
    segment carries subtitle data fails once its images are downloaded:
    the call throws a ReferenceError inside the [try] block and the
    handler answers 500, with no ffmpeg run and no upload.  A job whose
    segments carry none is not affected. *)
Theorem subtitle_data_fails_without_helpers
  (w : World) (req : Value) (videoJobId : string) (style : Value) (rawSegments : list Value) :
  subtitleHelpers w = None ->
  accepted w req videoJobId style rawSegments ->
  (forall i seg, map normalize rawSegments !! i = Some seg ->
     exists v, download_task w (i, seg) = Limiter.Fulfilled v) ->
  (existsb has_subtitle_data (map normalize rawSegments) = true ->
   handler w req
   = {| trace := EMkdir (sessionDir w) :: (if production w then [ERm (sessionDir w)] else []);
        outcome :=
          Responded 500
            (FailureBody "Video generation failed"
               (failure_details w (ReferenceError "createSubtitleFile"))) |})
  /\ (existsb has_subtitle_data (map normalize rawSegments) = false ->
      reaches_validation w req videoJobId []
        (downloaded_in_order w (map normalize rawSegments))).
Proof.
  intros Hh Hacc Hall.
  assert (Hd : download_all w (map normalize rawSegments)
               = ([], Ok (downloaded_in_order w (map normalize rawSegments)))).
  { destruct (download_all_cases w (map normalize rawSegments))
      as [[Hd _]|(e & i & seg & _ & Hs & He)]; [exact Hd|].
    destruct (Hall _ _ Hs) as [v Hv]. congruence. }
  pose proof (subtitle_results_without_helpers w style
                (downloaded_in_order w (map normalize rawSegments)) 0 Hh) as Hsub.
  rewrite wants_subtitles_in_order in Hsub.
  split; intros Hex; rewrite Hex in Hsub.
  - destruct (handler_cases w req)
      as [[Hj _]|[(e1 & Hg & _)|[[Hr _]|[(e1 & Hm & _)|(jid & st & raws & Hacc' & ->)]]]];
      destruct Hacc as (Hj' & Hg' & Hr' & Hm'); try congruence.
    destruct Hacc' as (Hj'' & Hg'' & Hr'' & _).
    assert (jid = videoJobId) as -> by congruence.
    assert (st = style) as -> by congruence.
    assert (raws = rawSegments) as -> by congruence.
    unfold job. rewrite Hd, bind_Ok, Hsub, bind_Throw. cbn [fst snd app finish trace outcome].
    unfold failure_details. reflexivity.
  - destruct Hacc as (Hj & Hg & Hr & Hm). exists style, rawSegments.
    repeat (split; [assumption|]).
    unfold prepare. rewrite Hd, bind_Ok, Hsub, bind_Ok. cbn [fst snd app ret].
    f_equal. f_equal. unfold update_durations.
    generalize (downloaded_in_order w (map normalize rawSegments)).
    intros l. induction l as [|x l IH]; cbn; [reflexivity|]. now rewrite IH.
Qed.

(** The request the README gives as its example is answered 500. *)
Lemma subtitle_data_fails_without_helpers_witness :
  subtitleHelpers calm_world = None
  /\ existsb has_subtitle_data (map normalize readme_segments) = true
  /\ handler calm_world readme_request
     = {| trace := [EMkdir "/app/temp/session-1"];
          outcome :=
            Responded 500
              (FailureBody "Video generation failed"
                 (Message (ReferenceError "createSubtitleFile"))) |}.
Proof.
  split; [reflexivity|]. split; [reflexivity|].
  refine (proj1 (subtitle_data_fails_without_helpers calm_world readme_request "job-123" VNull
                   readme_segments eq_refl _ _) eq_refl).
  - repeat split.
  - intros [|[|i]] seg Hs; cbn in Hs; try discriminate; injection Hs as <-;
      eexists; reflexivity.
Defined.

(** ** The single-run command *)

Lemma imap_index_seq {A} (l : list A) : forall k,
  imap (fun i _ => (k + i)%nat) l = seq k (length l).
Proof.
  induction l as [|x l IH]; intros k; cbn; [reflexivity|].
  rewrite Nat.add_0_r. f_equal. rewrite <- (IH (S k)).
  apply imap_ext. intros i y _. cbn. lia.
Qed.

(** [probeImage] gives both sides of a stream or no size at all: never a
    width without a height. *)
Lemma probeImage_sides w path :
  probeImage w path = (0, 0) \/ (fst (probeImage w path) <> 0 /\ snd (probeImage w path) <> 0).
Proof.
  unfold probeImage. destruct (ffprobe w path) as [streams|]; [|now left].
  destruct (find _ streams) as [vs|] eqn:Hf; [|now left].
  right. apply find_some in Hf. destruct Hf as [_ Hf].
  apply andb_true_iff in Hf. destruct Hf as [H1 H2].
  apply negb_true_iff in H1, H2. split; lia.
Qed.

(** X9: The filter graph [createVideoFromSegments] hands to ffmpeg is well
    formed for every list of segments and every probe result: it has one
    image input and one filter chain per segment and a concat of as many
    streams; chain [i] reads input [i], which is the image of segment
    [i], and writes label [i]; the concat reads the labels 0, 1, ... in
    order; and every chain, whether the probe of its image succeeded (an
    explicit scale) or failed (an aspect-preserving fit), pads to the same
    [width] x [height] frame.  The fit is used exactly when the probe gave
    no size. *)
Theorem fast_command_graph
  (w : World) (segs : list Downloaded) (out : string) (width height : Num) :
  length (inputs (fast_command w segs out width height)) = length segs
  /\ length (chains (fast_command w segs out width height)) = length segs
  /\ concat_n (fast_command w segs out width height) = length segs
  /\ concat_inputs (fast_command w segs out width height) = seq 0 (length segs)
  /\ fast_out (fast_command w segs out width height) = out
  /\ (forall i seg,
        segs !! i = Some seg ->
        exists f,
          option_map input_path (inputs (fast_command w segs out width height) !! i)
          = Some (imagePath seg)
          /\ chains (fast_command w segs out width height) !! i
             = Some {| chain_src := i; chain_filter := f; chain_out := i |}
          /\ padded_size f = (width, height)
          /\ (f = FitPad width height <-> probeImage w (imagePath seg) = (0, 0))).
Proof.
  unfold fast_command. cbn [inputs chains concat_n concat_inputs fast_out].
  split; [apply length_map|]. split; [apply length_imap|]. split; [reflexivity|].
  split; [apply (imap_index_seq segs 0)|]. split; [reflexivity|].
  intros i seg Hs.
  exists (videoFilter width height (probeImage w (imagePath seg))).
  split; [rewrite lookup_map, Hs; reflexivity|].
  split; [rewrite list_lookup_imap, Hs; cbn; rewrite lookup_map, Hs; reflexivity|].
  split; [apply padded_size_videoFilter|].
  destruct (probeImage_sides w (imagePath seg)) as [->|[Hw Hh]].
  - cbn. tauto.
  - destruct (probeImage w (imagePath seg)) as [iw ih]. cbn in Hw, Hh. unfold videoFilter.
    destruct (Z.eqb_spec iw 0); [contradiction|]. destruct (Z.eqb_spec ih 0); [contradiction|].
    cbn [orb]. destruct (scaled_size width height iw ih). split; [discriminate|].
    intros [= -> _]. contradiction.
Qed.

(** ** Durations on the two composition paths *)

(** X10: For a segment that passes validation, the single run limits its
    image input with [-t duration], whatever the duration; the fallback
    command has [-t duration] only when the duration is truthy
    ([if (duration)]), and its default of 3 seconds is never used.  So the
    two paths differ on a duration of zero, which passes validation: the
    single run gets [-t 0], the per-segment render no [-t] at all. *)
Theorem duration_option_on_both_paths
  (w : World) (segs : list Downloaded) (out : string) (width height : Num)
  (i : nat) (seg : Downloaded) :
  segs !! i = Some seg ->
  numeric_duration (rt w) (duration seg) = true ->
  option_map input_t (inputs (fast_command w segs out width height) !! i)
  = Some (Some (duration seg))
  /\ segment_t (segment_command seg out width height)
     = (if truthy (duration seg) then Some (duration seg) else None)
  /\ (forall s : bool,
        duration seg = VNum (S754_zero s) ->
        numeric_duration (rt w) (VNum (S754_zero s)) = true
        /\ segment_t (segment_command seg out width height) = None).
Proof.
  intros Hs Hn.
  split; [|split].
  - unfold fast_command. cbn [inputs]. rewrite lookup_map, Hs. cbn. now rewrite Hn.
  - unfold segment_command. cbn [segment_t].
    destruct (duration seg) eqn:Hd; try reflexivity. discriminate Hn.
  - intros s Hd. split; [reflexivity|].
    unfold segment_command. cbn [segment_t]. now rewrite Hd.
Qed.

Lemma duration_option_on_both_paths_witness :
  numeric_duration (rt calm_world) (VInt 0) = true
  /\ option_map input_t
       (inputs (fast_command calm_world
                  [{| imagePath := "/app/temp/session-1/img_0.jpg"; duration := VInt 0;
                      subtitleText := VUndef; word_duration := VUndef |}]
                  "/app/temp/session-1/final.mp4" (num_of_Z 1280) (num_of_Z 720)) !! 0%nat)
     = Some (Some (VInt 0))
  /\ segment_t (segment_command
                  {| imagePath := "/app/temp/session-1/img_0.jpg"; duration := VInt 0;
                     subtitleText := VUndef; word_duration := VUndef |}
                  "/app/temp/session-1/seg_0.mp4" (num_of_Z 1280) (num_of_Z 720))
     = None.
Proof.
  split; [reflexivity|].
  destruct (duration_option_on_both_paths calm_world
              [{| imagePath := "/app/temp/session-1/img_0.jpg"; duration := VInt 0;
                  subtitleText := VUndef; word_duration := VUndef |}]
              "/app/temp/session-1/final.mp4" (num_of_Z 1280) (num_of_Z 720) 0%nat _
              eq_refl eq_refl) as (Hfast & _ & _).
  split; [exact Hfast|]. reflexivity.
Defined.

(** ** CORS options *)

Lemma trim_start_empty s : Cors.trim_start s = EmptyString <-> all_spaces s = true.
Proof.
  induction s as [|c s IH]; cbn; [split; reflexivity|].
  destruct (is_space c); cbn; [exact IH|]. split; discriminate.
Qed.

Lemma trim_end_empty s : Cors.trim_end s = EmptyString <-> all_spaces s = true.
Proof.
  induction s as [|c s IH]; cbn; [split; reflexivity|].
  destruct (is_space c); cbn.
  - destruct (String.eqb_spec (Cors.trim_end s) "") as [E|E].
    + rewrite E in IH. tauto.
    + split; [discriminate|]. intros H. apply IH in H. contradiction.
  - split; discriminate.
Qed.

Lemma trim_start_head s :
  Cors.trim_start s = EmptyString
  \/ exists c rest, Cors.trim_start s = String c rest /\ is_space c = false.
Proof.
  induction s as [|c s IH]; cbn; [now left|].
  destruct (is_space c) eqn:E; [exact IH|]. right. eauto.
Qed.

Lemma trim_empty s : Cors.trim s = EmptyString <-> all_spaces s = true.
Proof.
  unfold Cors.trim. rewrite trim_end_empty, <- (trim_start_empty s).
  destruct (trim_start_head s) as [->|(c & rest & -> & Hc)]; cbn; [split; reflexivity|].
  rewrite Hc. cbn. split; discriminate.
Qed.

Lemma trim_start_end s : Cors.trim_start (Cors.trim_end s) = Cors.trim_end (Cors.trim_start s).
Proof.
  induction s as [|c s IH]; cbn [Cors.trim_start Cors.trim_end]; [reflexivity|].
  destruct (is_space c) eqn:Hc; cbn [andb].
  - destruct (String.eqb_spec (Cors.trim_end s) "") as [E|E].
    + rewrite <- IH, E. reflexivity.
    + cbn [Cors.trim_start]. rewrite Hc. exact IH.
  - cbn [Cors.trim_start Cors.trim_end]. rewrite Hc. reflexivity.
Qed.

Lemma trim_start_idempotent s : Cors.trim_start (Cors.trim_start s) = Cors.trim_start s.
Proof.
  destruct (trim_start_head s) as [->|(c & rest & -> & Hc)]; cbn; [reflexivity|].
  now rewrite Hc.
Qed.

Lemma trim_end_idempotent s : Cors.trim_end (Cors.trim_end s) = Cors.trim_end s.
Proof.
  induction s as [|c s IH]; cbn [Cors.trim_end]; [reflexivity|].
  destruct (is_space c && (Cors.trim_end s =? "")%string) eqn:E; [reflexivity|].
  cbn [Cors.trim_end]. rewrite IH, E. reflexivity.
Qed.

(** Trimming twice changes nothing: a trimmed string has no white space
    at either end. *)
Lemma trim_idempotent s : Cors.trim (Cors.trim s) = Cors.trim s.
Proof.
  unfold Cors.trim.
  rewrite trim_start_end, trim_start_idempotent, trim_end_idempotent. reflexivity.
Qed.

Lemma has_char_trim_start c s :
  has_char c (Cors.trim_start s) = true -> has_char c s = true.
Proof.
  induction s as [|d s IH]; cbn; [auto|].
  destruct (is_space d); cbn; [|auto].
  intros H. rewrite (IH H). apply orb_true_r.
Qed.

Lemma has_char_trim_end c s :
  has_char c (Cors.trim_end s) = true -> has_char c s = true.
Proof.
  induction s as [|d s IH]; cbn; [auto|].
  destruct (is_space d && _); cbn; [discriminate|].
  intros H. apply orb_true_iff in H. destruct H as [->|H]; [reflexivity|].
  rewrite (IH H). apply orb_true_r.
Qed.

Lemma split_comma_no_comma s :
  Forall (fun piece => has_char "," piece = false) (Cors.split_comma s).
Proof.
  induction s as [|c s IH]; cbn; [repeat constructor|].
  destruct (Ascii.eqb_spec c ","%char) as [->|Hc]; [constructor; [reflexivity|exact IH]|].
  destruct (Cors.split_comma s) as [|piece pieces]; [repeat constructor; cbn|].
  - destruct (Ascii.eqb_spec c ","%char); [contradiction|reflexivity].
  - inversion IH as [|? ? Hp Hps]; subst. constructor; [|exact Hps]. cbn. rewrite Hp.
    destruct (Ascii.eqb_spec c ","%char); [contradiction|reflexivity].
Qed.

Lemma allowedOrigins_In env o :
  In o (Cors.allowedOrigins env)
  <-> o <> EmptyString
      /\ exists piece,
           In piece (Cors.split_comma (default EmptyString (env "CORS_ORIGINS"%string)))
           /\ Cors.trim piece = o.
Proof.
  unfold Cors.allowedOrigins. rewrite filter_In, in_map_iff.
  destruct (String.eqb_spec o ""); cbn; split.
  - intros [_ H]. discriminate.
  - intros [H _]. contradiction.
  - intros [(piece & Ht & Hin) _]. split; [assumption|]. eauto.
  - intros [_ (piece & Hin & Ht)]. split; [eauto|reflexivity].
Qed.

(** X11: With [CORS_ORIGINS] unset, empty, or holding nothing but commas and
    white space, no origin is listed, and the server is then open to
    every origin: the [origin] option is [true], so that every request
    passes whatever its origin, and credentials are off even when
    [CORS_CREDENTIALS] is [true]. *)
Theorem cors_open_without_origins (env : Env) :
  (Cors.allowedOrigins env = []
   <-> Forall (fun piece => all_spaces piece = true)
         (Cors.split_comma (default EmptyString (env "CORS_ORIGINS"%string))))
  /\ (env "CORS_ORIGINS"%string = None -> Cors.allowedOrigins env = [])
  /\ (Cors.allowedOrigins env = [] ->
      Cors.origin (Cors.corsOptions env) = Cors.ReflectAny
      /\ Cors.credentials (Cors.corsOptions env) = false
      /\ forall request_origin, Cors.accepts (Cors.corsOptions env) request_origin = true).
Proof.
  assert (Hiff : Cors.allowedOrigins env = []
                 <-> Forall (fun piece => all_spaces piece = true)
                       (Cors.split_comma (default EmptyString (env "CORS_ORIGINS"%string)))).
  { unfold Cors.allowedOrigins.
    induction (Cors.split_comma _) as [|piece pieces IH]; cbn.
    - split; [constructor|reflexivity].
    - destruct (String.eqb_spec (Cors.trim piece) "") as [E|E]; cbn.
      + rewrite IH. apply trim_empty in E. split.
        * intros H. now constructor.
        * intros H. now inversion H.
      + split; [discriminate|]. intros H. inversion H as [|? ? Hp _]; subst.
        apply trim_empty in Hp. contradiction. }
  split; [exact Hiff|]. split.
  - intros Hn. apply Hiff. rewrite Hn. cbn. repeat constructor.
  - intros He. unfold Cors.accepts, Cors.corsOptions. rewrite He. cbn. auto.
Qed.

(** X12: With at least one origin listed, the list is what is left of the
    comma-separated entries of [CORS_ORIGINS] once trimmed and the empty
    ones dropped, so that a listed origin has no white space around it
    and no comma in it.  A request passes exactly when it has no origin
    or its origin is, character for character, one of the list;
    credentials are on exactly when [CORS_CREDENTIALS] is [true]. *)
Theorem cors_allow_list (env : Env) :
  (forall o,
      In o (Cors.allowedOrigins env)
      <-> o <> EmptyString
          /\ exists piece,
               In piece (Cors.split_comma (default EmptyString (env "CORS_ORIGINS"%string)))
               /\ Cors.trim piece = o)
  /\ (forall o, In o (Cors.allowedOrigins env) ->
        Cors.trim o = o /\ has_char "," o = false)
  /\ (Cors.allowedOrigins env <> [] ->
      Cors.origin (Cors.corsOptions env) = Cors.FromList (Cors.allowedOrigins env)
      /\ (forall request_origin,
            Cors.accepts (Cors.corsOptions env) request_origin = true
            <-> env_truthy request_origin = false
                \/ exists o, request_origin = Some o /\ In o (Cors.allowedOrigins env))
      /\ (Cors.credentials (Cors.corsOptions env) = true
          <-> env "CORS_CREDENTIALS"%string = Some "true"%string)).
Proof.
  split; [apply allowedOrigins_In|]. split.
  - intros o Ho. apply allowedOrigins_In in Ho. destruct Ho as [_ (piece & Hin & <-)].
    split; [apply trim_idempotent|].
    pose proof (split_comma_no_comma (default EmptyString (env "CORS_ORIGINS"%string))) as Hc.
    rewrite List.Forall_forall in Hc. specialize (Hc _ Hin).
    destruct (has_char "," (Cors.trim piece)) eqn:E; [|reflexivity].
    unfold Cors.trim in E. apply has_char_trim_end, has_char_trim_start in E. congruence.
  - intros Hne. unfold Cors.accepts, Cors.corsOptions.
    destruct (Cors.allowedOrigins env) as [|a allowed] eqn:Ha; [contradiction|].
    cbn [Cors.origin Cors.credentials]. split; [reflexivity|]. split.
    + intros ro. unfold Cors.origin_callback. rewrite orb_true_iff, negb_true_iff.
      rewrite existsb_exists. split.
      * intros [H|(x & Hin & Hx)]; [now left|].
        destruct ro as [o|]; [|now left]. cbn in Hx. apply String.eqb_eq in Hx. subst x.
        right. eauto.
      * intros [H|(o & -> & Hin)]; [now left|]. right. exists o. split; [exact Hin|].
        cbn. apply String.eqb_refl.
    + destruct (env "CORS_CREDENTIALS"%string) as [s|]; [|split; discriminate].
      rewrite String.eqb_eq. split; [now intros ->|now intros [= ->]].
Qed.

(** ** The JSON parse error handler *)

Lemma length_substring_0 n s :
  String.length (substring 0 n s) = Nat.min n (String.length s).
Proof.
  revert s. induction n as [|n IH]; intros [|c s]; cbn; auto.
Qed.

Lemma substring_0_prefix n s : exists rest, s = (substring 0 n s ++ rest)%string.
Proof.
  revert s. induction n as [|n IH]; intros [|c s]; cbn.
  - now exists EmptyString.
  - now exists (String c s).
  - now exists EmptyString.
  - destruct (IH s) as [rest Hr]. exists rest. rewrite append_String. now rewrite <- Hr.
Qed.

(** X13: A malformed JSON body is answered 400 [Invalid JSON] with the parser's
    message; every other error is passed on untouched.  The answer carries
    a snippet of the raw body only outside production.  The snippet is the
    whole body when that has at most 2000 characters, and otherwise its
    first 2000 characters followed by [...[truncated]]: it never exceeds
    2014 characters. *)
Theorem invalid_json_snippet (production : bool) (err : option JsonError.Err)
    (rawBody : option string) :
  (String.length (JsonError.snippet rawBody) <= 2014)%nat
  /\ (forall raw,
        rawBody = Some raw -> raw <> EmptyString ->
        ((String.length raw <= 2000)%nat -> JsonError.snippet rawBody = raw)
        /\ ((2000 < String.length raw)%nat ->
            JsonError.snippet rawBody = (substring 0 2000 raw ++ "...[truncated]")%string
            /\ String.length (JsonError.snippet rawBody) = 2014%nat
            /\ exists rest, raw = (substring 0 2000 raw ++ rest)%string))
  /\ (env_truthy rawBody = false -> JsonError.snippet rawBody = "<unavailable>"%string)
  /\ (forall m s, JsonError.handle production err rawBody = JsonError.InvalidJSON m s ->
        exists e, err = Some e
                  /\ JsonError.is_SyntaxError e = true
                  /\ JsonError.status e = Some 400
                  /\ JsonError.has_body e = true
                  /\ m = JsonError.message e
                  /\ s = (if production then None else Some (JsonError.snippet rawBody)))
  /\ (forall e, err = Some e ->
        JsonError.is_SyntaxError e = true ->
        JsonError.status e = Some 400 ->
        JsonError.has_body e = true ->
        JsonError.handle production err rawBody
        = JsonError.InvalidJSON (JsonError.message e)
            (if production then None else Some (JsonError.snippet rawBody))).
Proof.
  assert (Hlong : forall raw, (2000 < String.length raw)%nat ->
            String.length (substring 0 2000 raw ++ "...[truncated]") = 2014%nat).
  { intros raw Hl. rewrite length_append_string, length_substring_0.
    change (String.length "...[truncated]") with 14%nat. lia. }
  split; [|split; [|split; [|split]]].
  - unfold JsonError.snippet. destruct (env_truthy rawBody); [|cbn; lia].
    unfold JsonError.SNIPPET_CHARS, JsonError.TRUNCATED.
    destruct (Nat.ltb_spec 2000 (String.length (default EmptyString rawBody)));
      [rewrite Hlong by assumption|]; lia.
  - intros raw -> Hne. unfold JsonError.snippet. cbn [env_truthy].
    change (default EmptyString (Some raw)) with raw.
    destruct (String.eqb_spec raw ""); [contradiction|]. cbn [negb].
    unfold JsonError.SNIPPET_CHARS, JsonError.TRUNCATED.
    destruct (Nat.ltb_spec 2000 (String.length raw)); split; intros Hl; try lia; auto.
    split; [reflexivity|]. split; [now apply Hlong|]. apply substring_0_prefix.
  - intros Hf. unfold JsonError.snippet. now rewrite Hf.
  - intros m s. unfold JsonError.handle. destruct err as [e|]; [|discriminate].
    destruct (JsonError.is_SyntaxError e) eqn:H1; cbn [andb]; [|discriminate].
    destruct (JsonError.status e) as [st|] eqn:H2; cbn [andb]; [|discriminate].
    destruct (Z.eqb_spec st 400) as [->|]; cbn [andb]; [|discriminate].
    destruct (JsonError.has_body e) eqn:H3; [|discriminate].
    intros [= <- <-]. exists e. auto 10.
  - intros e -> H1 H2 H3. unfold JsonError.handle. now rewrite H1, H2, H3.
Qed.

(** ** The storage helpers *)

(** Membership in a list of calls, spelled out. *)
Ltac in_calls H :=
  cbn [In] in H; rewrite ?app_nil_r, ?in_app_iff in H; cbn [In] in H.

Section StorageFacts.

Context {Client Bytes : Type}.
Variable out : Supabase.Outside Client Bytes.

(** One call with the module variable unset: it throws and leaves the
    variable unset, or it makes the client from the URL and the preferred
    key of the environment and keeps it. *)
Lemma getSupabaseClient_fresh (env : Env) :
  (exists t e, Supabase.getSupabaseClient out env None = (t, None, inl e))
  \/ (exists url key c,
        env "SUPABASE_URL"%string = Some url
        /\ Supabase.supabaseKey env = Some key
        /\ Supabase.createClient out url key = inr c
        /\ Supabase.getSupabaseClient out env None
           = ([Supabase.CreateClient url key], Some c, inr c)).
Proof.
  unfold Supabase.getSupabaseClient.
  destruct (env "SUPABASE_URL"%string) as [url|] eqn:Hu; cbn [env_truthy andb]; [|left; eauto].
  destruct (negb (url =? "")%string); cbn [andb]; [|left; eauto].
  destruct (Supabase.supabaseKey env) as [key|] eqn:Hk; cbn [env_truthy]; [|left; eauto].
  destruct (negb (key =? "")%string); [|left; eauto].
  change (default EmptyString (Some url)) with url.
  change (default EmptyString (Some key)) with key.
  destruct (Supabase.createClient out url key) as [e|c] eqn:Hc; [left; eauto|].
  right. exists url, key, c. auto.
Qed.

Lemma get_clients_cached (c : Client) (envs : list Env) :
  Supabase.get_clients out envs (Some c) = ([], Some c, map (fun _ => inr c) envs).
Proof.
  induction envs as [|env envs IH]; cbn; [reflexivity|]. now rewrite IH.
Qed.

(** X14: The client is made once per process.  Over any sequence of calls of
    [getSupabaseClient], with the environment free to change between
    them: while calls fail the variable stays unset; the first call that
    succeeds makes the client from the URL and the key of the environment
    it runs in (the service role key when set, else the anon key), and
    this is the last [createClient] ever; every later call returns that
    same client whatever the environment has become. *)
Theorem supabase_client_created_once
  (envs : list Env) (calls : list Supabase.Call) (st' : option Client)
  (results : list (Error + Client)) :
  Supabase.get_clients out envs None = (calls, st', results) ->
  length results = length envs
  /\ (forall c, In (inr c) results -> st' = Some c)
  /\ (st' = None -> Forall (fun r => exists e, r = inl e) results)
  /\ (forall c, st' = Some c ->
        exists before env after url key attempts,
          envs = before ++ env :: after
          /\ env "SUPABASE_URL"%string = Some url
          /\ Supabase.supabaseKey env = Some key
          /\ Supabase.createClient out url key = inr c
          /\ calls = attempts ++ [Supabase.CreateClient url key]
          /\ Forall (fun r => exists e, r = inl e) (take (length before) results)
          /\ drop (length before) results = map (fun _ => inr c) (env :: after)).
Proof.
  revert calls st' results.
  induction envs as [|env envs IH]; intros calls st' results H;
    cbn [Supabase.get_clients] in H.
  - injection H as <- <- <-. split; [reflexivity|]. split; [intros c []|].
    split; [constructor|]. discriminate.
  - destruct (getSupabaseClient_fresh env) as [(t & e & Hg)|(url & key & c & Hu & Hk & Hc & Hg)];
      rewrite Hg in H.
    + destruct (Supabase.get_clients out envs None) as [[t2 st2] rs] eqn:Hrest.
      injection H as <- <- <-.
      destruct (IH _ _ _ eq_refl) as (Hl & Hin & Hnone & Hsome).
      split; [cbn; now rewrite Hl|].
      split; [intros c [Hc|Hc]; [discriminate|auto]|].
      split; [intros Hn; constructor; eauto|].
      intros c Hs.
      destruct (Hsome c Hs)
        as (before & env' & after & url & key & attempts & -> & Hu & Hk & Hc & -> & Hf & Hd).
      exists (env :: before), env', after, url, key, (t ++ attempts).
      split; [reflexivity|]. repeat (split; [assumption|]).
      split; [now rewrite app_assoc|]. split; [cbn; constructor; eauto|exact Hd].
    + rewrite get_clients_cached in H. injection H as <- <- <-.
      split; [cbn; now rewrite length_map|].
      split.
      { intros c' [Hc'|Hc']; [congruence|].
        apply in_map_iff in Hc'. destruct Hc' as (x & Hx & _). congruence. }
      split; [discriminate|].
      intros c' [= <-]. exists [], env, envs, url, key, [].
      split; [reflexivity|]. split; [exact Hu|]. split; [exact Hk|]. split; [exact Hc|].
      split; [reflexivity|]. split; [constructor|reflexivity].
Qed.

Lemma getSupabaseClient_result (env : Env) (st : option Client) :
  (exists t e, Supabase.getSupabaseClient out env st = (t, st, inl e) /\ st = None
               /\ Forall (fun call => exists url key, call = Supabase.CreateClient url key) t)
  \/ (exists t c, Supabase.getSupabaseClient out env st = (t, Some c, inr c)
                  /\ Forall (fun call => exists url key, call = Supabase.CreateClient url key) t).
Proof.
  destruct st as [c|].
  - right. exists [], c. split; [reflexivity|constructor].
  - unfold Supabase.getSupabaseClient.
    destruct (env_truthy (env "SUPABASE_URL"%string) && env_truthy (Supabase.supabaseKey env)).
    + destruct (Supabase.createClient out _ _) as [e|c].
      * left. eexists _, e. split; [reflexivity|]. split; [reflexivity|].
        repeat constructor. eauto.
      * right. eexists _, c. split; [reflexivity|]. repeat constructor. eauto.
    + left. exists [], Supabase.MISSING_ENVIRONMENT. split; [reflexivity|].
      split; [reflexivity|constructor].
Qed.

(** X15: [uploadVideoToSupabase] stores the video as the object [jobId.mp4] of
    the bucket (the one given, else [SUPABASE_BUCKET_NAME], else
    [videos]), with [upsert], so that a job stored under a job id
    replaces the video stored before under the same id.  The file is read
    first, and nothing else is done when it cannot be read; the URL
    returned is the public URL of that same object, asked for only after
    the upload went through; when the storage answers with an error the
    call throws a message naming the key type, the bucket and the object
    and never asks for a URL. *)
Theorem upload_stores_job_object
  (env : Env) (filePath jobId : string) (bucketName : option string)
  (st st' : option Client) (calls : list Supabase.Call) (r : Error + Supabase.Uploaded) :
  Supabase.uploadVideoToSupabase out env filePath jobId bucketName st = (calls, st', r) ->
  let bucket := Supabase.bucket_of env bucketName in
  let fileName := (jobId ++ ".mp4")%string in
  (exists rest, calls = Supabase.ReadFile filePath :: rest)
  /\ (forall e, Supabase.readFile out filePath = inl e ->
        calls = [Supabase.ReadFile filePath] /\ st' = st /\ r = inl e)
  /\ (forall call, In call calls ->
        call = Supabase.ReadFile filePath
        \/ (exists url key, call = Supabase.CreateClient url key)
        \/ call = Supabase.Upload bucket fileName "video/mp4" true
        \/ call = Supabase.GetPublicUrl bucket fileName)
  /\ (forall u, r = inr u ->
        exists client data before,
          st' = Some client
          /\ Supabase.readFile out filePath = inr data
          /\ Supabase.upload out client bucket fileName data
             = Supabase.UploadData (Supabase.path u)
          /\ Supabase.url u = Supabase.publicUrl out client bucket fileName
          /\ calls = before ++ [Supabase.Upload bucket fileName "video/mp4" true;
                                Supabase.GetPublicUrl bucket fileName])
  /\ (forall e, r = inl e -> ~ In (Supabase.GetPublicUrl bucket fileName) calls)
  /\ (forall client data message,
        st' = Some client ->
        Supabase.readFile out filePath = inr data ->
        Supabase.upload out client bucket fileName data = Supabase.UploadError message ->
        r = inl (Supabase.upload_failed env bucket fileName message)).
Proof.
  intros H bucket fileName.
  unfold Supabase.uploadVideoToSupabase, Supabase.scatch, Supabase.sbind, Supabase.scall,
    Supabase.slift, Supabase.sthrow, Supabase.sret in H.
  fold bucket in H. fold fileName in H.
  destruct (Supabase.readFile out filePath) as [e0|data] eqn:Hread.
  { cbn in H. injection H as <- <- <-.
    split; [eauto|]. split; [intros e [= <-]; auto|].
    split; [intros call [<-|[]]; auto|]. split; [discriminate|].
    split; [intros e _ [Hc|[]]; discriminate|]. discriminate. }
  destruct (getSupabaseClient_result env st)
    as [(t & e & Hg & -> & Ht)|(t & c & Hg & Ht)]; rewrite Hg in H;
    rewrite List.Forall_forall in Ht.
  { cbn in H. injection H as <- <- <-.
    split; [eauto|]. split; [discriminate|].
    split; [intros call Hin; in_calls Hin; intuition auto|].
    split; [discriminate|]. split; [|discriminate].
    intros e' _ Hin. in_calls Hin. destruct Hin as [Hin|Hin]; [discriminate|].
    destruct (Ht _ Hin) as (u & k & Hq). discriminate. }
  destruct (Supabase.upload out c bucket fileName data) as [e|message|p] eqn:Hup;
    cbn in H; injection H as <- <- <-.
  - split; [eauto|]. split; [discriminate|].
    split; [intros call Hin; in_calls Hin; intuition auto|].
    split; [discriminate|]. split; [|intros client d m [= <-]; congruence].
    intros e' _ Hin. in_calls Hin. destruct Hin as [Hin|[Hin|[Hin|[]]]]; try discriminate.
    destruct (Ht _ Hin) as (u & k & Hq). discriminate.
  - split; [eauto|]. split; [discriminate|].
    split; [intros call Hin; in_calls Hin; intuition auto|].
    split; [discriminate|]. split.
    { intros e' _ Hin. in_calls Hin. destruct Hin as [Hin|[Hin|[Hin|[]]]]; try discriminate.
      destruct (Ht _ Hin) as (u & k & Hq). discriminate. }
    intros client d m [= <-] [= <-] Hm. rewrite Hup in Hm. now injection Hm as <-.
  - split; [eauto|]. split; [discriminate|].
    split; [intros call Hin; in_calls Hin; intuition auto|].
    split.
    { intros u [= <-]. exists c, data, (Supabase.ReadFile filePath :: t).
      cbn [Supabase.url Supabase.path].
      split; [reflexivity|]. split; [reflexivity|]. split; [exact Hup|].
      split; reflexivity. }
    split; [discriminate|].
    intros client d m [= <-] [= <-] Hm. congruence.
Qed.

(** X16: [deleteVideoFromSupabase] never throws, whatever the environment and
    the storage do: it returns [true] exactly when a client was at hand
    or could be made and the removal of the one object it was given went
    through without an error, and [false] in every other case, a missing
    configuration included. *)
Theorem delete_never_throws
  (env : Env) (fileName : string) (bucketName : option string) (st : option Client) :
  exists calls st' b,
    Supabase.deleteVideoFromSupabase out env fileName bucketName st = (calls, st', inr b)
    /\ (b = true
        <-> exists client,
              st' = Some client
              /\ In (Supabase.Remove (Supabase.bucket_of env bucketName) [fileName]) calls
              /\ Supabase.remove out client (Supabase.bucket_of env bucketName) [fileName]
                 = Supabase.RemoveDone)
    /\ (forall call, In call calls ->
          (exists url key, call = Supabase.CreateClient url key)
          \/ call = Supabase.Remove (Supabase.bucket_of env bucketName) [fileName]).
Proof.
  unfold Supabase.deleteVideoFromSupabase, Supabase.scatch, Supabase.sbind, Supabase.scall,
    Supabase.sthrow, Supabase.sret.
  set (bucket := Supabase.bucket_of env bucketName).
  destruct (getSupabaseClient_result env st)
    as [(t & e & Hg & -> & Ht)|(t & c & Hg & Ht)]; rewrite Hg;
    rewrite List.Forall_forall in Ht.
  - cbn. eexists _, _, _. split; [reflexivity|]. split.
    + split; [discriminate|]. intros (client & Hq & _). discriminate.
    + intros call Hin. in_calls Hin. auto.
  - destruct (Supabase.remove out c bucket [fileName]) eqn:Hr; cbn;
      eexists _, _, _; (split; [reflexivity|]); split;
      try (intros call Hin; in_calls Hin; intuition auto);
      try (split; [discriminate|]; intros (client & [= <-] & _ & Hq); congruence).
    split; [|reflexivity]. intros _. exists c. split; [reflexivity|].
    split; [|exact Hr]. rewrite ?in_app_iff. cbn. auto.
Qed.

End StorageFacts.

Lemma supabase_client_created_once_witness :
  Supabase.get_clients example_storage [empty_env; anon_env; service_role_env] None
  = ([Supabase.CreateClient "https://project.supabase.co" "anon-key"],
     Some ("https://project.supabase.co", "anon-key"),
     [inl Supabase.MISSING_ENVIRONMENT;
      inr ("https://project.supabase.co", "anon-key");
      inr ("https://project.supabase.co", "anon-key")])%string
  /\ forall c,
       In (inr c)
          [inl Supabase.MISSING_ENVIRONMENT;
           inr ("https://project.supabase.co", "anon-key");
           inr ("https://project.supabase.co", "anon-key")]%string ->
       Some ("https://project.supabase.co", "anon-key")%string = Some c.
Proof.
  assert (H : Supabase.get_clients example_storage [empty_env; anon_env; service_role_env] None
              = ([Supabase.CreateClient "https://project.supabase.co" "anon-key"],
                 Some ("https://project.supabase.co", "anon-key"),
                 [inl Supabase.MISSING_ENVIRONMENT;
                  inr ("https://project.supabase.co", "anon-key");
                  inr ("https://project.supabase.co", "anon-key")])%string)
    by reflexivity.
  split; [exact H|].
  destruct (supabase_client_created_once example_storage _ _ _ _ H) as (_ & Hin & _).
  exact Hin.
Defined.

Lemma upload_stores_job_object_witness :
  Supabase.uploadVideoToSupabase example_storage anon_env "/app/temp/session-1/final.mp4"
    "job-123" None None
  = ([Supabase.ReadFile "/app/temp/session-1/final.mp4";
      Supabase.CreateClient "https://project.supabase.co" "anon-key";
      Supabase.Upload "videos" "job-123.mp4" "video/mp4" true;
      Supabase.GetPublicUrl "videos" "job-123.mp4"],
     Some ("https://project.supabase.co", "anon-key"),
     inr {| Supabase.url := VStr "https://storage.example/videos/job-123.mp4";
            Supabase.path := VStr "job-123.mp4" |})%string
  /\ exists rest,
       [Supabase.ReadFile "/app/temp/session-1/final.mp4";
        Supabase.CreateClient "https://project.supabase.co" "anon-key";
        Supabase.Upload "videos" "job-123.mp4" "video/mp4" true;
        Supabase.GetPublicUrl "videos" "job-123.mp4"]%string
       = Supabase.ReadFile "/app/temp/session-1/final.mp4" :: rest.
Proof.
  assert (H : Supabase.uploadVideoToSupabase example_storage anon_env
                "/app/temp/session-1/final.mp4" "job-123" None None
              = ([Supabase.ReadFile "/app/temp/session-1/final.mp4";
                  Supabase.CreateClient "https://project.supabase.co" "anon-key";
                  Supabase.Upload "videos" "job-123.mp4" "video/mp4" true;
                  Supabase.GetPublicUrl "videos" "job-123.mp4"],
                 Some ("https://project.supabase.co", "anon-key"),
                 inr {| Supabase.url := VStr "https://storage.example/videos/job-123.mp4";
                        Supabase.path := VStr "job-123.mp4" |})%string)
    by reflexivity.
  split; [exact H|].
  destruct (upload_stores_job_object example_storage _ _ _ _ _ _ _ _ H) as (Hhead & _).
  exact Hhead.
Defined.

(** ** The handler and the storage *)

Lemma handler_success_fields w req videoJobId url :
  outcome (handler w req) = Responded 200 (ResultBody videoJobId url) ->
  get (request_body req) "jobId" = VStr videoJobId /\ upload w = inr url.
Proof.
  destruct (handler_cases w req)
    as [[Hj ->]|[(e & Hg & ->)|[[Hr ->]|[(e & Hm & ->)|(jid & style & raws & Hacc & ->)]]]];
    cbn [outcome]; try discriminate.
  destruct Hacc as (Hj & _).
  pose proof (job_uploaded w jid style (request_resolution req) (map normalize raws)) as Hu.
  destruct (job _ _ _ _ _) as [t [u|e|]]; cbn [finish outcome]; try discriminate.
  intros [= <- <-]. split; [now apply valid_jobId_verbatim|]. apply (Hu t), eq_refl.
Qed.

Lemma uploaded_url {Client Bytes : Type} (out : Supabase.Outside Client Bytes) (env : Env)
    (filePath jobId : string) (bucketName : option string) (st st' : option Client)
    (calls : list Supabase.Call) (u : Supabase.Uploaded) :
  Supabase.uploadVideoToSupabase out env filePath jobId bucketName st = (calls, st', inr u) ->
  exists client,
    Supabase.url u
    = Supabase.publicUrl out client (Supabase.bucket_of env bucketName) (jobId ++ ".mp4").
Proof.
  unfold Supabase.uploadVideoToSupabase, Supabase.scatch, Supabase.sbind, Supabase.scall,
    Supabase.slift, Supabase.sthrow, Supabase.sret.
  destruct (Supabase.readFile out filePath) as [e0|data]; [discriminate|].
  destruct (getSupabaseClient_result out env st)
    as [(t & e & Hg & -> & Ht)|(t & c & Hg & Ht)]; rewrite Hg; [discriminate|].
  destruct (Supabase.upload out c _ _ data); cbn; try discriminate.
  intros [= _ _ <-]. now exists c.
Qed.

(** X17: The URL of a 200 response is the public URL of the object
    [jobId.mp4], [jobId] being the [jobId] of the request character for
    character: the stored object is named after the job id alone, and two
    requests with the same job id publish to the same object. *)
Theorem response_url_names_the_job
  {Client Bytes : Type} (out : Supabase.Outside Client Bytes) (env : Env)
  (st : option Client) (w : World) (req : Value) (videoJobId : string) (url : Value) :
  upload w = upload_via out env st (join (sessionDir w) "final.mp4") videoJobId ->
  outcome (handler w req) = Responded 200 (ResultBody videoJobId url) ->
  get (request_body req) "jobId" = VStr videoJobId
  /\ exists client,
       url = Supabase.publicUrl out client (Supabase.bucket_of env None) (videoJobId ++ ".mp4").
Proof.
  intros Hvia Ho. destruct (handler_success_fields _ _ _ _ Ho) as [Hj Hu].
  split; [exact Hj|]. rewrite Hvia in Hu. unfold upload_via in Hu.
  destruct (Supabase.uploadVideoToSupabase out env _ videoJobId None st) as [[calls st'] r] eqn:H.
  destruct r as [e|u]; [discriminate|]. injection Hu as <-.
  exact (uploaded_url _ _ _ _ _ _ _ _ _ H).
Qed.

Lemma response_url_names_the_job_witness :
  upload calm_world
  = upload_via example_storage anon_env None (join (sessionDir calm_world) "final.mp4") "job-123"
  /\ outcome (handler calm_world example_request)
     = Responded 200 (ResultBody "job-123" (VStr "https://storage.example/videos/job-123.mp4"))
  /\ get (request_body example_request) "jobId" = VStr "job-123".
Proof.
  assert (Hvia : upload calm_world
                 = upload_via example_storage anon_env None
                     (join (sessionDir calm_world) "final.mp4") "job-123") by reflexivity.
  assert (Ho : outcome (handler calm_world example_request)
               = Responded 200
                   (ResultBody "job-123" (VStr "https://storage.example/videos/job-123.mp4")))
    by reflexivity.
  split; [exact Hvia|]. split; [exact Ho|].
  exact (proj1 (response_url_names_the_job example_storage anon_env None calm_world
                  example_request "job-123" _ Hvia Ho)).
Defined.

(** ** The launcher *)

Lemma child_env_production env : production_of (Startup.child_env env) = true.
Proof. reflexivity. Qed.

(** X18: [start.js] starts the server exactly when ffmpeg answered
    [-version] with exit code 0, the [temp] directory exists, and
    [SUPABASE_URL] and [SUPABASE_ANON_KEY] are both set and not empty.
    Otherwise it exits, always with code 1, for the first check that
    fails in that order.  The server is started as [node server.js] with
    [NODE_ENV=production] whatever the launcher's own [NODE_ENV], every
    other variable being inherited. *)
Theorem launcher_preflight (events : list Startup.ProcEvent) (tempDir : bool) (env : Env) :
  (forall command args child,
      Startup.startServer events tempDir env = Startup.Spawn command args child ->
      Startup.checkFFmpeg events = Some true
      /\ tempDir = true
      /\ env_truthy (env "SUPABASE_URL"%string) = true
      /\ env_truthy (env "SUPABASE_ANON_KEY"%string) = true
      /\ command = "node"%string /\ args = ["server.js"%string]
      /\ child "NODE_ENV"%string = Some "production"%string
      /\ production_of child = true
      /\ (forall name, name <> "NODE_ENV"%string -> child name = env name))
  /\ (Startup.checkFFmpeg events = Some true ->
      tempDir = true ->
      env_truthy (env "SUPABASE_URL"%string) = true ->
      env_truthy (env "SUPABASE_ANON_KEY"%string) = true ->
      Startup.startServer events tempDir env
      = Startup.Spawn "node" ["server.js"%string] (Startup.child_env env))
  /\ (forall code why,
        Startup.startServer events tempDir env = Startup.Exit code why ->
        code = 1
        /\ match why with
           | Startup.FFmpegNotFound => Startup.checkFFmpeg events = Some false
           | Startup.TempDirectoryNotFound =>
               Startup.checkFFmpeg events = Some true /\ tempDir = false
           | Startup.MissingSupabaseVariables =>
               Startup.checkFFmpeg events = Some true /\ tempDir = true
               /\ (env_truthy (env "SUPABASE_URL"%string) = false
                   \/ env_truthy (env "SUPABASE_ANON_KEY"%string) = false)
           end)
  /\ (Startup.checkFFmpeg events = Some true
      <-> exists rest, events = Startup.Close (Some 0) :: rest).
Proof.
  unfold Startup.startServer.
  split; [|split; [|split]].
  - intros command args child.
    destruct (Startup.checkFFmpeg events) as [[]|]; cbn [negb]; try discriminate.
    destruct tempDir; cbn [negb]; try discriminate.
    destruct (env_truthy (env "SUPABASE_URL"%string)); cbn [negb orb]; try discriminate.
    destruct (env_truthy (env "SUPABASE_ANON_KEY"%string)); cbn [negb orb]; try discriminate.
    intros [= <- <- <-]. repeat (split; [reflexivity|]).
    intros name Hn. unfold Startup.child_env.
    destruct (String.eqb_spec name "NODE_ENV"); [contradiction|reflexivity].
  - intros -> -> -> ->. reflexivity.
  - intros code why.
    destruct (Startup.checkFFmpeg events) as [[]|]; cbn [negb]; try discriminate.
    + destruct tempDir; cbn [negb].
      * destruct (env_truthy (env "SUPABASE_URL"%string)) eqn:Hu; cbn [negb orb].
        -- destruct (env_truthy (env "SUPABASE_ANON_KEY"%string)) eqn:Ha; cbn [negb];
             [discriminate|].
           intros [= <- <-]. auto.
        -- intros [= <- <-]. auto.
      * intros [= <- <-]. auto.
    + intros [= <- <-]. auto.
  - unfold Startup.checkFFmpeg. split.
    + destruct events as [|[[c|]|] rest]; try discriminate.
      destruct (Z.eqb_spec c 0) as [->|]; [eauto|discriminate].
    + intros [rest ->]. reflexivity.
Qed.

(** X19: The launcher asks for more than the storage helpers need, and for
    something else: whatever it lets through has a URL and an anon key,
    with which [getSupabaseClient] never fails for want of a variable;
    but a deployment that has the URL and the service role key only, which
    the helpers accept and prefer, is refused by the launcher. *)
Theorem launcher_and_storage_configuration
  {Client Bytes : Type} (out : Supabase.Outside Client Bytes)
  (events : list Startup.ProcEvent) (tempDir : bool) (env : Env) :
  (forall command args child,
      Startup.startServer events tempDir env = Startup.Spawn command args child ->
      exists url key,
        child "SUPABASE_URL"%string = Some url
        /\ Supabase.supabaseKey child = Some key
        /\ Supabase.getSupabaseClient out child None
           = ([Supabase.CreateClient url key],
              match Supabase.createClient out url key with
              | inr client => Some client
              | inl _ => None
              end,
              Supabase.createClient out url key))
  /\ (forall url key,
        env "SUPABASE_URL"%string = Some url -> url <> EmptyString ->
        env "SUPABASE_SERVICE_ROLE_KEY"%string = Some key -> key <> EmptyString ->
        env_truthy (env "SUPABASE_ANON_KEY"%string) = false ->
        (forall command args child,
           Startup.startServer events tempDir env <> Startup.Spawn command args child)
        /\ Supabase.getSupabaseClient out env None
           = ([Supabase.CreateClient url key],
              match Supabase.createClient out url key with
              | inr client => Some client
              | inl _ => None
              end,
              Supabase.createClient out url key)).
Proof.
  split.
  - intros command args child. unfold Startup.startServer.
    destruct (Startup.checkFFmpeg events) as [[]|]; cbn [negb]; try discriminate.
    destruct tempDir; cbn [negb]; try discriminate.
    destruct (env "SUPABASE_URL"%string) as [url|] eqn:Hu; cbn [env_truthy negb orb];
      [|discriminate].
    destruct (String.eqb_spec url "") as [|Hune]; cbn [negb orb]; [discriminate|].
    destruct (env "SUPABASE_ANON_KEY"%string) as [anon|] eqn:Ha; cbn [env_truthy negb];
      [|discriminate].
    destruct (String.eqb_spec anon "") as [|Hane]; cbn [negb]; [discriminate|].
    intros [= _ _ <-].
    assert (Hcu : Startup.child_env env "SUPABASE_URL"%string = Some url) by exact Hu.
    assert (Hca : Startup.child_env env "SUPABASE_ANON_KEY"%string = Some anon) by exact Ha.
    assert (Hcs : Startup.child_env env "SUPABASE_SERVICE_ROLE_KEY"%string
                  = env "SUPABASE_SERVICE_ROLE_KEY"%string) by reflexivity.
    assert (Hk : exists key, Supabase.supabaseKey (Startup.child_env env) = Some key
                             /\ key <> EmptyString).
    { unfold Supabase.supabaseKey. rewrite Hcs, Hca.
      destruct (env "SUPABASE_SERVICE_ROLE_KEY"%string) as [sk|]; cbn [env_truthy]; [|eauto].
      destruct (String.eqb_spec sk ""); cbn [negb]; eauto. }
    destruct Hk as (key & Hk & Hkne). exists url, key.
    split; [exact Hcu|]. split; [exact Hk|].
    unfold Supabase.getSupabaseClient. rewrite Hcu, Hk. cbn [env_truthy].
    change (default EmptyString (Some url)) with url.
    change (default EmptyString (Some key)) with key.
    destruct (String.eqb_spec url ""); [contradiction|].
    destruct (String.eqb_spec key ""); [contradiction|]. cbn [negb andb].
    destruct (Supabase.createClient out url key); reflexivity.
  - intros url key Hu Hune Hs Hsne Ha. split.
    + intros command args child. unfold Startup.startServer.
      destruct (Startup.checkFFmpeg events) as [[]|]; cbn [negb]; try discriminate.
      destruct tempDir; cbn [negb]; try discriminate.
      rewrite Ha, orb_true_r. discriminate.
    + unfold Supabase.getSupabaseClient, Supabase.supabaseKey. rewrite Hs, Hu.
      cbn [env_truthy].
      change (default EmptyString (Some url)) with url.
      destruct (String.eqb_spec url ""); [contradiction|].
      destruct (String.eqb_spec key ""); [contradiction|]. cbn [negb andb env_truthy].
      destruct (String.eqb_spec key ""); [contradiction|]. cbn [negb].
      change (default EmptyString (Some key)) with key.
      destruct (Supabase.createClient out url key); reflexivity.
Qed.

(** ** The image files of a job *)

Lemma before_question_clean e : has_char "?" (before_question e) = false.
Proof.
  induction e as [|c e IH]; cbn; [reflexivity|].
  destruct (Ascii.eqb_spec c "?"%char); [reflexivity|]. cbn. rewrite IH.
  destruct (Ascii.eqb_spec c "?"%char); [contradiction|reflexivity].
Qed.

Lemma string_of_uint_no_dot d : has_char "." (NilEmpty.string_of_uint d) = false.
Proof. induction d; cbn; auto. Qed.

Lemma dot_splits (a : string) : forall b x y : string,
  has_char "." a = false -> has_char "." b = false ->
  (a ++ String "." x)%string = (b ++ String "." y)%string -> a = b.
Proof.
  induction a as [|c a IH]; intros [|d b] x y Ha Hb H; cbn in *;
    rewrite ?append_String in H.
  - reflexivity.
  - injection H as <- _. cbn in Hb. discriminate.
  - injection H as -> _. cbn in Ha. discriminate.
  - injection H as <- H. apply orb_false_iff in Ha, Hb. f_equal.
    apply (IH b x y); tauto.
Qed.

(** The extension [safeExt] gives: the fallback, or what [extname] found
    up to a question mark. *)
Lemma safeExt_cases r urlStr fallback :
  safeExt r urlStr fallback = fallback
  \/ exists p, url_pathname r urlStr = Some p
               /\ safeExt r urlStr fallback = before_question (extname r p)
               /\ before_question (extname r p) <> EmptyString.
Proof.
  unfold safeExt. destruct (url_pathname r urlStr) as [p|]; [|now left].
  destruct (String.eqb_spec (before_question (extname r p)) ""); [now left|].
  right. eauto.
Qed.

(** X20: Every image of a job is saved in the session directory of the job as
    [img_<index><extension>], with an extension that is never empty and
    has no question mark, [.png] when the URL of the segment cannot be
    parsed; and, [extname] giving nothing or a dot and what follows it
    (as [path.extname] does), the images of two segments are never saved
    to the same file. *)
Theorem image_files_of_a_job (w : World) (i j : nat) (seg seg' : Segment) :
  (forall p, extname (rt w) p = EmptyString \/ exists rest, extname (rt w) p = String "." rest) ->
  (exists ext,
      imgPath w i seg = (sessionDir w ++ "/" ++ "img_" ++ show_nat i ++ ext)%string
      /\ ext <> EmptyString
      /\ has_char "?" ext = false
      /\ (url_pathname (rt w) (seg_imageUrl seg) = None -> ext = ".png"%string))
  /\ (i <> j -> imgPath w i seg <> imgPath w j seg').
Proof.
  intros Hext.
  assert (Hdot : forall s, exists rest, safeExt (rt w) (seg_imageUrl s) ".png" = String "." rest).
  { intros s. destruct (safeExt_cases (rt w) (seg_imageUrl s) ".png") as [->|(p & _ & -> & Hne)];
      [eauto|].
    destruct (Hext p) as [E|[rest E]]; rewrite E in *; [now elim Hne|].
    cbn. eauto. }
  split.
  - exists (safeExt (rt w) (seg_imageUrl seg) ".png"). split; [reflexivity|].
    split; [destruct (Hdot seg) as [rest ->]; discriminate|].
    split.
    + destruct (safeExt_cases (rt w) (seg_imageUrl seg) ".png") as [->|(p & _ & -> & _)];
        [reflexivity|apply before_question_clean].
    + intros Hn. unfold safeExt. now rewrite Hn.
  - intros Hij Heq. apply Hij. unfold imgPath, join in Heq.
    apply append_cancel_l in Heq. rewrite !append_String in Heq.
    injection Heq as Heq.
    change ((show_nat i ++ safeExt (rt w) (seg_imageUrl seg) ".png")%string
            = (show_nat j ++ safeExt (rt w) (seg_imageUrl seg') ".png")%string) in Heq.
    destruct (Hdot seg) as [x Hx]. destruct (Hdot seg') as [y Hy]. rewrite Hx, Hy in Heq.
    apply show_nat_inj. eapply dot_splits; [| |exact Heq]; apply string_of_uint_no_dot.
Qed.

Lemma image_files_of_a_job_witness :
  (forall p, extname (rt calm_world) p = EmptyString
             \/ exists rest, extname (rt calm_world) p = String "." rest)
  /\ imgPath calm_world 0 (normalize (example_segment "https://example.com/image1.jpg" 3))
     <> imgPath calm_world 1 (normalize (example_segment "https://example.com/image1.jpg" 3)).
Proof.
  assert (H : forall p, extname (rt calm_world) p = EmptyString
                        \/ exists rest, extname (rt calm_world) p = String "." rest).
  { intros p. cbn. destruct (_ || _); [right; eauto|now left]. }
  split; [exact H|].
  apply (image_files_of_a_job calm_world 0 1 _ _ H). discriminate.
Defined.

(** ** The concat list *)

Lemma escape_quotes_plain p : has_char "'" p = false -> escape_quotes p = p.
Proof.
  induction p as [|c p IH]; cbn; [reflexivity|].
  intros H. apply orb_false_iff in H. destruct H as [Hc Hp].
  rewrite Hc. f_equal. now apply IH.
Qed.

(** X21: The list file of the concat names every path unambiguously and in
    order: it has one line [file '<path>'] per segment file, in the order
    given, written to [filelist.txt] beside the final file before ffmpeg
    is run on it; a path without a quote is written as it is, a path with
    quotes has each one escaped, and two different paths never give the
    same line.  When the list cannot be written, ffmpeg is not run. *)
Theorem concat_list_names_every_path (w : World) (paths : list string) (out : string) :
  (forall p q, list_line p = list_line q -> p = q)
  /\ (forall p, has_char "'" p = false -> list_line p = ("file '" ++ p ++ "'")%string)
  /\ (forall e, write_list w = Some e ->
        concatVideos w paths out = ([ECall (ConcatVideos paths out)], Throw e))
  /\ (write_list w = None ->
      concatVideos w paths out
      = ([ECall (ConcatVideos paths out);
          EWriteList (dirname w out ++ "/filelist.txt")%string (map list_line paths);
          ERunConcat (dirname w out ++ "/filelist.txt")%string out],
         match concat_run w with Some e => Throw e | None => Ok out end)
      /\ length (map list_line paths) = length paths
      /\ forall i p, paths !! i = Some p -> map list_line paths !! i = Some (list_line p)).
Proof.
  split; [|split; [|split]].
  - intros p q H. unfold list_line in H. apply append_cancel_l in H.
    apply append_cancel_r in H. now apply escape_quotes_inj.
  - intros p Hp. unfold list_line. now rewrite escape_quotes_plain.
  - intros e He. unfold concatVideos. rewrite He. reflexivity.
  - intros Hw. unfold concatVideos. rewrite Hw. split; [|split].
    + destruct (concat_run w); reflexivity.
    + apply length_map.
    + intros i p Hp. rewrite lookup_map, Hp. reflexivity.
Qed.

(** ** The normaliser: the optional fields *)

Lemma two_first_truthy s a b :
  first_kept truthy s [a; b] (js_or (get s a) (get s b)).
Proof.
  unfold js_or. destruct (truthy (get s a)) eqn:E1.
  - left. exists a, [], [b]. split; [reflexivity|]. split; [constructor|auto].
  - destruct (truthy (get s b)) eqn:E2.
    + left. exists b, [a], []. split; [reflexivity|]. split; [repeat constructor; exact E1|auto].
    + right. split; [repeat constructor; assumption|reflexivity].
Qed.

Lemma three_first_truthy s a b c :
  first_kept truthy s [a; b; c] (js_or (js_or (get s a) (get s b)) (get s c)).
Proof.
  unfold js_or. destruct (truthy (get s a)) eqn:E1.
  - rewrite E1. left. exists a, [], [b; c]. split; [reflexivity|]. split; [constructor|auto].
  - destruct (truthy (get s b)) eqn:E2.
    + left. exists b, [a], [c]. split; [reflexivity|].
      split; [repeat constructor; exact E1|auto].
    + destruct (truthy (get s c)) eqn:E3.
      * left. exists c, [a; b], []. split; [reflexivity|].
        split; [repeat constructor; assumption|auto].
      * right. split; [repeat constructor; assumption|reflexivity].
Qed.

(** X22: The three optional fields of a segment are filled like [imageUrl]:
    [image_prompt] from [image_prompt], [imagePrompt]; [subtitleText]
    from [subtitleText], [subtitle_text], [subtitle]; [word_duration]
    from [word_duration], [wordDuration], [words]; in each list the first
    alias whose value is truthy wins, and the last one's value is taken
    when none is.  A raw segment that is itself falsy ([null], [false],
    0, an empty string) is not an error: each of the six fields of its
    normal form is that very value. *)
Theorem normalize_optional_fields (s : Value) :
  (truthy s = true ->
   first_kept truthy s ["image_prompt"; "imagePrompt"]%string (seg_image_prompt (normalize s))
   /\ first_kept truthy s ["subtitleText"; "subtitle_text"; "subtitle"]%string
        (seg_subtitleText (normalize s))
   /\ first_kept truthy s ["word_duration"; "wordDuration"; "words"]%string
        (seg_word_duration (normalize s)))
  /\ (truthy s = false ->
      normalize s
      = {| seg_id := s; seg_imageUrl := s; seg_duration := s;
           seg_image_prompt := s; seg_subtitleText := s; seg_word_duration := s |}).
Proof.
  unfold normalize, js_and. split; intros Hs; rewrite Hs;
    cbn [seg_image_prompt seg_subtitleText seg_word_duration]; [|reflexivity].
  split; [apply two_first_truthy|]. split; apply three_first_truthy.
Qed.

(** X23: The normaliser reads eighteen keys of a raw segment and nothing
    else: two segment objects that agree on the values of those keys have
    the same normal form, whatever other keys they carry, and in whatever
    order their keys come. *)
Theorem normalize_reads_known_keys_only (props props' : list (string * Value)) :
  (forall a, In a known_keys -> get (VObj props) a = get (VObj props') a) ->
  normalize (VObj props) = normalize (VObj props').
Proof.
  intros H. unfold normalize, js_and. cbn [truthy].
  rewrite !(H "id"%string), !(H "ID"%string), !(H "index"%string), !(H "imageUrl"%string),
    !(H "image_Url"%string), !(H "image_url"%string), !(H "image"%string),
    !(H "duration"%string), !(H "length"%string), !(H "time"%string),
    !(H "image_prompt"%string), !(H "imagePrompt"%string), !(H "subtitleText"%string),
    !(H "subtitle_text"%string), !(H "subtitle"%string), !(H "word_duration"%string),
    !(H "wordDuration"%string), !(H "words"%string) by (cbn; tauto).
  reflexivity.
Qed.

Lemma normalize_reads_known_keys_only_witness :
  (forall a, In a known_keys ->
     get (example_segment "https://example.com/image1.jpg" 3) a = get annotated_segment a)
  /\ normalize (example_segment "https://example.com/image1.jpg" 3)
     = normalize annotated_segment.
Proof.
  assert (H : forall a, In a known_keys ->
            get (example_segment "https://example.com/image1.jpg" 3) a
            = get annotated_segment a).
  { intros a Ha. cbn in Ha.
    repeat (destruct Ha as [<-|Ha]; [reflexivity|]). destruct Ha. }
  split; [exact H|]. exact (normalize_reads_known_keys_only _ _ H).
Defined.

(** ** The limiter: no slot, one slot *)

Section LimiterEdges.

Context {T A E : Type}.
Variable run : T -> Limiter.Settlement A E.

Lemma next_without_slots (c : Z) (s : Limiter.state T A E) :
  c <= 0 -> Limiter.active s = 0 -> Limiter.next c s = s.
Proof.
  intros Hc Ha. unfold Limiter.next. destruct (Limiter.queue s); [reflexivity|].
  destruct (Limiter.active s >=? c) eqn:Hge; [reflexivity|lia].
Qed.

Lemma exec_without_slots (c : Z) (evs : list (Limiter.event T)) :
  c <= 0 -> forall s s' : Limiter.state T A E,
  Limiter.active s = 0 -> Limiter.inflight s = [] ->
  Limiter.exec run c evs s = Some s' ->
  Limiter.active s' = 0 /\ Limiter.inflight s' = []
  /\ Limiter.started s' = Limiter.started s /\ Limiter.settled s' = Limiter.settled s
  /\ Limiter.queue s' = Limiter.queue s ++ Limiter.submitted evs
  /\ Forall (fun ev => exists fn, ev = Limiter.Submit fn) evs.
Proof.
  intros Hc. induction evs as [|[fn|k] evs IH]; intros s s' Ha Hi H; cbn in H.
  - injection H as <-. rewrite app_nil_r. repeat split; auto.
  - unfold Limiter.submit in H. rewrite next_without_slots in H by auto.
    apply IH in H; [|exact Ha|exact Hi]. cbn in H.
    destruct H as (H1 & H2 & H3 & H4 & H5 & H6).
    repeat (split; [assumption|]). split.
    + rewrite H5, <- app_assoc. reflexivity.
    + constructor; eauto.
  - unfold Limiter.settle in H. rewrite Hi in H. cbn in H. discriminate.
Qed.

(** X24: A limiter made with a concurrency of zero or less never starts a
    task: whatever is handed to it stays in its queue, in order, and no
    promise it returned ever settles.  (The handler's limiter is made with
    [Math.max(1, ...)] and so always has a slot.) *)
Theorem pLimit_without_slots
  (c : Z) (evs : list (Limiter.event T)) (s : Limiter.state T A E) :
  c <= 0 ->
  Limiter.exec run c evs Limiter.init = Some s ->
  Limiter.started s = [] /\ Limiter.settled s = []
  /\ Limiter.active s = 0 /\ Limiter.inflight s = []
  /\ Limiter.queue s = Limiter.submitted evs
  /\ Forall (fun ev => exists fn, ev = Limiter.Submit fn) evs.
Proof.
  intros Hc H.
  destruct (exec_without_slots c evs Hc Limiter.init s eq_refl eq_refl H) as (H1 & H2 & H3 & H4 & H5 & H6).
  cbn in *. auto 10.
Qed.

Lemma next_in_start_order (c : Z) (s : Limiter.state T A E) :
  in_start_order s -> in_start_order (Limiter.next c s).
Proof.
  unfold in_start_order, Limiter.next. intros H.
  destruct (Limiter.queue s) as [|e q]; [exact H|].
  destruct (Limiter.active s >=? c); [exact H|]. cbn. now rewrite app_assoc, H.
Qed.

(** Settling the task that has been in flight longest keeps the order. *)
Lemma settle_oldest_in_start_order (c : Z) (s s' : Limiter.state T A E) :
  in_start_order s -> Limiter.settle run c 0 s = Some s' -> in_start_order s'.
Proof.
  unfold Limiter.settle. intros H Hs.
  destruct (Limiter.inflight s) as [|e rest] eqn:Ei; [discriminate|]. cbn in Hs.
  injection Hs as <-. apply next_in_start_order. unfold in_start_order in *. cbn.
  rewrite map_app, <- app_assoc. cbn. rewrite Ei in *. exact H.
Qed.

Lemma settle_single_slot subm (k : nat) (s s' : Limiter.state T A E) :
  Limiter.inv run 1 subm s -> in_start_order s ->
  Limiter.settle run 1 k s = Some s' -> in_start_order s'.
Proof.
  intros Hi Ho Hs.
  assert (k = 0%nat) as ->.
  { destruct Hi as [Ha Hb _ _ _ _]. unfold Limiter.settle in Hs.
    destruct (Limiter.inflight s !! k) eqn:Hk; [|discriminate].
    apply lookup_lt_Some in Hk. lia. }
  eapply settle_oldest_in_start_order; eauto.
Qed.

Lemma exec_single_slot (evs : list (Limiter.event T)) : forall subm (s s' : Limiter.state T A E),
  Limiter.inv run 1 subm s -> in_start_order s ->
  Limiter.exec run 1 evs s = Some s' -> in_start_order s'.
Proof.
  induction evs as [|[fn|k] evs IH]; intros subm s s' Hi Ho H; cbn in H.
  - now injection H as <-.
  - eapply IH; [apply submit_inv, Hi| |exact H].
    unfold Limiter.submit. apply next_in_start_order. exact Ho.
  - destruct (Limiter.settle run 1 k s) as [s1|] eqn:Hs; [|discriminate].
    eapply IH; [eapply settle_inv; eauto| |exact H].
    eapply settle_single_slot; eauto.
Qed.

Lemma submit_all_in_start_order (c : Z) (fns : list T) : forall s : Limiter.state T A E,
  in_start_order s -> in_start_order (Limiter.submit_all c fns s).
Proof.
  induction fns as [|fn fns IH]; intros s Ho; cbn; [exact Ho|].
  apply IH. unfold Limiter.submit. apply next_in_start_order. exact Ho.
Qed.

Lemma drain_single_slot (fuel : nat) : forall sched subm (s : Limiter.state T A E),
  Limiter.inv run 1 subm s -> in_start_order s ->
  in_start_order (Limiter.drain run 1 sched fuel s).
Proof.
  induction fuel as [|fuel IH]; intros sched subm s Hi Ho; cbn; [exact Ho|].
  destruct (Limiter.inflight s) as [|e l] eqn:Ei; [exact Ho|].
  destruct (Limiter.settle run 1 _ s) as [s1|] eqn:Es; [|exact Ho].
  eapply IH; [eapply settle_inv; eauto|]. eapply settle_single_slot; eauto.
Qed.

(** X25: With one slot, which is what a machine with one or two CPUs gives
    the handler, the limiter is a queue served one task at a time: at most
    one task is in flight, tasks settle in the order they were handed in,
    and a fan-out ends with its tasks settled in exactly that order,
    whatever the order in which promises would be free to settle. *)
Theorem pLimit_single_slot_is_sequential
  (cpus : Z) (evs : list (Limiter.event T)) (s : Limiter.state T A E) :
  cpus <= 2 ->
  Limiter.exec run (MAX_CONCURRENCY cpus) evs Limiter.init = Some s ->
  MAX_CONCURRENCY cpus = 1
  /\ (length (Limiter.inflight s) <= 1)%nat
  /\ map fst (Limiter.settled s) ++ Limiter.inflight s ++ Limiter.queue s
     = Limiter.submitted evs
  /\ (forall sched fns,
        map fst (Limiter.settled (Limiter.run_all run (MAX_CONCURRENCY cpus) sched fns)) = fns).
Proof.
  intros Hc. assert (H1 : MAX_CONCURRENCY cpus = 1) by (unfold MAX_CONCURRENCY; lia).
  rewrite H1. intros H. split; [reflexivity|].
  pose proof (exec_inv run 1 evs [] _ _ (init_inv run 1) H) as Hi. cbn in Hi.
  pose proof (exec_single_slot evs [] _ _ (init_inv run 1) eq_refl H) as Ho.
  split; [destruct Hi as [Ha Hb _ _ _ _]; lia|].
  split.
  { destruct Hi as [_ _ Hf _ _ _]. rewrite app_assoc. unfold in_start_order in Ho.
    now rewrite Ho. }
  intros sched fns.
  destruct (run_all_done run 1 ltac:(lia) sched fns) as ([_ _ Hf _ _ _] & Hin & Hq).
  assert (Hord : in_start_order (Limiter.run_all run 1 sched fns)).
  { unfold Limiter.run_all.
    eapply drain_single_slot.
    - apply (submit_all_inv run 1 fns [] Limiter.init), init_inv.
    - apply submit_all_in_start_order. reflexivity. }
  unfold in_start_order in Hord. rewrite Hin, app_nil_r in Hord.
  rewrite Hq, app_nil_r in Hf. congruence.
Qed.

End LimiterEdges.

Lemma pLimit_without_slots_witness :
  Limiter.exec parity_run 0 two_submissions Limiter.init
  = Some {| Limiter.queue := [1%nat; 2%nat]; Limiter.active := 0; Limiter.inflight := [];
            Limiter.started := []; Limiter.settled := [] |}
  /\ Limiter.submitted two_submissions = [1%nat; 2%nat].
Proof.
  assert (H : Limiter.exec parity_run 0 two_submissions Limiter.init
              = Some {| Limiter.queue := [1%nat; 2%nat]; Limiter.active := 0;
                        Limiter.inflight := []; Limiter.started := [];
                        Limiter.settled := [] |}) by reflexivity.
  split; [exact H|].
  destruct (pLimit_without_slots parity_run 0 two_submissions _ ltac:(lia) H)
    as (_ & _ & _ & _ & Hq & _).
  symmetry. exact Hq.
Defined.

Lemma pLimit_single_slot_is_sequential_witness :
  Limiter.exec parity_run (MAX_CONCURRENCY 2)
    [Limiter.Submit 1%nat; Limiter.Submit 2%nat; Limiter.Settle 0%nat] Limiter.init
  = Some {| Limiter.queue := []; Limiter.active := 1; Limiter.inflight := [2%nat];
            Limiter.started := [1%nat; 2%nat];
            Limiter.settled := [(1%nat, Limiter.Rejected 1%nat)] |}
  /\ forall sched fns,
       map fst (Limiter.settled (Limiter.run_all parity_run (MAX_CONCURRENCY 2) sched fns))
       = fns.
Proof.
  assert (H : Limiter.exec parity_run (MAX_CONCURRENCY 2)
                [Limiter.Submit 1%nat; Limiter.Submit 2%nat; Limiter.Settle 0%nat] Limiter.init
              = Some {| Limiter.queue := []; Limiter.active := 1; Limiter.inflight := [2%nat];
                        Limiter.started := [1%nat; 2%nat];
                        Limiter.settled := [(1%nat, Limiter.Rejected 1%nat)] |})
    by reflexivity.
  split; [exact H|].
  destruct (pLimit_single_slot_is_sequential parity_run 2 _ _ ltac:(lia) H) as (_ & _ & _ & Hall).
  exact Hall.
Defined.
